(** * Real-time voice session of xennials.photo: audio codec and LiveChatService

    Shallow embedding of [src/services/audioUtils.ts] and of the class
    [LiveChatService] of [src/services/geminiService.ts]; further on, of the
    edit history of [src/App.tsx], of the data-URL helpers and
    [handleApiResponse], of the class [TextChatService], and of the
    transcript observer of the voice panel in
    [src/components/VideoGeneratorPanel.tsx].

    Conventions of the embedding.
    - A JavaScript "binary string" (every code unit below 256) is a
      [string]; a [Uint8Array] is a [list byte].
    - Samples, clock values and durations are exact rationals [Q].  The
      products and quotients by a power of two that the codec computes are
      exact in double precision; the rounding of the additions of clock
      values and durations is not modelled.  The non-finite doubles are
      separate constructors where the code can meet them.
    - A nullable object reference is an [option handle]; the identity of the
      object is the [handle] the platform returned.
    - Calls into the platform (console, observers, audio nodes, the channel)
      are recorded, in program order, in a list of [Effect]s returned next to
      the new state.
    - The code runs on one event loop.  Each callback is one transition of
      the session object.  [startSession] is two transitions, because it
      suspends at [await getUserMedia] and other callbacks can run before it
      resumes; the [await] in [onmessage] waits for the local, synchronous
      [decodeAudioData] and resumes before any other callback, so that
      [onmessage] is one transition.
    - Typed arrays are read and written in little-endian byte order. *)

From Stdlib Require Import ZArith NArith QArith Qminmax Qround Qabs List String Ascii Bool Lia.
From Stdlib Require Import Strings.Byte.
Import ListNotations.

Set Implicit Arguments.

(* ================================================================== *)
(** ** Platform functions [btoa] and [atob] *)
(* ================================================================== *)

Module Base64.

Local Open Scope N_scope.

Definition alphabet : string :=
  "ABCDEFGHIJKLMNOPQRSTUVWXYZabcdefghijklmnopqrstuvwxyz0123456789+/".

Definition pad : ascii := "="%char.

(** The character that stands for the 6-bit value [n]. *)
Definition char_of_sextet (n : N) : ascii :=
  match String.get (N.to_nat n) alphabet with
  | Some c => c
  | None => pad
  end.

Fixpoint index_from (c : ascii) (s : string) (i : N) : option N :=
  match s with
  | EmptyString => None
  | String d r => if Ascii.eqb c d then Some i else index_from c r (i + 1)
  end.

(** The 6-bit value of a character of the alphabet. *)
Definition sextet_of_char (c : ascii) : option N := index_from c alphabet 0.

(** [btoa] on the code units of its argument: three bytes give four
    characters, a rest of one or two bytes is padded with [=]. *)
Fixpoint btoa_units (l : list N) : list ascii :=
  match l with
  | [] => []
  | [a] =>
      [char_of_sextet (a / 4); char_of_sextet ((a mod 4) * 16); pad; pad]
  | [a; b] =>
      [char_of_sextet (a / 4); char_of_sextet ((a mod 4) * 16 + b / 16);
       char_of_sextet ((b mod 16) * 4); pad]
  | a :: b :: c :: rest =>
      char_of_sextet (a / 4)
        :: char_of_sextet ((a mod 4) * 16 + b / 16)
        :: char_of_sextet ((b mod 16) * 4 + c / 64)
        :: char_of_sextet (c mod 64)
        :: btoa_units rest
  end.

Definition btoa (binary : string) : string :=
  string_of_list_ascii
    (btoa_units (List.map N_of_ascii (list_ascii_of_string binary))).

(** ASCII whitespace: TAB, LF, FF, CR and SPACE. *)
Definition is_whitespace (c : ascii) : bool :=
  let n := N_of_ascii c in
  (n =? 9) || (n =? 10) || (n =? 12) || (n =? 13) || (n =? 32).

Definition is_pad (c : ascii) : bool := Ascii.eqb c pad.

(** When the length is a multiple of four, one or two [=] at the end are
    removed. *)
Definition strip_padding (l : list ascii) : list ascii :=
  if (N.of_nat (List.length l) mod 4 =? 0) then
    match List.rev l with
    | c1 :: c2 :: r =>
        if is_pad c1
        then (if is_pad c2 then List.rev r else List.rev (c2 :: r))
        else l
    | [c1] => if is_pad c1 then [] else l
    | [] => l
    end
  else l.

Fixpoint sextets (l : list ascii) : option (list N) :=
  match l with
  | [] => Some []
  | c :: r =>
      match sextet_of_char c, sextets r with
      | Some n, Some ns => Some (n :: ns)
      | _, _ => None
      end
  end.

(** Four sextets give three bytes; a rest of two gives one byte and a rest
    of three gives two, the surplus bits being dropped; a rest of one is an
    error. *)
Fixpoint atob_units (l : list N) : option (list N) :=
  match l with
  | [] => Some []
  | [_] => None
  | [a; b] => Some [(a * 64 + b) / 16]
  | [a; b; c] =>
      let n := (a * 64 + b) * 64 + c in
      Some [n / 1024; (n / 4) mod 256]
  | a :: b :: c :: d :: rest =>
      let n := ((a * 64 + b) * 64 + c) * 64 + d in
      match atob_units rest with
      | Some bs => Some (n / 65536 :: (n / 256) mod 256 :: n mod 256 :: bs)
      | None => None
      end
  end.

(** [atob]: [None] stands for the [InvalidCharacterError] it throws. *)
Definition atob (base64 : string) : option string :=
  let data :=
    List.filter (fun c => negb (is_whitespace c))
                (list_ascii_of_string base64) in
  match sextets (strip_padding data) with
  | None => None
  | Some ns =>
      match atob_units ns with
      | None => None
      | Some bs => Some (string_of_list_ascii (List.map ascii_of_N bs))
      end
  end.

End Base64.

(* ================================================================== *)
(** ** audioUtils.ts *)
(* ================================================================== *)

(** [decode]: the byte at index [i] is [binaryString.charCodeAt(i)]; the
    code units [atob] returns are below 256, which is what [byte_of_ascii]
    reads. *)
Definition decode (base64 : string) : option (list byte) :=
  match Base64.atob base64 with
  | None => None
  | Some binaryString =>
      Some (List.map byte_of_ascii (list_ascii_of_string binaryString))
  end.

(** [encode]: [binary] collects [String.fromCharCode(bytes[i])]. *)
Fixpoint binary_of_bytes (bytes : list byte) : string :=
  match bytes with
  | [] => EmptyString
  | b :: r => String (ascii_of_byte b) (binary_of_bytes r)
  end.

Definition encode (bytes : list byte) : string :=
  Base64.btoa (binary_of_bytes bytes).

(** *** Thrown values *)

Inductive Exception :=
| InvalidCharacterError            (* atob on a malformed string *)
| RangeError                       (* typed-array view of a misaligned buffer *)
| NotSupportedError.               (* createBuffer outside its nominal range *)

Inductive outcome (A : Type) :=
| Returns (a : A)
| Throws (e : Exception).

Arguments Returns {A} a.
Arguments Throws {A} e.

(** *** decodeAudioData *)

Local Open Scope Z_scope.

(** The 16-bit signed integer stored little-endian in two bytes. *)
Definition int16_of_bytes (lo hi : byte) : Z :=
  let u := Z.of_N (Byte.to_N lo) + 256 * Z.of_N (Byte.to_N hi) in
  if u <? 32768 then u else u - 65536.

(** [new Int16Array(data.buffer)]: the view exists only on a buffer whose
    byte length is a multiple of two; [None] is the [RangeError]. *)
Fixpoint Int16Array_of_buffer (data : list byte) : option (list Z) :=
  match data with
  | [] => Some []
  | [_] => None
  | lo :: hi :: rest =>
      match Int16Array_of_buffer rest with
      | Some v => Some (int16_of_bytes lo hi :: v)
      | None => None
      end
  end.

Record AudioBuffer := mkAudioBuffer {
  numberOfChannels : nat;
  buffer_length : nat;              (* in sample frames *)
  sampleRate : Q;
  channelData : list (list Q)       (* one list of samples per channel *)
}.

Definition duration (b : AudioBuffer) : Q :=
  (inject_Z (Z.of_nat (buffer_length b)) / sampleRate b)%Q.

(** The nominal ranges of [ctx.createBuffer].  The Web Audio specification
    requires at least 8000 to 96000 Hz and 32 channels and leaves the limits
    to the implementation; these are the limits of Chromium. *)
Definition minSampleRate : Q := 3000.
Definition maxSampleRate : Q := 768000.
Definition maxChannels : nat := 32.

(** [ctx.createBuffer]: a channel count or a length that is zero, a channel
    count above [maxChannels] and a rate outside
    [minSampleRate .. maxSampleRate] are refused with a
    [NotSupportedError].  One channel at 24000 Hz, the only call of the
    session, is within the ranges of every implementation. *)
Definition createBuffer (channels frames : nat) (rate : Q)
  : outcome AudioBuffer :=
  if (Nat.eqb channels 0 || Nat.ltb maxChannels channels
      || Nat.eqb frames 0
      || negb (Qle_bool minSampleRate rate)
      || negb (Qle_bool rate maxSampleRate))%bool
  then Throws NotSupportedError
  else Returns (mkAudioBuffer channels frames rate
                              (List.repeat (List.repeat 0%Q frames) channels)).

(** The two loops of [decodeAudioData]: sample [i] of channel [channel] is
    [dataInt16[i * numChannels + channel] / 32768.0]. *)
Definition fill_channel (dataInt16 : list Z) (numChannels frames channel : nat)
  : list Q :=
  List.map
    (fun i => (inject_Z (List.nth (i * numChannels + channel) dataInt16 0%Z)
               / 32768)%Q)
    (List.seq 0 frames).

(** [frameCount] is [dataInt16.length / numChannels]; [createBuffer] takes
    its integer part as the length, and the writes of the loop beyond that
    length fall outside the channel array and are dropped. *)
Definition decodeAudioData (data : list byte) (rate : Q) (numChannels : nat)
  : outcome AudioBuffer :=
  match Int16Array_of_buffer data with
  | None => Throws RangeError
  | Some dataInt16 =>
      let frameCount := Nat.div (List.length dataInt16) numChannels in
      match createBuffer numChannels frameCount rate with
      | Throws e => Throws e
      | Returns buffer =>
          Returns (mkAudioBuffer
                     (numberOfChannels buffer) (buffer_length buffer)
                     (sampleRate buffer)
                     (List.map (fill_channel dataInt16 numChannels frameCount)
                               (List.seq 0 numChannels)))
      end
  end.

(** *** createBlob *)

(** An element of a [Float32Array]: a finite value (a dyadic rational) or
    one of the three non-finite values. *)
Inductive float :=
| Finite (q : Q)
| Infinity
| NegInfinity
| NaN.

(** [data[i] * 32768]: scaling a single-precision value by a power of two
    is exact in double precision. *)
Definition times_32768 (x : float) : float :=
  match x with
  | Finite q => Finite (q * 32768)%Q
  | other => other
  end.

(** Integer part, rounding toward zero. *)
Definition truncate (q : Q) : Z := Z.quot (Qnum q) (Zpos (Qden q)).

(** Storing a number in an [Int16Array]: the integer part modulo 2^16,
    read as a signed 16-bit value; the non-finite values store 0. *)
Definition ToInt16 (x : float) : Z :=
  match x with
  | Finite q =>
      let m := (truncate q) mod 65536 in
      if m <? 32768 then m else m - 65536
  | _ => 0
  end.

Definition int16_of_sample (s : float) : Z := ToInt16 (times_32768 s).

Definition byte_of_Z (z : Z) : byte :=
  match Byte.of_N (Z.to_N (z mod 256)) with
  | Some b => b
  | None => x00
  end.

(** [new Uint8Array(int16.buffer)]: low byte first. *)
Fixpoint Uint8Array_of_int16 (v : list Z) : list byte :=
  match v with
  | [] => []
  | z :: r => byte_of_Z z :: byte_of_Z (z / 256) :: Uint8Array_of_int16 r
  end.

Record Blob := mkBlob { blob_data : string; mimeType : string }.

Definition createBlob (data : list float) : Blob :=
  let int16 := List.map int16_of_sample data in
  mkBlob (encode (Uint8Array_of_int16 int16)) "audio/pcm;rate=16000".

(** The mapping the specification words for [encode]:
    [round(clamp(s, -1, 1) * 32767)], with [round] to the nearest integer
    (halves upward). *)
Definition spec_clamp (s : Q) : Q :=
  if Qle_bool s (-1) then (-1)%Q else if Qle_bool 1 s then 1%Q else s.

Definition spec_round (q : Q) : Z := Qfloor (q + (1 # 2))%Q.

Definition spec_int16_of_sample (s : Q) : Z :=
  spec_round (spec_clamp s * 32767)%Q.

(* ================================================================== *)
(** ** geminiService.ts: class LiveChatService *)
(* ================================================================== *)

Local Open Scope string_scope.
Local Open Scope list_scope.

(** Identity of a platform object (audio context, node, stream, promise). *)
Definition handle := nat.

(** An [AudioBufferSourceNode] on which [start(when)] has been called. *)
Record BufferSource := mkSource {
  source_node : handle;
  start_when : Q;                   (* the argument of [start] *)
  buffer_duration : Q               (* [audioBuffer.duration] *)
}.

Record LiveChatService := mkService {
  sessionPromise : option handle;
  inputAudioContext : option handle;
  outputAudioContext : option handle;
  scriptProcessor : option handle;
  mediaStreamSource : option handle;
  mediaStream : option handle;
  outputNode : option handle;
  sources : list BufferSource;      (* a [Set], in insertion order *)
  nextStartTime : Q;
  currentInputTranscription : string;
  currentOutputTranscription : string
}.

(** The field initialisers of the class. *)
Definition initial : LiveChatService :=
  mkService None None None None None None None [] 0 "" "".

Inductive Effect :=
| console_warn (m : string)
| console_error (m : string)
| console_debug (m : string)
| setError (m : option string)
| onTranscriptionUpdate (input output : string)
| node_connect (node destination : handle)
| node_disconnect (node : handle)
| source_start (s : BufferSource)
| source_stop (node : handle)
| tracks_stop (stream : handle)
| context_close (ctx : handle)
| session_close (promise : handle)
| sendRealtimeInput (promise : handle) (media : Blob).

(** An inbound message, reduced to what [onmessage] reads:
    [serverContent?.modelTurn?.parts[0]?.inlineData?.data], the two
    transcriptions and the two flags.  [inlineData] is [None] when any link
    of that chain is missing; a [modelTurn] without a [parts] array, on
    which the handler stops with a [TypeError], is not represented. *)
Record Transcription := mkTranscription { text : option string }.

Record LiveServerMessage := mkMessage {
  inlineData : option string;
  outputTranscription : option Transcription;
  inputTranscription : option Transcription;
  turnComplete : bool;
  interrupted : bool
}.

(** What [+=] appends for a [text] that may be missing. *)
Definition text_to_append (t : Transcription) : string :=
  match text t with
  | Some s => s
  | None => "undefined"
  end.

(** *** Field updates *)

Definition with_sessionPromise (v : option handle) (s : LiveChatService) :=
  mkService v (inputAudioContext s) (outputAudioContext s)
            (scriptProcessor s) (mediaStreamSource s) (mediaStream s)
            (outputNode s) (sources s) (nextStartTime s)
            (currentInputTranscription s) (currentOutputTranscription s).

Definition with_inputAudioContext (v : option handle) (s : LiveChatService) :=
  mkService (sessionPromise s) v (outputAudioContext s)
            (scriptProcessor s) (mediaStreamSource s) (mediaStream s)
            (outputNode s) (sources s) (nextStartTime s)
            (currentInputTranscription s) (currentOutputTranscription s).

Definition with_outputAudioContext (v : option handle) (s : LiveChatService) :=
  mkService (sessionPromise s) (inputAudioContext s) v
            (scriptProcessor s) (mediaStreamSource s) (mediaStream s)
            (outputNode s) (sources s) (nextStartTime s)
            (currentInputTranscription s) (currentOutputTranscription s).

Definition with_scriptProcessor (v : option handle) (s : LiveChatService) :=
  mkService (sessionPromise s) (inputAudioContext s) (outputAudioContext s)
            v (mediaStreamSource s) (mediaStream s)
            (outputNode s) (sources s) (nextStartTime s)
            (currentInputTranscription s) (currentOutputTranscription s).

Definition with_mediaStreamSource (v : option handle) (s : LiveChatService) :=
  mkService (sessionPromise s) (inputAudioContext s) (outputAudioContext s)
            (scriptProcessor s) v (mediaStream s)
            (outputNode s) (sources s) (nextStartTime s)
            (currentInputTranscription s) (currentOutputTranscription s).

Definition with_mediaStream (v : option handle) (s : LiveChatService) :=
  mkService (sessionPromise s) (inputAudioContext s) (outputAudioContext s)
            (scriptProcessor s) (mediaStreamSource s) v
            (outputNode s) (sources s) (nextStartTime s)
            (currentInputTranscription s) (currentOutputTranscription s).

Definition with_outputNode (v : option handle) (s : LiveChatService) :=
  mkService (sessionPromise s) (inputAudioContext s) (outputAudioContext s)
            (scriptProcessor s) (mediaStreamSource s) (mediaStream s)
            v (sources s) (nextStartTime s)
            (currentInputTranscription s) (currentOutputTranscription s).

Definition with_sources (v : list BufferSource) (s : LiveChatService) :=
  mkService (sessionPromise s) (inputAudioContext s) (outputAudioContext s)
            (scriptProcessor s) (mediaStreamSource s) (mediaStream s)
            (outputNode s) v (nextStartTime s)
            (currentInputTranscription s) (currentOutputTranscription s).

Definition with_nextStartTime (v : Q) (s : LiveChatService) :=
  mkService (sessionPromise s) (inputAudioContext s) (outputAudioContext s)
            (scriptProcessor s) (mediaStreamSource s) (mediaStream s)
            (outputNode s) (sources s) v
            (currentInputTranscription s) (currentOutputTranscription s).

Definition with_transcriptions (i o : string) (s : LiveChatService) :=
  mkService (sessionPromise s) (inputAudioContext s) (outputAudioContext s)
            (scriptProcessor s) (mediaStreamSource s) (mediaStream s)
            (outputNode s) (sources s) (nextStartTime s) i o.

(** *** Statements in sequence *)

(** A block of statements: the new object state and the platform calls it
    made, in order. *)
Definition block := LiveChatService -> LiveChatService * list Effect.

Definition andThen (f g : block) : block :=
  fun s =>
    let (s1, e1) := f s in
    let (s2, e2) := g s1 in
    (s2, e1 ++ e2).

Infix ";;" := andThen (at level 61, left associativity).

Definition call (e : Effect) : block := fun s => (s, [e]).

Definition assign (f : LiveChatService -> LiveChatService) : block :=
  fun s => (f s, []).

Definition skip : block := fun s => (s, []).

(** *** The [Set] of sources *)

Definition has_node (n : handle) (src : BufferSource) : bool :=
  Nat.eqb (source_node src) n.

(** [sources.add(source)] *)
Definition sources_add (src : BufferSource) (l : list BufferSource) :=
  if List.existsb (has_node (source_node src)) l then l else l ++ [src].

(** [sources.delete(source)] *)
Definition sources_delete (n : handle) (l : list BufferSource) :=
  List.filter (fun src => negb (has_node n src)) l.

(** [for (const source of this.sources.values()) source.stop()] *)
Definition stop_all (l : list BufferSource) : list Effect :=
  List.map (fun src => source_stop (source_node src)) l.

(** *** stopSessionCleanup and stopSession *)

Definition release_scriptProcessor : block := fun s =>
  match scriptProcessor s with
  | Some p => (with_scriptProcessor None s, [node_disconnect p])
  | None => (s, [])
  end.

Definition release_mediaStreamSource : block := fun s =>
  match mediaStreamSource s with
  | Some n => (with_mediaStreamSource None s, [node_disconnect n])
  | None => (s, [])
  end.

Definition release_mediaStream : block := fun s =>
  match mediaStream s with
  | Some m => (with_mediaStream None s, [tracks_stop m])
  | None => (s, [])
  end.

Definition release_inputAudioContext : block := fun s =>
  match inputAudioContext s with
  | Some c => (with_inputAudioContext None s, [context_close c])
  | None => (s, [])
  end.

Definition release_outputAudioContext : block := fun s =>
  match outputAudioContext s with
  | Some c =>
      (with_outputAudioContext None
         (with_nextStartTime 0 (with_sources [] s)),
       stop_all (sources s) ++ [context_close c])
  | None => (s, [])
  end.

Definition release_outputNode : block := fun s =>
  match outputNode s with
  | Some n => (with_outputNode None s, [node_disconnect n])
  | None => (s, [])
  end.

Definition final_update : block := fun s =>
  (with_transcriptions "" "" s,
   [onTranscriptionUpdate (currentInputTranscription s)
                          (currentOutputTranscription s);
    console_debug "Live session cleanup complete."]).

Definition stopSessionCleanup : block :=
  release_scriptProcessor ;; release_mediaStreamSource ;;
  release_mediaStream ;; release_inputAudioContext ;;
  release_outputAudioContext ;; release_outputNode ;; final_update.

(** [session.close()] runs when the promise resolves; its request is
    recorded where [then] is called. *)
Definition close_channel : block := fun s =>
  match sessionPromise s with
  | Some p => (with_sessionPromise None s, [session_close p])
  | None => (s, [])
  end.

Definition stopSession : block := close_channel ;; stopSessionCleanup.

(** *** startSession *)

(** What a [catch (err)] receives: an [Error] with its message, or any
    other value. *)
Inductive thrown :=
| Error (message : string)
| NotAnError.

(** A platform call that hands back an object or fails. *)
Inductive attempt (A : Type) :=
| Done (a : A)
| Failed (err : thrown).

Arguments Done {A} a.
Arguments Failed {A} err.

Inductive StartResult :=
| ReturnsUndefined                  (* the bare [return] of the guard *)
| ReturnsFalse
| ReturnsTrue.

Definition message_of (err : thrown) : string :=
  match err with
  | Error m => m
  | NotAnError => "An unknown error occurred."
  end.

(** The [catch] branch. *)
Definition start_failed (err : thrown) : block :=
  call (console_error "Failed to start live session:") ;;
  call (setError (Some ("Failed to start voice chat: " ++ message_of err)%string)) ;;
  stopSession.

(** [startSession] up to [await getUserMedia]: [None] in the result means
    that the call is suspended there.  [inCtx] and [outCtx] are what the
    two [new window.AudioContext] do, [gain] is the node [createGain]
    returns. *)
Definition startSession_begin (inCtx outCtx : attempt handle) (gain : handle)
           (s : LiveChatService)
  : LiveChatService * list Effect * option StartResult :=
  match sessionPromise s with
  | Some _ => (s, [console_warn "Session already active."], Some ReturnsUndefined)
  | None =>
      let entry :=
        call (setError None) ;;
        assign (with_transcriptions "" "") ;;
        call (onTranscriptionUpdate "" "") in
      match inCtx with
      | Failed err =>
          (((entry ;; start_failed err) s), Some ReturnsFalse)
      | Done ic =>
          match outCtx with
          | Failed err =>
              (((entry ;; assign (with_inputAudioContext (Some ic)) ;;
                 start_failed err) s), Some ReturnsFalse)
          | Done oc =>
              (((entry ;; assign (with_inputAudioContext (Some ic)) ;;
                 assign (with_outputAudioContext (Some oc)) ;;
                 assign (with_outputNode (Some gain)) ;;
                 call (node_connect gain oc)) s), None)
          end
      end
  end.

(** The rest of [startSession], run when the promise of [getUserMedia]
    settles: [stream] is its result, [session] what
    [new GoogleGenAI(...)] followed by [ai.live.connect(...)] does. *)
Definition startSession_resume (stream session : attempt handle)
           (s : LiveChatService)
  : LiveChatService * list Effect * StartResult :=
  match stream with
  | Failed err => (start_failed err s, ReturnsFalse)
  | Done m =>
      match session with
      | Failed err =>
          ((assign (with_mediaStream (Some m)) ;; start_failed err) s,
           ReturnsFalse)
      | Done p =>
          ((assign (with_mediaStream (Some m)) ;;
            assign (with_sessionPromise (Some p))) s, ReturnsTrue)
      end
  end.

(** What every platform call of one [startSession] does. *)
Record StartPlatform := mkPlatform {
  new_inputAudioContext : attempt handle;
  new_outputAudioContext : attempt handle;
  createGain : handle;
  getUserMedia : attempt handle;
  live_connect : attempt handle
}.

(** [startSession] when nothing else runs while it awaits the microphone. *)
Definition startSession (p : StartPlatform) (s : LiveChatService)
  : LiveChatService * list Effect * StartResult :=
  match startSession_begin (new_inputAudioContext p)
                           (new_outputAudioContext p) (createGain p) s with
  | (s1, e1, Some r) => (s1, e1, r)
  | (s1, e1, None) =>
      match startSession_resume (getUserMedia p) (live_connect p) s1 with
      | (s2, e2, r) => (s2, e1 ++ e2, r)
      end
  end.

(** *** The callbacks of the channel *)

Definition onopen (streamSource processor : handle) : block := fun s =>
  match inputAudioContext s, mediaStream s with
  | Some ctx, Some _ =>
      (with_scriptProcessor (Some processor)
         (with_mediaStreamSource (Some streamSource) s),
       [console_debug "Live session opened.";
        node_connect streamSource processor;
        node_connect processor ctx])
  | _, _ => (s, [console_debug "Live session opened."])
  end.

Definition onaudioprocess (inputData : list float) : block := fun s =>
  match sessionPromise s with
  | Some p => (s, [sendRealtimeInput p (createBlob inputData)])
  | None => (s, [])
  end.

(** [decodeAudioData(decode(base64), ctx, 24000, 1)] *)
Definition decode_packet (base64 : string) : outcome AudioBuffer :=
  match decode base64 with
  | None => Throws InvalidCharacterError
  | Some data => decodeAudioData data 24000 1
  end.

(** "Handle audio output": [currentTime] is [outputAudioContext.currentTime]
    and [node] the node [createBufferSource] returns. *)
Definition play_audio (m : LiveServerMessage) (currentTime : Q) (node : handle)
  : block := fun s =>
  match inlineData m, outputAudioContext s, outputNode s with
  | Some base64, Some _, Some out =>
      if String.eqb base64 "" then (s, [])
      else
        let s1 := with_nextStartTime (Qmax (nextStartTime s) currentTime) s in
        match decode_packet base64 with
        | Returns audioBuffer =>
            let source :=
              mkSource node (nextStartTime s1) (duration audioBuffer) in
            (with_sources (sources_add source (sources s1))
               (with_nextStartTime
                  (nextStartTime s1 + duration audioBuffer)%Q s1),
             [node_connect node out; source_start source])
        | Throws _ =>
            (s1, [console_error "Error decoding or playing audio:";
                  setError (Some "Failed to play audio response.")])
        end
  | _, _, _ => (s, [])
  end.

(** "Handle transcription" *)
Definition append_output (m : LiveServerMessage) : block := fun s =>
  match outputTranscription m with
  | Some t =>
      (with_transcriptions
         (currentInputTranscription s)
         (currentOutputTranscription s ++ text_to_append t)%string s, [])
  | None => (s, [])
  end.

Definition append_input (m : LiveServerMessage) : block := fun s =>
  match inputTranscription m with
  | Some t =>
      (with_transcriptions
         (currentInputTranscription s ++ text_to_append t)%string
         (currentOutputTranscription s) s, [])
  | None => (s, [])
  end.

Definition report_transcription (m : LiveServerMessage) : block := fun s =>
  let update :=
    onTranscriptionUpdate (currentInputTranscription s)
                          (currentOutputTranscription s) in
  if turnComplete m
  then (with_transcriptions "" "" s, [update])
  else (s, [update]).

(** "Handle interruptions": every source is stopped and deleted from the
    set while the set is being iterated. *)
Definition delete_each (l : list BufferSource) : list BufferSource :=
  List.fold_left (fun acc src => sources_delete (source_node src) acc) l l.

Definition interrupt (m : LiveServerMessage) : block := fun s =>
  if interrupted m
  then (with_nextStartTime 0 (with_sources (delete_each (sources s)) s),
        stop_all (sources s))
  else (s, []).

Definition onmessage (m : LiveServerMessage) (currentTime : Q) (node : handle)
  : block :=
  play_audio m currentTime node ;;
  append_output m ;; append_input m ;; report_transcription m ;;
  interrupt m.

Definition onerror : block :=
  call (console_error "Live session error:") ;;
  call (setError (Some "Voice chat encountered an error. Please try again.")) ;;
  stopSession.

Definition onclose : block :=
  call (console_debug "Live session closed:") ;; stopSessionCleanup.

(** The listener of ['ended'] on a source. *)
Definition onended (node : handle) : block :=
  assign (fun s => with_sources (sources_delete node (sources s)) s).

(** *** The event loop *)

Inductive Event :=
| start_called (inCtx outCtx : attempt handle) (gain : handle)
| microphone_settled (stream session : attempt handle)
| channel_open (streamSource processor : handle)
| audio_process (inputData : list float)
| channel_message (m : LiveServerMessage) (currentTime : Q) (node : handle)
| source_ended (node : handle)
| channel_error
| channel_close
| stop_called.

Definition handle_event (ev : Event) : block := fun s =>
  match ev with
  | start_called inCtx outCtx gain =>
      fst (startSession_begin inCtx outCtx gain s)
  | microphone_settled stream session =>
      fst (startSession_resume stream session s)
  | channel_open streamSource processor => onopen streamSource processor s
  | audio_process inputData => onaudioprocess inputData s
  | channel_message m currentTime node => onmessage m currentTime node s
  | source_ended node => onended node s
  | channel_error => onerror s
  | channel_close => onclose s
  | stop_called => stopSession s
  end.

Fixpoint run (evs : list Event) : block :=
  match evs with
  | [] => skip
  | ev :: rest => handle_event ev ;; run rest
  end.

Inductive reachable : LiveChatService -> Prop :=
| reachable_initial : reachable initial
| reachable_step s ev :
    reachable s -> reachable (fst (handle_event ev s)).

(** The sources started by a sequence of platform calls, in order. *)
Fixpoint scheduled (effects : list Effect) : list BufferSource :=
  match effects with
  | [] => []
  | source_start src :: rest => src :: scheduled rest
  | _ :: rest => scheduled rest
  end.


(** *** Vocabulary of the statements *)

(** The snapshots handed to the transcript observer, in order. *)
Fixpoint updates (effects : list Effect) : list (string * string) :=
  match effects with
  | [] => []
  | onTranscriptionUpdate i o :: rest => (i, o) :: updates rest
  | _ :: rest => updates rest
  end.

(** A message that carries input transcription text only, one that only
    signals the end of the turn, one that carries audio only. *)
Definition input_message (t : string) : LiveServerMessage :=
  mkMessage None None (Some (mkTranscription (Some t))) false false.

Definition turnComplete_message : LiveServerMessage :=
  mkMessage None None None true false.

Definition audio_message (base64 : string) : LiveServerMessage :=
  mkMessage (Some base64) None None false false.

Definition interrupted_message : LiveServerMessage :=
  mkMessage None None None false true.

(** The text a message adds to a transcript buffer. *)
Definition appended (t : option Transcription) : string :=
  match t with
  | Some t => text_to_append t
  | None => ""
  end.

(** A packet of [frames] frames of silence, as it arrives on the channel. *)
Definition silence (frames : nat) : string :=
  encode (List.repeat x00 (2 * frames)).

(** A session in its steady state: channel, contexts, stream and output
    node are held and nothing is scheduled. *)
Definition active_session : LiveChatService :=
  mkService (Some 5%nat) (Some 1%nat) (Some 2%nat) None None (Some 4%nat)
            (Some 3%nat) [] 0 "" "".

(** Two states hold the same channel, devices and nodes. *)
Definition same_handles (s s' : LiveChatService) : Prop :=
  sessionPromise s' = sessionPromise s /\
  inputAudioContext s' = inputAudioContext s /\
  outputAudioContext s' = outputAudioContext s /\
  scriptProcessor s' = scriptProcessor s /\
  mediaStreamSource s' = mediaStreamSource s /\
  mediaStream s' = mediaStream s /\
  outputNode s' = outputNode s.

(** [R (end of a unit) (start of the next one)] for every two consecutive
    units. *)
Fixpoint back_to_back (R : Q -> Q -> Prop) (l : list BufferSource) : Prop :=
  match l with
  | [] => True
  | u :: rest =>
      match rest with
      | [] => True
      | v :: _ => R (start_when u + buffer_duration u)%Q (start_when v)
      end /\ back_to_back R rest
  end.

(** An event that neither interrupts playback nor starts or ends the
    session. *)
Definition plays_on (ev : Event) : Prop :=
  match ev with
  | channel_message m _ _ => interrupted m = false
  | channel_open _ _ | audio_process _ | source_ended _ => True
  | _ => False
  end.

(** Every audio packet of the run arrives while the output clock has not
    passed the end of what is already scheduled. *)
Fixpoint fed_in_time (evs : list Event) (s : LiveChatService) : Prop :=
  match evs with
  | [] => True
  | ev :: rest =>
      match ev with
      | channel_message _ currentTime _ => (currentTime <= nextStartTime s)%Q
      | _ => True
      end /\ fed_in_time rest (fst (handle_event ev s))
  end.

(** The padding [btoa] may end with. *)
Definition is_padding (p : list ascii) : Prop :=
  p = [] \/ p = [Base64.pad] \/ p = [Base64.pad; Base64.pad].

(** The first platform call of a [startSession] that fails, in program
    order, if any does. *)
Definition start_failure (p : StartPlatform) : option thrown :=
  match new_inputAudioContext p with
  | Failed err => Some err
  | Done _ =>
      match new_outputAudioContext p with
      | Failed err => Some err
      | Done _ =>
          match getUserMedia p with
          | Failed err => Some err
          | Done _ =>
              match live_connect p with
              | Failed err => Some err
              | Done _ => None
              end
          end
      end
  end.

(** The release of everything that [startSession] had acquired when a call
    failed: contexts closed, tracks stopped, output node disconnected. *)
Definition releases_acquired (p : StartPlatform) (effects : list Effect)
  : Prop :=
  match new_inputAudioContext p with
  | Failed _ => True
  | Done ic =>
      In (context_close ic) effects /\
      match new_outputAudioContext p with
      | Failed _ => True
      | Done oc =>
          In (context_close oc) effects /\
          In (node_disconnect (createGain p)) effects /\
          match getUserMedia p with
          | Failed _ => True
          | Done m => In (tracks_stop m) effects
          end
      end
  end.



(** The three ways a session is torn down. *)
Definition teardown (ev : Event) : Prop :=
  ev = stop_called \/ ev = channel_error \/ ev = channel_close.

(** Without an output context nothing is scheduled and the schedule is at
    its origin. *)
Definition tidy (s : LiveChatService) : Prop :=
  outputAudioContext s = None -> sources s = [] /\ nextStartTime s = 0%Q.

(** *** Vocabulary of the further statements on the session *)

(** An event that leaves the turn open: it neither completes the turn nor
    starts or ends the session. *)
Definition keeps_turn (ev : Event) : Prop :=
  match ev with
  | channel_message m _ _ => turnComplete m = false
  | channel_open _ _ | audio_process _ | source_ended _ => True
  | _ => False
  end.

(** The input and the output text that the messages of a run append. *)
Fixpoint appended_input (evs : list Event) : string :=
  match evs with
  | [] => ""
  | channel_message m _ _ :: rest =>
      (appended (inputTranscription m) ++ appended_input rest)%string
  | _ :: rest => appended_input rest
  end.

Fixpoint appended_output (evs : list Event) : string :=
  match evs with
  | [] => ""
  | channel_message m _ _ :: rest =>
      (appended (outputTranscription m) ++ appended_output rest)%string
  | _ :: rest => appended_output rest
  end.

Fixpoint messages_in (evs : list Event) : nat :=
  match evs with
  | [] => 0%nat
  | channel_message _ _ _ :: rest => S (messages_in rest)
  | _ :: rest => messages_in rest
  end.

(** Every message of the run is read at a clock value that is not
    negative. *)
Definition clock_not_negative (ev : Event) : Prop :=
  match ev with
  | channel_message _ currentTime _ => (0 <= currentTime)%Q
  | _ => True
  end.

(** The clock value at which a unit was scheduled, paired with the unit. *)
Fixpoint scheduled_at (evs : list Event) (s : LiveChatService)
  : list (Q * BufferSource) :=
  match evs with
  | [] => []
  | ev :: rest =>
      match ev with
      | channel_message _ currentTime _ =>
          List.map (fun u => (currentTime, u))
                   (scheduled (snd (handle_event ev s)))
      | _ => []
      end ++ scheduled_at rest (fst (handle_event ev s))
  end.

(* ================================================================== *)
(** ** App.tsx: the edit history *)
(* ================================================================== *)

(** A [File]: its name, its MIME type and its bytes. *)
Record File := mkFile {
  file_name : string;
  file_type : string;
  file_bytes : list byte
}.

(** The state cells of [App] that the history handlers read or write.  The
    display hotspot, the crop rectangle, the comparison slider and the
    active tab are written by the same handlers and read by none of them;
    they are left out. *)
Record Editor := mkEditor {
  history : list File;
  historyIndex : Z;
  error : option string;
  editHotspot : option (Z * Z);
  prompt : string
}.

(** The initial values of the [useState] cells. *)
Definition editor_initial : Editor := mkEditor [] (-1) None None "".

(** [array[index] ?? null] *)
Definition item_at (l : list File) (index : Z) : option File :=
  if (index <? 0)%Z then None else List.nth_error l (Z.to_nat index).

(** [array.slice(0, end)]: a negative [end] counts from the end of the
    array. *)
Definition slice_to (l : list File) (to : Z) : list File :=
  if (to <? 0)%Z
  then List.firstn (Z.to_nat (Z.max (Z.of_nat (List.length l) + to) 0)) l
  else List.firstn (Z.to_nat to) l.

Definition currentImage (e : Editor) : option File :=
  item_at (history e) (historyIndex e).

Definition originalImage (e : Editor) : option File := item_at (history e) 0.

Definition canUndo (e : Editor) : bool := (0 <? historyIndex e)%Z.

Definition canRedo (e : Editor) : bool :=
  (historyIndex e <? Z.of_nat (List.length (history e)) - 1)%Z.

Definition addImageToHistory (newImageFile : File) (e : Editor) : Editor :=
  let newHistory := slice_to (history e) (historyIndex e + 1) ++ [newImageFile] in
  mkEditor newHistory (Z.of_nat (List.length newHistory) - 1)
           (error e) (editHotspot e) (prompt e).

Definition handleImageUpload (file : File) (e : Editor) : Editor :=
  mkEditor [file] 0 None None (prompt e).

Definition handleUndo (e : Editor) : Editor :=
  if canUndo e
  then mkEditor (history e) (historyIndex e - 1) (error e) None (prompt e)
  else e.

Definition handleRedo (e : Editor) : Editor :=
  if canRedo e
  then mkEditor (history e) (historyIndex e + 1) (error e) None (prompt e)
  else e.

Definition handleReset (e : Editor) : Editor :=
  match history e with
  | [] => e
  | _ :: _ => mkEditor (history e) 0 None None (prompt e)
  end.

Definition handleUploadNew (e : Editor) : Editor :=
  mkEditor [] (-1) None None "".

(** The handlers as events of the editor; each one runs on the state of the
    render that precedes it. *)
Inductive EditorEvent :=
| image_uploaded (file : File)
| image_added (newImageFile : File)
| undo_clicked
| redo_clicked
| reset_clicked
| upload_new_clicked.

Definition editor_step (ev : EditorEvent) (e : Editor) : Editor :=
  match ev with
  | image_uploaded file => handleImageUpload file e
  | image_added newImageFile => addImageToHistory newImageFile e
  | undo_clicked => handleUndo e
  | redo_clicked => handleRedo e
  | reset_clicked => handleReset e
  | upload_new_clicked => handleUploadNew e
  end.

Fixpoint editor_run (evs : list EditorEvent) (e : Editor) : Editor :=
  match evs with
  | [] => e
  | ev :: rest => editor_run rest (editor_step ev e)
  end.

(** The index points at an image of the history, or the history is empty
    and the index is -1. *)
Definition index_in_history (e : Editor) : Prop :=
  (history e = [] /\ historyIndex e = (-1)%Z)
  \/ (0 <= historyIndex e < Z.of_nat (List.length (history e)))%Z.

(* ================================================================== *)
(** ** Data URLs: fileToPart, fileToBase64, dataURLtoFile, handleApiResponse *)
(* ================================================================== *)

(** The text these functions handle is modelled with code units below 256,
    as the binary strings are. *)

(** [s.split(',')]: the pieces between the commas, at least one. *)
Fixpoint split_comma (s : string) : list string :=
  match s with
  | EmptyString => [EmptyString]
  | String c rest =>
      if Ascii.eqb c ","%char
      then EmptyString :: split_comma rest
      else match split_comma rest with
           | piece :: pieces => String c piece :: pieces
           | [] => [String c EmptyString]
           end
  end.

(** A character that [.] of a regular expression does not match: LF or CR
    (the two other line terminators are above 255). *)
Definition is_line_terminator (c : ascii) : bool :=
  (N_of_ascii c =? 10)%N || (N_of_ascii c =? 13)%N.

(** [(.*?);] from the start of [s]: the characters up to the first [;],
    provided no line terminator comes before it. *)
Fixpoint lazy_until_semicolon (s : string) : option string :=
  match s with
  | EmptyString => None
  | String c rest =>
      if Ascii.eqb c ";"%char then Some EmptyString
      else if is_line_terminator c then None
      else match lazy_until_semicolon rest with
           | Some captured => Some (String c captured)
           | None => None
           end
  end.

(** [s.match(/:(.*?);/)], reduced to its group 1: the match that starts at
    the leftmost [:] from which there is one. *)
Fixpoint match_mime (s : string) : option string :=
  match s with
  | EmptyString => None
  | String c rest =>
      if Ascii.eqb c ":"%char
      then match lazy_until_semicolon rest with
           | Some captured => Some captured
           | None => match_mime rest
           end
      else match_mime rest
  end.

(** The four lines that [fileToPart] and [dataURLtoFile] share: the MIME
    type and the piece after the first comma. *)
Inductive parsed :=
| Parsed (mimeType data : string)
| ParseError (message : string).    (* [throw new Error(message)] *)

Definition parse_data_url (dataUrl : string) : parsed :=
  match split_comma dataUrl with
  | head :: data :: _ =>
      match match_mime head with
      | Some mimeType =>
          if String.eqb mimeType ""
          then ParseError "Could not parse MIME type from data URL"
          else Parsed mimeType data
      | None => ParseError "Could not parse MIME type from data URL"
      end
  | _ => ParseError "Invalid data URL"
  end.

Record InlineData := mkInlineData {
  inline_mimeType : string;
  inline_data : string
}.

(** [fileToPart]; [loaded] is how the [FileReader] ends: with the data URL
    of the file, or with the value its [onerror] hands to [reject]. *)
Definition fileToPart (loaded : attempt string) : attempt InlineData :=
  match loaded with
  | Done dataUrl =>
      match parse_data_url dataUrl with
      | Parsed mimeType data => Done (mkInlineData mimeType data)
      | ParseError message => Failed (Error message)
      end
  | Failed err => Failed err
  end.

(** [fileToBase64]: [None] is the [undefined] that [split(',')[1]] gives on
    a string without a comma. *)
Definition fileToBase64 (loaded : attempt string) : attempt (option string) :=
  match loaded with
  | Done result => Done (List.nth_error (split_comma result) 1)
  | Failed err => Failed err
  end.

(** How [dataURLtoFile] ends. *)
Inductive conversion :=
| Converted (file : File)
| Rejected (message : string)       (* [throw new Error(message)] *)
| BadBase64.                        (* the [InvalidCharacterError] of [atob] *)

(** The constructor [new File(bits, name, { type })] stores the name as
    given and normalizes the type: a type with a character outside U+0020
    to U+007E becomes the empty string, any other type is converted to ASCII
    lower case. *)
Definition is_printable (c : ascii) : bool :=
  ((32 <=? N_of_ascii c) && (N_of_ascii c <=? 126))%N.

Definition ascii_lowercase (c : ascii) : ascii :=
  if ((65 <=? N_of_ascii c) && (N_of_ascii c <=? 90))%N
  then ascii_of_N (N_of_ascii c + 32)
  else c.

Fixpoint all_printable (s : string) : bool :=
  match s with
  | EmptyString => true
  | String c rest => is_printable c && all_printable rest
  end.

Fixpoint lowercase (s : string) : string :=
  match s with
  | EmptyString => EmptyString
  | String c rest => String (ascii_lowercase c) (lowercase rest)
  end.

Definition normalized_type (type : string) : string :=
  if all_printable type then lowercase type else ""%string.

Definition new_File (bits : list byte) (name type : string) : File :=
  mkFile name (normalized_type type) bits.

(** [dataURLtoFile] of App.tsx; the loop fills [u8arr] from its last index
    down, [u8arr[n]] being [bstr.charCodeAt(n)]. *)
Definition dataURLtoFile (dataurl filename : string) : conversion :=
  match parse_data_url dataurl with
  | Parsed mime data =>
      match Base64.atob data with
      | Some bstr =>
          Converted (new_File (List.map byte_of_ascii
                                        (list_ascii_of_string bstr))
                              filename mime)
      | None => BadBase64
      end
  | ParseError message => Rejected message
  end.

(** *** The response of the model, as [handleApiResponse] reads it *)

(** A field that may be missing, in a template literal. *)
Definition template (field : option string) : string :=
  match field with
  | Some s => s
  | None => "undefined"
  end.

(** A string field is truthy when it is present and not empty. *)
Definition truthy (field : option string) : bool :=
  match field with
  | Some s => negb (String.eqb s "")
  | None => false
  end.

Record ResponseInlineData := mkResponseInlineData {
  response_mimeType : option string;
  response_data : option string
}.

(** A part of the content, reduced to its [inlineData]. *)
Record Part := mkPart {
  part_inlineData : option ResponseInlineData
}.

Record PromptFeedback := mkPromptFeedback {
  blockReason : option string;
  blockReasonMessage : option string
}.

(** [candidates?.[0]], reduced to [content?.parts] and [finishReason]. *)
Record Candidate := mkCandidate {
  content_parts : option (list Part);
  finishReason : option string
}.

(** [trimmed_text] is [response.text?.trim()]. *)
Record GenerateContentResponse := mkResponse {
  promptFeedback : option PromptFeedback;
  candidates : option (list Candidate);
  trimmed_text : option string
}.

Definition first_candidate (response : GenerateContentResponse)
  : option Candidate :=
  match candidates response with
  | Some (c :: _) => Some c
  | _ => None
  end.

Definition has_inlineData (p : Part) : bool :=
  match part_inlineData p with
  | Some _ => true
  | None => false
  end.

(** [candidates?.[0]?.content?.parts?.find(part => part.inlineData)],
    followed by [?.inlineData]. *)
Definition imagePartFromResponse (response : GenerateContentResponse)
  : option ResponseInlineData :=
  match first_candidate response with
  | Some c =>
      match content_parts c with
      | Some parts =>
          match List.find has_inlineData parts with
          | Some p => part_inlineData p
          | None => None
          end
      | None => None
      end
  | None => None
  end.

Definition double_quote : string := String (ascii_of_nat 34) EmptyString.

Definition blocked_message (f : PromptFeedback) : string :=
  ("Your request was blocked. Reason: " ++ template (blockReason f) ++ ". "
   ++ (if truthy (blockReasonMessage f) then template (blockReasonMessage f)
       else "Please try rephrasing your prompt to be less sensitive or to comply with content policies."))%string.

Definition explicitReasonMessage (finish : option string) : string :=
  match finish with
  | Some reason =>
      if String.eqb reason "" || String.eqb reason "STOP" then ""
      else
        ("Reason: " ++ reason ++ ". "
         ++ (if String.eqb reason "SAFETY" then
               "The content may violate safety guidelines. Please try a different prompt."
             else if String.eqb reason "MAX_TOKENS" then
               "The response exceeded the maximum allowed tokens. Please try a shorter or simpler prompt."
             else if String.eqb reason "OTHER" then
               "An internal issue occurred, or the request was too complex/ambiguous for the model to generate an image. Please try simplifying or rephrasing your prompt."
             else if String.eqb reason "IMAGE_OTHER" then
               "The image generation process encountered an internal issue or could not fulfill the request. This can be due to a complex or ambiguous prompt, or model limitations. Please try simplifying or rephrasing your prompt."
             else
               "The image generation process stopped unexpectedly. This often relates to model limitations or an inability to fulfill the request. Please try simplifying or rephrasing your prompt."))%string
  | None => ""
  end.

(** The message of the last [throw]. *)
Definition no_image_message (response : GenerateContentResponse)
           (context : string) : string :=
  ("Image generation for " ++ context ++ " stopped unexpectedly. "
   ++ explicitReasonMessage
        (match first_candidate response with
         | Some c => finishReason c
         | None => None
         end)
   ++ (if truthy (trimmed_text response)
       then " The model responded with text: " ++ double_quote
            ++ template (trimmed_text response) ++ double_quote
       else ""))%string.

Definition is_blocked (response : GenerateContentResponse) : bool :=
  match promptFeedback response with
  | Some f => truthy (blockReason f)
  | None => false
  end.

(** [handleApiResponse]: the data URL it returns or the [Error] it throws;
    what it writes to the console is left out. *)
Definition handleApiResponse (response : GenerateContentResponse)
           (context : string) : attempt string :=
  match promptFeedback response with
  | Some f =>
      if truthy (blockReason f) then Failed (Error (blocked_message f))
      else
        match imagePartFromResponse response with
        | Some image =>
            Done ("data:" ++ template (response_mimeType image) ++ ";base64,"
                  ++ template (response_data image))%string
        | None => Failed (Error (no_image_message response context))
        end
  | None =>
      match imagePartFromResponse response with
      | Some image =>
          Done ("data:" ++ template (response_mimeType image) ++ ";base64,"
                ++ template (response_data image))%string
      | None => Failed (Error (no_image_message response context))
      end
  end.

(** [s] holds the character [c]. *)
Fixpoint contains (c : ascii) (s : string) : bool :=
  match s with
  | EmptyString => false
  | String d rest => Ascii.eqb d c || contains c rest
  end.

(** [s] holds a line terminator. *)
Fixpoint has_line_terminator (s : string) : bool :=
  match s with
  | EmptyString => false
  | String d rest => is_line_terminator d || has_line_terminator rest
  end.

(** A MIME type that a data URL carries through [split] and the regular
    expression unchanged. *)
Definition plain_mime (m : string) : Prop :=
  m <> ""%string /\ contains "," m = false /\ contains ";" m = false
  /\ has_line_terminator m = false.

(** The data URL [data:<type>;<parameters>,<payload>]. *)
Definition data_url (m params d : string) : string :=
  ("data:" ++ m ++ ";" ++ params ++ "," ++ d)%string.

(* ================================================================== *)
(** ** TextChatService *)
(* ================================================================== *)

(** An entry of the list handed to [setGroundingUrls]. *)
Record GroundingUrl := mkGroundingUrl {
  uri : string;
  title : string
}.

(** An object read through [uri] and [title]: the [web] of a grounding
    chunk, or a review snippet. *)
Record Link := mkLink {
  link_uri : option string;
  link_title : option string
}.

Record PlaceAnswerSource := mkPlaceAnswerSource {
  reviewSnippets : option (list Link)
}.

(** [placeAnswerSources] is the array that the code iterates. *)
Record MapsChunk := mkMapsChunk {
  maps_uri : option string;
  maps_title : option string;
  placeAnswerSources : option (list PlaceAnswerSource)
}.

Record GroundingChunk := mkGroundingChunk {
  web : option Link;
  maps : option MapsChunk
}.

(** The final response, reduced to
    [candidates?.[0]?.groundingMetadata?.groundingChunks]. *)
Record FinalResponse := mkFinalResponse {
  groundingChunks : option (list GroundingChunk)
}.

(** [a || b] on strings. *)
Definition or_else (a : option string) (b : string) : string :=
  if truthy a then template a else b.

(** [if (uri) urls.push({ uri, title: title || uri })] *)
Definition push_link (u t : option string) (urls : list GroundingUrl)
  : list GroundingUrl :=
  match u with
  | Some u' =>
      if String.eqb u' "" then urls
      else urls ++ [mkGroundingUrl u' (or_else t u')]
  | None => urls
  end.

Definition push_snippets (snippets : list Link) (urls : list GroundingUrl)
  : list GroundingUrl :=
  List.fold_left (fun acc snippet =>
                    push_link (link_uri snippet) (link_title snippet) acc)
                 snippets urls.

Definition push_sources (l : list PlaceAnswerSource)
           (urls : list GroundingUrl) : list GroundingUrl :=
  List.fold_left (fun acc source =>
                    match reviewSnippets source with
                    | Some snippets => push_snippets snippets acc
                    | None => acc
                    end)
                 l urls.

(** The body of the loop over the chunks. *)
Definition push_chunk (chunk : GroundingChunk) (urls : list GroundingUrl)
  : list GroundingUrl :=
  let urls :=
    match web chunk with
    | Some w => push_link (link_uri w) (link_title w) urls
    | None => urls
    end in
  match maps chunk with
  | Some m =>
      let urls := push_link (maps_uri m) (maps_title m) urls in
      match placeAnswerSources m with
      | Some l => push_sources l urls
      | None => urls
      end
  | None => urls
  end.

Definition extractGroundingUrls (response : FinalResponse)
  : list GroundingUrl :=
  match groundingChunks response with
  | Some chunks =>
      List.fold_left (fun acc chunk => push_chunk chunk acc) chunks []
  | None => []
  end.

(** *** sendMessage *)

Inductive Tool := googleSearch | googleMaps.

Inductive ContentPart :=
| text_part (message : string)
| inlineData_part (d : InlineData).

(** The argument of [chat.sendMessageStream]; [None] is a key that
    [modelConfig] does not have, or the [undefined] of [tools]. *)
Record StreamRequest := mkStreamRequest {
  request_model : string;
  request_parts : list ContentPart;
  thinkingBudget : option Z;
  retrieval_latLng : option (Q * Q);
  responseMimeType : option string;
  request_tools : option (list Tool)
}.

Inductive ChatEffect :=
| chat_setError (m : option string)
| setGroundingUrls (urls : list GroundingUrl)
| chat_console_warn (m : string)
| chat_console_error (m : string)
| sendMessageStream (request : StreamRequest)
| onChunk (chunk : string)
| onComplete (fullText : string) (urls : list GroundingUrl).

Record TextChatService := mkTextChatService {
  chat : option handle;
  currentGeolocation : option (Q * Q)
}.

(** What the caller passes: each file is [null] or a file, given by how
    reading it ends. *)
Record SendArguments := mkSendArguments {
  send_message : string;
  imageFile : option (attempt string);
  videoFile : option (attempt string);
  useSearchGrounding : bool;
  useMapsGrounding : bool;
  useThinkingMode : bool;
  useFlashLite : bool
}.

(** A value that [for ... of] is applied to: an array, or a value that is
    not iterable, on which the loop throws a [TypeError] with the message
    given. *)
Inductive iterated (A : Type) :=
| an_array (items : list A)
| not_iterable (message : string).

Arguments an_array {A} items.
Arguments not_iterable {A} message.

(** The final response as it is received: the values that
    [extractGroundingUrls] hands to its three loops need not be arrays. *)
Record ReceivedSource := mkReceivedSource {
  received_reviewSnippets : option (iterated Link)
}.

Record ReceivedMaps := mkReceivedMaps {
  received_uri : option string;
  received_title : option string;
  received_placeAnswerSources : option (iterated ReceivedSource)
}.

Record ReceivedChunk := mkReceivedChunk {
  received_web : option Link;
  received_maps : option ReceivedMaps
}.

Record ReceivedResponse := mkReceivedResponse {
  received_groundingChunks : option (iterated ReceivedChunk)
}.

(** The results of a list of steps, or the first failure among them. *)
Fixpoint collect (A : Type) (steps : list (attempt A)) : attempt (list A) :=
  match steps with
  | [] => Done []
  | Failed err :: _ => Failed err
  | Done a :: rest =>
      match collect rest with
      | Done l => Done (a :: l)
      | Failed err => Failed err
      end
  end.

(** The loops of [extractGroundingUrls] over a response as received, in the
    order in which they reach the values they iterate: the response with its
    arrays, or the [TypeError] of the first value that is not iterable.  The
    error is thrown out of [extractGroundingUrls], whose list of links is
    local. *)
Definition iterate_source (source : ReceivedSource)
  : attempt PlaceAnswerSource :=
  match received_reviewSnippets source with
  | Some (an_array snippets) => Done (mkPlaceAnswerSource (Some snippets))
  | Some (not_iterable message) => Failed (Error message)
  | None => Done (mkPlaceAnswerSource None)
  end.

Definition iterate_maps (m : ReceivedMaps) : attempt MapsChunk :=
  match received_placeAnswerSources m with
  | Some (an_array l) =>
      match collect (List.map iterate_source l) with
      | Done l' =>
          Done (mkMapsChunk (received_uri m) (received_title m) (Some l'))
      | Failed err => Failed err
      end
  | Some (not_iterable message) => Failed (Error message)
  | None => Done (mkMapsChunk (received_uri m) (received_title m) None)
  end.

Definition iterate_chunk (chunk : ReceivedChunk) : attempt GroundingChunk :=
  match received_maps chunk with
  | Some m =>
      match iterate_maps m with
      | Done m' => Done (mkGroundingChunk (received_web chunk) (Some m'))
      | Failed err => Failed err
      end
  | None => Done (mkGroundingChunk (received_web chunk) None)
  end.

Definition iterate_response (response : ReceivedResponse)
  : attempt FinalResponse :=
  match received_groundingChunks response with
  | Some (an_array chunks) =>
      match collect (List.map iterate_chunk chunks) with
      | Done chunks' => Done (mkFinalResponse (Some chunks'))
      | Failed err => Failed err
      end
  | Some (not_iterable message) => Failed (Error message)
  | None => Done (mkFinalResponse None)
  end.

(** The stream that [sendMessageStream] resolves with: [chunk.text] of the
    chunks it yields, what it throws after them if it does, and what awaiting
    its property [response] gives, [Done None] when there is no such
    property. *)
Record Stream := mkStream {
  stream_chunks : list (option string);
  stream_failure : option thrown;
  stream_response : attempt (option ReceivedResponse)
}.

(** The part of the platform that [sendMessage] meets: how
    [sendMessageStream] ends, and the message of the [TypeError] that
    reading a property of [undefined] raises. *)
Record ChatPlatform := mkChatPlatform {
  opened_stream : attempt Stream;
  undefined_read_message : string
}.

Definition unshift_file (file : option (attempt string))
           (contents : list ContentPart) : attempt (list ContentPart) :=
  match file with
  | Some loaded =>
      match fileToPart loaded with
      | Done part => Done (inlineData_part part :: contents)
      | Failed err => Failed err
      end
  | None => Done contents
  end.

Definition contents_of (a : SendArguments) : attempt (list ContentPart) :=
  match unshift_file (imageFile a) [text_part (send_message a)] with
  | Done contents => unshift_file (videoFile a) contents
  | Failed err => Failed err
  end.

Definition modelName_of (a : SendArguments) : string :=
  if useFlashLite a then "gemini-flash-lite-latest"
  else if useThinkingMode a then "gemini-2.5-pro"
  else "gemini-2.5-flash".

Definition tools_of (a : SendArguments) : list Tool :=
  (if useSearchGrounding a then [googleSearch] else [])
  ++ (if useMapsGrounding a then [googleMaps] else []).

Definition request_of (s : TextChatService) (a : SendArguments)
           (contents : list ContentPart) : StreamRequest :=
  mkStreamRequest
    (modelName_of a)
    contents
    (if useFlashLite a then None
     else if useThinkingMode a then Some 32768 else None)
    (if useMapsGrounding a then currentGeolocation s else None)
    (if negb (useSearchGrounding a) && negb (useMapsGrounding a)
     then Some "text/markdown"%string else None)
    (match tools_of a with
     | [] => None
     | tools => Some tools
     end).

(** The [for await] loop: the text so far, and the calls of [onChunk]. *)
Fixpoint read_chunks (chunks : list (option string)) (fullText : string)
  : string * list ChatEffect :=
  match chunks with
  | [] => (fullText, [])
  | chunk_text :: rest =>
      if truthy chunk_text
      then let (text, effects) :=
             read_chunks rest (fullText ++ template chunk_text)%string in
           (text, onChunk (template chunk_text) :: effects)
      else read_chunks rest fullText
  end.

(** The [catch] branch. *)
Definition chat_failed (err : thrown) : list ChatEffect :=
  [chat_setError (Some ("Chat failed: " ++ message_of err)%string);
   chat_console_error "Chat error:";
   onComplete "" []].

Definition after_stream (p : ChatPlatform) (st : Stream) (fullText : string)
  : list ChatEffect :=
  match stream_failure st with
  | Some err => chat_failed err
  | None =>
      match stream_response st with
      | Failed err => chat_failed err
      | Done None => chat_failed (Error (undefined_read_message p))
      | Done (Some received) =>
          match iterate_response received with
          | Done finalResponse =>
              [setGroundingUrls (extractGroundingUrls finalResponse);
               onComplete fullText (extractGroundingUrls finalResponse)]
          | Failed err => chat_failed err
          end
      end
  end.

(** The warning of a Maps request without a position. *)
Definition geolocation_warning (s : TextChatService) (a : SendArguments)
  : list ChatEffect :=
  if useMapsGrounding a
  then match currentGeolocation s with
       | Some _ => []
       | None =>
           [chat_console_warn "Geolocation not available for Maps grounding."]
       end
  else [].

Definition sendMessage (s : TextChatService) (a : SendArguments)
           (p : ChatPlatform) : list ChatEffect :=
  match chat s with
  | None => [chat_setError (Some "Chat service not initialized."%string)]
  | Some _ =>
      [setGroundingUrls []; chat_setError None]
      ++ match contents_of a with
         | Failed err => chat_failed err
         | Done contents =>
             geolocation_warning s a
             ++ sendMessageStream (request_of s a contents)
             :: match opened_stream p with
                | Failed err => chat_failed err
                | Done st =>
                    snd (read_chunks (stream_chunks st) "")
                    ++ after_stream p st
                         (fst (read_chunks (stream_chunks st) ""))
                end
         end
  end.

(** The calls of [onComplete] and of [onChunk] among the effects, and the
    texts of the chunks that have one. *)
Fixpoint completions (effects : list ChatEffect)
  : list (string * list GroundingUrl) :=
  match effects with
  | [] => []
  | onComplete fullText urls :: rest => (fullText, urls) :: completions rest
  | _ :: rest => completions rest
  end.

Fixpoint chunks_shown (effects : list ChatEffect) : list string :=
  match effects with
  | [] => []
  | onChunk chunk :: rest => chunk :: chunks_shown rest
  | _ :: rest => chunks_shown rest
  end.

Fixpoint texts_of (chunks : list (option string)) : list string :=
  match chunks with
  | [] => []
  | chunk_text :: rest =>
      if truthy chunk_text then template chunk_text :: texts_of rest
      else texts_of rest
  end.

(** The errors reported through [setError]. *)
Fixpoint errors_set (effects : list ChatEffect) : list (option string) :=
  match effects with
  | [] => []
  | chat_setError m :: rest => m :: errors_set rest
  | _ :: rest => errors_set rest
  end.

(** The strings of a list, one after the other. *)
Definition joined (l : list string) : string :=
  List.fold_right String.append ""%string l.


(* ================================================================== *)
(** ** VoiceChatPanel *)
(* ================================================================== *)

Inductive Speaker := user | model.

Record HistoryEntry := mkHistoryEntry {
  entry_type : Speaker;
  entry_text : string
}.

(** The state cells of the panel, the instruction text apart. *)
Record VoiceChatPanel := mkVoiceChatPanel {
  isSessionActive : bool;
  isLoading : bool;
  panel_inputTranscription : string;
  panel_outputTranscription : string;
  conversationHistory : list HistoryEntry
}.

(** A string is truthy when it is not empty. *)
Definition nonempty (s : string) : bool := negb (String.eqb s "").

(** The observer that the panel hands to its [LiveChatService]. *)
Definition transcription_observer (input output : string)
           (p : VoiceChatPanel) : VoiceChatPanel :=
  mkVoiceChatPanel
    (isSessionActive p) (isLoading p) input output
    (if nonempty input && nonempty output
     then conversationHistory p
          ++ [mkHistoryEntry user input; mkHistoryEntry model output]
     else conversationHistory p).

(** The panel after the calls of the observer among the effects of the
    service, in their order. *)
Definition observe (effects : list Effect) (p : VoiceChatPanel)
  : VoiceChatPanel :=
  List.fold_left (fun q u => transcription_observer (fst u) (snd u) q)
                 (updates effects) p.

(** [stopVoiceChat]: the callback reads the transcripts of the render that
    created it, those of the panel when the handler starts; the history is
    updated by functions of its previous value, which apply in the order of
    the calls. *)
Definition stopVoiceChat (p : VoiceChatPanel) (s : LiveChatService)
  : VoiceChatPanel * (LiveChatService * list Effect) :=
  let stopped := stopSession s in
  let observed := observe (snd stopped) p in
  let finalHistoryUpdate :=
    (if nonempty (panel_inputTranscription p)
     then [mkHistoryEntry user (panel_inputTranscription p)] else [])
    ++ (if nonempty (panel_outputTranscription p)
        then [mkHistoryEntry model (panel_outputTranscription p)] else []) in
  (mkVoiceChatPanel false false "" ""
                    (conversationHistory observed ++ finalHistoryUpdate),
   stopped).

(** The two entries of an exchange. *)
Definition exchange (u : string * string) : list HistoryEntry :=
  [mkHistoryEntry user (fst u); mkHistoryEntry model (snd u)].

(** *** Vocabulary of the statement on a start that outlives a stop *)

(** An event that neither tears the session down nor continues a start. *)
Definition goes_on (ev : Event) : Prop :=
  match ev with
  | start_called _ _ _ | channel_open _ _ | audio_process _
  | channel_message _ _ _ | source_ended _ => True
  | _ => False
  end.

(** The streams whose tracks are stopped among the effects. *)
Fixpoint tracks_stopped (effects : list Effect) : list handle :=
  match effects with
  | [] => []
  | tracks_stop stream :: rest => stream :: tracks_stopped rest
  | _ :: rest => tracks_stopped rest
  end.

(* ================================================================== *)
(** ** Base64: [atob] undoes [btoa] *)
(* ================================================================== *)

Section Base64Facts.

Import Base64.
Local Open Scope N_scope.

(** [lia] after the quotients and remainders have been replaced by their
    defining equations. *)
Ltac divlia := zify; Z.to_euclidean_division_equations; lia.

Lemma sextet_of_char_of_sextet (n : N) :
  n < 64 -> sextet_of_char (char_of_sextet n) = Some n.
Proof.
  intros Hn.
  assert (Hnat : (N.to_nat n < 64)%nat) by lia.
  rewrite <- (N2Nat.id n) at 2.
  unfold char_of_sextet.
  generalize dependent (N.to_nat n). clear n Hn. intros k Hk.
  do 64 (destruct k as [|k]; [reflexivity|]).
  lia.
Qed.

Lemma char_of_sextet_plain (n : N) :
  n < 64 ->
  is_whitespace (char_of_sextet n) = false /\ is_pad (char_of_sextet n) = false.
Proof.
  intros Hn.
  assert (Hnat : (N.to_nat n < 64)%nat) by lia.
  unfold char_of_sextet.
  generalize dependent (N.to_nat n). clear n Hn. intros k Hk.
  do 64 (destruct k as [|k]; [split; reflexivity|]).
  lia.
Qed.

Lemma sextets_of_chars (ns : list N) :
  Forall (fun n => n < 64) ns ->
  sextets (List.map char_of_sextet ns) = Some ns.
Proof.
  induction 1 as [|n ns Hn _ IH]; simpl.
  - reflexivity.
  - rewrite (sextet_of_char_of_sextet Hn), IH. reflexivity.
Qed.

Lemma filter_chars (ns : list N) (tail : list ascii) :
  Forall (fun n => n < 64) ns ->
  List.filter (fun c => negb (is_whitespace c))
              (List.map char_of_sextet ns ++ tail)
  = List.map char_of_sextet ns
      ++ List.filter (fun c => negb (is_whitespace c)) tail.
Proof.
  induction 1 as [|n ns Hn _ IH]; simpl.
  - reflexivity.
  - destruct (char_of_sextet_plain Hn) as [-> _]. simpl. now rewrite IH.
Qed.

(** Lists are consumed three elements at a time. *)
Lemma list_ind_by_three (A : Type) (P : list A -> Prop) :
  P [] -> (forall a, P [a]) -> (forall a b, P [a; b]) ->
  (forall a b c l, P l -> P (a :: b :: c :: l)) ->
  forall l, P l.
Proof.
  intros H0 H1 H2 H3.
  assert (H : forall l, P l /\ (forall a, P (a :: l))
                        /\ (forall a b, P (a :: b :: l))).
  { induction l as [|x l (IHa & IHb & IHc)].
    - repeat split; auto.
    - repeat split; auto. }
  intros l. apply H.
Qed.

(** The output of [btoa] is a run of alphabet characters, whose sextets
    [atob] turns back into the input, followed by the padding. *)
Lemma btoa_units_shape (l : list N) :
  Forall (fun a => a < 256) l ->
  exists ns p,
    btoa_units l = List.map char_of_sextet ns ++ p /\
    Forall (fun n => n < 64) ns /\
    is_padding p /\
    (exists k, List.length (List.map char_of_sextet ns ++ p) = (4 * k)%nat) /\
    atob_units ns = Some l.
Proof.
  induction l as [|a|a b|a b c l IH] using list_ind_by_three; intros Hl.
  - exists [], [].
    split; [reflexivity|]. split; [constructor|].
    split; [now left|]. split; [now exists 0%nat | reflexivity].
  - inversion_clear Hl as [|? ? Ha _].
    exists [a / 4; (a mod 4) * 16], [pad; pad].
    split; [reflexivity|]. split.
    { repeat (apply Forall_cons; [divlia|]). apply Forall_nil. }
    split; [now right; right|]. split; [now exists 1%nat|].
    simpl. do 2 f_equal. divlia.
  - inversion_clear Hl as [|? ? Ha Hl']. inversion_clear Hl' as [|? ? Hb _].
    exists [a / 4; (a mod 4) * 16 + b / 16; (b mod 16) * 4], [pad].
    split; [reflexivity|]. split.
    { repeat (apply Forall_cons; [divlia|]). apply Forall_nil. }
    split; [now right; left|]. split; [now exists 1%nat|].
    simpl. do 2 f_equal; [divlia|]. f_equal. divlia.
  - inversion_clear Hl as [|? ? Ha Hl']. inversion_clear Hl' as [|? ? Hb Hl''].
    inversion_clear Hl'' as [|? ? Hc Hl].
    destruct (IH Hl) as (ns & p & Heq & Hns & Hp & (k & Hk) & Hdec).
    exists (a / 4 :: (a mod 4) * 16 + b / 16
              :: (b mod 16) * 4 + c / 64 :: c mod 64 :: ns), p.
    split; [simpl; now rewrite Heq|]. split.
    { repeat (apply Forall_cons; [divlia|]). exact Hns. }
    split; [exact Hp|]. split.
    { exists (S k). simpl in *. rewrite Hk. lia. }
    cbn [atob_units]. rewrite Hdec. cbv zeta.
    do 2 f_equal; [divlia|]. f_equal; [divlia|]. f_equal. divlia.
Qed.

Lemma strip_padding_shape (ns : list N) (p : list ascii) :
  Forall (fun n => n < 64) ns ->
  is_padding p ->
  (exists k, List.length (List.map char_of_sextet ns ++ p) = (4 * k)%nat) ->
  strip_padding (List.map char_of_sextet ns ++ p) = List.map char_of_sextet ns.
Proof.
  intros Hns Hp (k & Hk).
  unfold strip_padding. rewrite Hk.
  replace (N.of_nat (4 * k) mod 4 =? 0) with true
    by (symmetry; apply N.eqb_eq; divlia).
  rewrite rev_app_distr.
  assert (Hlast : forall c r, List.rev (List.map char_of_sextet ns) = c :: r ->
                              is_pad c = false).
  { intros c r Hrev.
    assert (Hin : In c (List.map char_of_sextet ns)).
    { apply in_rev. rewrite Hrev. now left. }
    apply in_map_iff in Hin. destruct Hin as (n & <- & Hin).
    rewrite Forall_forall in Hns. now apply char_of_sextet_plain, Hns. }
  destruct Hp as [-> | [-> | ->]]; cbn [List.rev List.app].
  - rewrite app_nil_r.
    destruct (List.rev (List.map char_of_sextet ns)) as [|c1 [|c2 r]] eqn:Hrev.
    + reflexivity.
    + now rewrite (Hlast _ _ eq_refl).
    + now rewrite (Hlast _ _ eq_refl).
  - change (is_pad pad) with true. cbv iota.
    destruct (List.rev (List.map char_of_sextet ns)) as [|c2 r] eqn:Hrev.
    + apply (f_equal (@List.rev ascii)) in Hrev.
      rewrite rev_involutive in Hrev. now rewrite Hrev.
    + rewrite (Hlast _ _ eq_refl).
      change (List.rev (c2 :: r) = List.map char_of_sextet ns).
      rewrite <- Hrev. apply rev_involutive.
  - change (is_pad pad) with true. cbv iota.
    apply rev_involutive.
Qed.

Lemma atob_btoa (binary : string) : atob (btoa binary) = Some binary.
Proof.
  unfold atob, btoa.
  rewrite list_ascii_of_string_of_list_ascii.
  set (l := List.map N_of_ascii (list_ascii_of_string binary)).
  assert (Hl : Forall (fun a => a < 256) l).
  { apply Forall_forall. intros a Ha. apply in_map_iff in Ha.
    destruct Ha as (c & <- & _). apply N_ascii_bounded. }
  destruct (btoa_units_shape Hl) as (ns & p & -> & Hns & Hp & Hk & Hdec).
  rewrite (filter_chars _ Hns).
  replace (List.filter (fun c => negb (is_whitespace c)) p) with p
    by (destruct Hp as [-> | [-> | ->]]; reflexivity).
  rewrite (strip_padding_shape Hns Hp Hk), (sextets_of_chars Hns), Hdec.
  f_equal. subst l. rewrite map_map.
  rewrite (map_ext _ (fun c => c)) by apply ascii_N_embedding.
  rewrite map_id. apply string_of_list_ascii_of_string.
Qed.

End Base64Facts.

Lemma list_ascii_of_binary (bytes : list byte) :
  list_ascii_of_string (binary_of_bytes bytes) = List.map ascii_of_byte bytes.
Proof.
  induction bytes as [|b r IH]; simpl; [reflexivity | now rewrite IH].
Qed.

(** C10. The base64 helpers form a round trip: for every byte array [b],
    [decode (encode b)] succeeds and returns an array equal to [b] (hence of
    the same length and with the same byte at every index). *)
Theorem decode_encode (b : list byte) : decode (encode b) = Some b.
Proof.
  unfold decode, encode. rewrite atob_btoa, list_ascii_of_binary.
  f_equal. rewrite map_map.
  rewrite (map_ext _ (fun x => x)) by apply byte_of_ascii_of_byte.
  apply map_id.
Qed.

(* ================================================================== *)
(** ** createBlob: the 16-bit sample of a float *)
(* ================================================================== *)

Section CreateBlobFacts.

Local Open Scope Z_scope.

Lemma truncate_scaled_range (q : Q) :
  (-1 <= q)%Q -> (q < 1)%Q ->
  -32768 <= truncate (q * 32768) <= 32767.
Proof.
  destruct q as [n d]. unfold Qle, Qlt, truncate. cbn.
  rewrite Pos.mul_1_r. intros Hlo Hhi.
  assert (Hd : 0 < Z.pos d) by lia.
  split.
  - apply Z.le_trans with ((- (32768 * Z.pos d)) ÷ Z.pos d).
    + rewrite Z.quot_opp_l, Z.quot_mul by lia. lia.
    + apply Z.quot_le_mono; lia.
  - apply Z.lt_succ_r. change (Z.succ 32767) with 32768.
    destruct (Z.le_gt_cases 0 n) as [Hn | Hn].
    + apply Z.quot_lt_upper_bound; lia.
    + apply Z.le_lt_trans with 0; [|lia].
      apply Z.quot_le_upper_bound; lia.
Qed.

Lemma ToInt16_in_range (q : Q) :
  -32768 <= truncate q <= 32767 -> ToInt16 (Finite q) = truncate q.
Proof.
  intros H. unfold ToInt16. cbv zeta.
  destruct (Z.ltb_spec (truncate q mod 65536) 32768);
    Z.to_euclidean_division_equations; lia.
Qed.

End CreateBlobFacts.

(** C3, as the specification states it, fails: [createBlob] maps the sample
    [-1] to [-32768], where [round(clamp(s, -1, 1) * 32767)] is [-32767],
    and the sample [9/10] to [29491], where the formula gives [29490]. *)
Lemma int16_of_sample_is_not_round_clamp :
  int16_of_sample (Finite (-1)) = (-32768)%Z
  /\ spec_int16_of_sample (-1) = (-32767)%Z
  /\ int16_of_sample (Finite (9 # 10)) = 29491%Z
  /\ spec_int16_of_sample (9 # 10) = 29490%Z
  /\ int16_of_sample (Finite (-1)) <> spec_int16_of_sample (-1).
Proof.
  repeat split; try reflexivity. vm_compute. discriminate.
Qed.

(** C3, amended. For every frame whose samples [s] satisfy [-1 <= s < 1],
    [createBlob] maps each sample to the 16-bit integer obtained by
    truncating [s * 32768] toward zero, a value between -32768 and 32767,
    and packs these integers low byte first under the fixed MIME type; the
    result is a function of the frame alone. *)
Theorem createBlob_truncates (data : list Q) :
  Forall (fun s => -1 <= s /\ s < 1)%Q data ->
  List.map int16_of_sample (List.map Finite data)
  = List.map (fun s => truncate (s * 32768)) data
  /\ Forall (fun s => (-32768 <= truncate (s * 32768) <= 32767)%Z) data
  /\ createBlob (List.map Finite data)
     = mkBlob (encode (Uint8Array_of_int16
                         (List.map (fun s => truncate (s * 32768)) data)))
              "audio/pcm;rate=16000".
Proof.
  intros Hdata.
  assert (Hmap : List.map int16_of_sample (List.map Finite data)
                 = List.map (fun s => truncate (s * 32768)) data).
  { rewrite map_map. apply map_ext_in. intros s Hs.
    rewrite Forall_forall in Hdata. destruct (Hdata s Hs) as [Hlo Hhi].
    apply ToInt16_in_range, truncate_scaled_range; assumption. }
  split; [exact Hmap|]. split.
  - apply Forall_forall. intros s Hs.
    rewrite Forall_forall in Hdata. destruct (Hdata s Hs) as [Hlo Hhi].
    now apply truncate_scaled_range.
  - unfold createBlob. now rewrite Hmap.
Qed.

Lemma createBlob_truncates_example :
  Forall (fun s => -1 <= s /\ s < 1)%Q [1 # 2; -1; -1 # 3; 9 # 10]%Q
  /\ List.map int16_of_sample
              (List.map Finite [1 # 2; -1; -1 # 3; 9 # 10]%Q)
     = [16384; -32768; -10922; 29491]%Z.
Proof.
  assert (H : Forall (fun s => -1 <= s /\ s < 1)%Q
                     [1 # 2; -1; -1 # 3; 9 # 10]%Q).
  { repeat constructor; unfold Qle, Qlt; simpl; lia. }
  split; [exact H|].
  destruct (@createBlob_truncates _ H) as [-> _]. reflexivity.
Defined.

(* ================================================================== *)
(** ** Blocks of statements *)
(* ================================================================== *)

Lemma andThen_fst (f g : block) (s : LiveChatService) :
  fst ((f ;; g) s) = fst (g (fst (f s))).
Proof.
  unfold andThen. destruct (f s) as [s1 e1]. cbn [fst].
  destruct (g s1) as [s2 e2]. reflexivity.
Qed.

Lemma andThen_snd (f g : block) (s : LiveChatService) :
  snd ((f ;; g) s) = snd (f s) ++ snd (g (fst (f s))).
Proof.
  unfold andThen. destruct (f s) as [s1 e1]. cbn [fst snd].
  destruct (g s1) as [s2 e2]. reflexivity.
Qed.

Lemma updates_app (e1 e2 : list Effect) :
  updates (e1 ++ e2) = updates e1 ++ updates e2.
Proof.
  induction e1 as [|e r IH]; [reflexivity|].
  destruct e; cbn [app updates]; rewrite IH; reflexivity.
Qed.

Lemma scheduled_app (e1 e2 : list Effect) :
  scheduled (e1 ++ e2) = scheduled e1 ++ scheduled e2.
Proof.
  induction e1 as [|e r IH]; [reflexivity|].
  destruct e; cbn [app scheduled]; rewrite IH; reflexivity.
Qed.

Lemma updates_stop_all (l : list BufferSource) : updates (stop_all l) = [].
Proof. induction l; [reflexivity | assumption]. Qed.

Lemma scheduled_stop_all (l : list BufferSource) : scheduled (stop_all l) = [].
Proof. induction l; [reflexivity | assumption]. Qed.

(** Case analysis on whatever a block inspects next. *)
Ltac case_scrutinee :=
  match goal with
  | |- context [match ?x with _ => _ end] => destruct x eqn:?
  | |- context [if ?x then _ else _] => destruct x eqn:?
  end.

(** *** The audio part of [onmessage] leaves the transcript alone *)

Lemma play_audio_frame (m : LiveServerMessage) (t : Q) (n : handle)
      (s : LiveChatService) :
  currentInputTranscription (fst (play_audio m t n s))
  = currentInputTranscription s
  /\ currentOutputTranscription (fst (play_audio m t n s))
     = currentOutputTranscription s
  /\ updates (snd (play_audio m t n s)) = []
  /\ same_handles s (fst (play_audio m t n s)).
Proof.
  unfold play_audio, same_handles.
  repeat case_scrutinee; cbn; repeat split; congruence.
Qed.

Lemma interrupt_frame (m : LiveServerMessage) (s : LiveChatService) :
  currentInputTranscription (fst (interrupt m s))
  = currentInputTranscription s
  /\ currentOutputTranscription (fst (interrupt m s))
     = currentOutputTranscription s
  /\ updates (snd (interrupt m s)) = []
  /\ same_handles s (fst (interrupt m s)).
Proof.
  unfold interrupt, same_handles.
  destruct (interrupted m); cbn [fst snd];
    rewrite ?updates_stop_all; repeat split; reflexivity.
Qed.

(** What the transcription part of [onmessage] does to a state whose
    buffers hold [i] and [o]. *)
Lemma transcription_part (m : LiveServerMessage) (s : LiveChatService) :
  let i := (currentInputTranscription s ++ appended (inputTranscription m))%string in
  let o := (currentOutputTranscription s ++ appended (outputTranscription m))%string in
  let r := (append_output m ;; append_input m ;; report_transcription m) s in
  snd r = [onTranscriptionUpdate i o]
  /\ currentInputTranscription (fst r) = (if turnComplete m then "" else i)
  /\ currentOutputTranscription (fst r) = (if turnComplete m then "" else o)
  /\ same_handles s (fst r)
  /\ sources (fst r) = sources s /\ nextStartTime (fst r) = nextStartTime s.
Proof.
  assert (Hnil : forall x : string, (x ++ "")%string = x).
  { induction x as [|c x IH]; cbn; [reflexivity | now rewrite IH]. }
  unfold andThen, append_output, append_input, report_transcription,
    same_handles, appended.
  destruct (outputTranscription m), (inputTranscription m), (turnComplete m);
    cbn; rewrite ?Hnil; repeat split; reflexivity.
Qed.

Lemma onmessage_parts (m : LiveServerMessage) (t : Q) (n : handle)
      (s : LiveChatService) :
  let mid := (append_output m ;; append_input m ;; report_transcription m)
               (fst (play_audio m t n s)) in
  fst (onmessage m t n s) = fst (interrupt m (fst mid))
  /\ snd (onmessage m t n s)
     = snd (play_audio m t n s) ++ snd mid ++ snd (interrupt m (fst mid)).
Proof.
  cbv zeta. unfold onmessage. split.
  - now rewrite !andThen_fst.
  - rewrite !andThen_snd, !andThen_fst, <- !app_assoc. reflexivity.
Qed.

Lemma onmessage_transcript (m : LiveServerMessage) (t : Q) (n : handle)
      (s : LiveChatService) :
  let i := (currentInputTranscription s
            ++ appended (inputTranscription m))%string in
  let o := (currentOutputTranscription s
            ++ appended (outputTranscription m))%string in
  updates (snd (onmessage m t n s)) = [(i, o)]
  /\ currentInputTranscription (fst (onmessage m t n s))
     = (if turnComplete m then "" else i)
  /\ currentOutputTranscription (fst (onmessage m t n s))
     = (if turnComplete m then "" else o).
Proof.
  destruct (play_audio_frame m t n s) as (Hi & Ho & Hu & _).
  pose proof (transcription_part m (fst (play_audio m t n s))) as Ht.
  destruct (onmessage_parts m t n s) as [Hfst Hsnd].
  cbv zeta in Ht, Hfst, Hsnd. destruct Ht as (He & Hi' & Ho' & _).
  rewrite Hi, Ho in He. rewrite Hi in Hi'. rewrite Ho in Ho'.
  set (mid := (append_output m ;; append_input m ;; report_transcription m)
                (fst (play_audio m t n s))) in *.
  destruct (interrupt_frame m (fst mid)) as (Hi2 & Ho2 & Hu2 & _).
  cbv zeta. rewrite Hfst, Hsnd, !updates_app, Hu, Hu2, He, Hi2, Ho2.
  repeat split; assumption.
Qed.

Lemma string_app_empty (x : string) : (x ++ "")%string = x.
Proof. induction x as [|c x IH]; cbn; [reflexivity | now rewrite IH]. Qed.

(** An append of input text, as one message. *)
Lemma onmessage_input (text : string) (t : Q) (n : handle)
      (s : LiveChatService) (i o : string) :
  currentInputTranscription s = i -> currentOutputTranscription s = o ->
  updates (snd (onmessage (input_message text) t n s))
  = [((i ++ text)%string, o)]
  /\ currentInputTranscription (fst (onmessage (input_message text) t n s))
     = (i ++ text)%string
  /\ currentOutputTranscription (fst (onmessage (input_message text) t n s))
     = o.
Proof.
  intros <- <-.
  pose proof (onmessage_transcript (input_message text) t n s) as H.
  cbv zeta in H.
  change (appended (inputTranscription (input_message text))) with text in H.
  change (appended (outputTranscription (input_message text))) with "" in H.
  change (turnComplete (input_message text)) with false in H.
  cbv iota in H. rewrite string_app_empty in H. exact H.
Qed.

(** C4. Whatever the buffers hold, a message with the turn-complete flag
    first hands the observer the final snapshot of the accumulated input and
    output transcript and then leaves both buffers empty, so that a later
    append starts from the empty string; for example the appends ["hel"],
    ["lo"] followed by the end of the turn emit the input ["hello"], and a
    following append of ["hi"] produces ["hi"]. *)
Theorem turnComplete_emits_then_clears
        (s : LiveChatService) (a : option string)
        (o i : option Transcription) (intr : bool)
        (t : Q) (n : handle) (later : string) :
  let m := mkMessage a o i true intr in
  let s1 := fst (onmessage m t n s) in
  let s2 := fst (onmessage (input_message later) t n s1) in
  updates (snd (onmessage m t n s))
  = [((currentInputTranscription s ++ appended i)%string,
      (currentOutputTranscription s ++ appended o)%string)]
  /\ currentInputTranscription s1 = ""
  /\ currentOutputTranscription s1 = ""
  /\ updates (snd (onmessage (input_message later) t n s1)) = [(later, "")]
  /\ currentInputTranscription s2 = later
  /\ updates (snd (run [channel_message (input_message "hel") t n;
                         channel_message (input_message "lo") t n;
                         channel_message turnComplete_message t n;
                         channel_message (input_message "hi") t n] s1))
     = [("hel", ""); ("hello", ""); ("hello", ""); ("hi", "")].
Proof.
  intros m s1 s2.
  destruct (onmessage_transcript m t n s) as (Hu & Hi & Ho).
  change (turnComplete m) with true in Hi, Ho. cbv iota in Hi, Ho.
  fold s1 in Hi, Ho.
  destruct (onmessage_input later t n s1 Hi Ho) as (Hu1 & Hi1 & _).
  fold s2 in Hi1.
  split; [exact Hu|]. split; [exact Hi|]. split; [exact Ho|].
  split; [exact Hu1|]. split; [exact Hi1|].
  cbn [run]. rewrite !andThen_snd, ?andThen_fst, !updates_app.
  cbn [handle_event skip snd updates]. rewrite app_nil_r.
  set (h1 := onmessage (input_message "hel") t n s1).
  destruct (onmessage_input "hel" t n s1 Hi Ho) as (U1 & I1 & O1).
  fold h1 in U1, I1, O1.
  set (h2 := onmessage (input_message "lo") t n (fst h1)).
  destruct (onmessage_input "lo" t n (fst h1) I1 O1) as (U2 & I2 & O2).
  fold h2 in U2, I2, O2.
  set (h3 := onmessage turnComplete_message t n (fst h2)).
  destruct (onmessage_transcript turnComplete_message t n (fst h2))
    as (U3 & I3 & O3).
  fold h3 in U3, I3, O3. rewrite I2, O2 in U3.
  change (turnComplete turnComplete_message) with true in I3, O3.
  cbv iota in I3, O3.
  destruct (onmessage_input "hi" t n (fst h3) I3 O3) as (U4 & _ & _).
  rewrite U1, U2, U3, U4. reflexivity.
Qed.

(* ================================================================== *)
(** ** decodeAudioData and the audio part of [onmessage] *)
(* ================================================================== *)

(** When [createBuffer] returns: inside the nominal ranges, and only
    there. *)
Lemma createBuffer_outcome (channels frames : nat) (rate : Q) :
  (createBuffer channels frames rate
   = Returns (mkAudioBuffer channels frames rate
                            (List.repeat (List.repeat 0%Q frames) channels))
   /\ (1 <= channels <= maxChannels)%nat /\ (1 <= frames)%nat
   /\ (minSampleRate <= rate)%Q /\ (rate <= maxSampleRate)%Q)
  \/ (createBuffer channels frames rate = Throws NotSupportedError
      /\ ~ ((1 <= channels <= maxChannels)%nat /\ (1 <= frames)%nat
            /\ (minSampleRate <= rate)%Q /\ (rate <= maxSampleRate)%Q)).
Proof.
  unfold createBuffer.
  destruct (Nat.eqb_spec channels 0) as [Hc | Hc]; cbn [orb].
  { right. split; [reflexivity | lia]. }
  destruct (Nat.ltb_spec maxChannels channels) as [Hm | Hm]; cbn [orb].
  { right. split; [reflexivity | lia]. }
  destruct (Nat.eqb_spec frames 0) as [Hf | Hf]; cbn [orb].
  { right. split; [reflexivity | lia]. }
  destruct (Qle_bool minSampleRate rate) eqn:Hlo; cbn [negb orb].
  2:{ right. split; [reflexivity|]. intros (_ & _ & Hle & _).
      apply Qle_bool_iff in Hle. congruence. }
  destruct (Qle_bool rate maxSampleRate) eqn:Hhi; cbn [negb].
  2:{ right. split; [reflexivity|]. intros (_ & _ & _ & Hle).
      apply Qle_bool_iff in Hle. congruence. }
  left. apply Qle_bool_iff in Hlo, Hhi.
  repeat split; auto; lia.
Qed.

Lemma nominal_rate_positive (rate : Q) :
  (minSampleRate <= rate)%Q -> (0 < rate)%Q.
Proof.
  intros H. apply Qlt_le_trans with minSampleRate; [reflexivity | exact H].
Qed.

Lemma Int16Array_of_buffer_parity (data : list byte) :
  (Nat.odd (List.length data) = true -> Int16Array_of_buffer data = None)
  /\ (forall b, Nat.odd (List.length (b :: data)) = true ->
                Int16Array_of_buffer (b :: data) = None).
Proof.
  induction data as [|a data [IHa IHb]].
  - split; [discriminate | reflexivity].
  - split; [apply IHb|].
    intros b Hodd. cbn [Int16Array_of_buffer].
    rewrite IHa; [reflexivity|].
    cbn [List.length] in Hodd. now rewrite Nat.odd_succ_succ in Hodd.
Qed.

Lemma decodeAudioData_odd (data : list byte) (rate : Q) (numChannels : nat) :
  Nat.odd (List.length data) = true ->
  decodeAudioData data rate numChannels = Throws RangeError.
Proof.
  intros Hodd. unfold decodeAudioData.
  now rewrite (proj1 (Int16Array_of_buffer_parity data) Hodd).
Qed.

(** A buffer that [decodeAudioData] returns has the requested rate, which
    is positive, and so a duration that is not negative. *)
Lemma decodeAudioData_duration (data : list byte) (rate : Q)
      (numChannels : nat) (b : AudioBuffer) :
  decodeAudioData data rate numChannels = Returns b ->
  (0 <= duration b)%Q.
Proof.
  unfold decodeAudioData.
  destruct (Int16Array_of_buffer data) as [v|]; [|discriminate].
  destruct (createBuffer_outcome numChannels (List.length v / numChannels)
                                 rate)
    as [(-> & _ & _ & Hmin & _) | (-> & _)]; [|discriminate].
  intros [= <-]. unfold duration. cbn [buffer_length sampleRate].
  assert (Hpos : (0 < rate)%Q) by now apply nominal_rate_positive.
  apply Qle_shift_div_l; [exact Hpos|].
  rewrite Qmult_0_l. unfold Qle. cbn. lia.
Qed.

Lemma decode_packet_duration (base64 : string) (b : AudioBuffer) :
  decode_packet base64 = Returns b -> (0 <= duration b)%Q.
Proof.
  unfold decode_packet. destruct (decode base64) as [data|]; [|discriminate].
  apply decodeAudioData_duration.
Qed.

(** No message changes which channel, devices and nodes are held. *)
Lemma onmessage_same_handles (m : LiveServerMessage) (t : Q) (n : handle)
      (s : LiveChatService) :
  same_handles s (fst (onmessage m t n s)).
Proof.
  destruct (onmessage_parts m t n s) as [Hfst _]. cbv zeta in Hfst.
  rewrite Hfst.
  destruct (play_audio_frame m t n s) as (_ & _ & _ & H1).
  pose proof (transcription_part m (fst (play_audio m t n s))) as H2.
  cbv zeta in H2. destruct H2 as (_ & _ & _ & H2 & _).
  set (mid := (append_output m ;; append_input m ;; report_transcription m)
                (fst (play_audio m t n s))) in *.
  destruct (interrupt_frame m (fst mid)) as (_ & _ & _ & H3).
  unfold same_handles in *.
  repeat split; intuition congruence.
Qed.

(** C5. A byte sequence of odd length, which is not a whole number of 16-bit
    samples, makes [decodeAudioData] fail (with a [RangeError], whatever the
    rate and the channel count); in the session this failure is caught: the
    error is logged and reported, no unit is scheduled for the packet, the
    channel, the devices and the nodes stay as they were, and the rest of the
    message is handled. *)
Theorem odd_packet_is_skipped
        (data : list byte) (base64 : string) (m : LiveServerMessage)
        (t : Q) (n : handle) (s : LiveChatService) :
  Nat.odd (List.length data) = true ->
  inlineData m = Some base64 ->
  decode base64 = Some data ->
  outputAudioContext s <> None ->
  outputNode s <> None ->
  (forall rate numChannels,
      decodeAudioData data rate numChannels = Throws RangeError)
  /\ play_audio m t n s
     = (with_nextStartTime (Qmax (nextStartTime s) t) s,
        [console_error "Error decoding or playing audio:";
         setError (Some "Failed to play audio response.")])
  /\ same_handles s (fst (onmessage m t n s))
  /\ scheduled (snd (onmessage m t n s)) = []
  /\ updates (snd (onmessage m t n s))
     = [((currentInputTranscription s
          ++ appended (inputTranscription m))%string,
         (currentOutputTranscription s
          ++ appended (outputTranscription m))%string)].
Proof.
  intros Hodd Hdata Hdecode Hctx Hnode.
  assert (Hplay : play_audio m t n s
                  = (with_nextStartTime (Qmax (nextStartTime s) t) s,
                     [console_error "Error decoding or playing audio:";
                      setError (Some "Failed to play audio response.")])).
  { unfold play_audio. rewrite Hdata.
    destruct (outputAudioContext s) as [ctx|]; [|congruence].
    destruct (outputNode s) as [out|]; [|congruence].
    destruct (String.eqb_spec base64 "") as [-> | _].
    - vm_compute in Hdecode. injection Hdecode as <-. discriminate.
    - unfold decode_packet. rewrite Hdecode.
      now rewrite decodeAudioData_odd by exact Hodd. }
  split; [intros; now apply decodeAudioData_odd|].
  split; [exact Hplay|].
  split; [apply onmessage_same_handles|].
  split; [|apply onmessage_transcript].
  destruct (onmessage_parts m t n s) as [_ Hsnd]. cbv zeta in Hsnd.
  rewrite Hsnd, Hplay, !scheduled_app. cbn [fst snd].
  pose proof (transcription_part
                m (with_nextStartTime (Qmax (nextStartTime s) t) s)) as Ht.
  cbv zeta in Ht. destruct Ht as (-> & _).
  unfold interrupt. destruct (interrupted m); cbn [snd fst];
    rewrite ?scheduled_stop_all; reflexivity.
Qed.

Lemma odd_packet_is_skipped_example :
  decode "AA==" = Some [x00]
  /\ play_audio (audio_message "AA==") 1 7%nat active_session
     = (with_nextStartTime 1 active_session,
        [console_error "Error decoding or playing audio:";
         setError (Some "Failed to play audio response.")])
  /\ sessionPromise (fst (onmessage (audio_message "AA==") 1 7%nat
                                    active_session)) = Some 5%nat.
Proof.
  assert (Hdecode : decode "AA==" = Some [x00]) by reflexivity.
  destruct (@odd_packet_is_skipped [x00] "AA==" (audio_message "AA==")
              1 7%nat active_session eq_refl eq_refl Hdecode)
    as (_ & Hplay & Hsame & _); try discriminate.
  split; [exact Hdecode|]. split; [exact Hplay|].
  apply Hsame.
Defined.

(* ================================================================== *)
(** ** The schedule *)
(* ================================================================== *)

Lemma Qmax_when_behind (x t : Q) : (t <= x)%Q -> Qmax x t = x.
Proof.
  intros Hle. unfold Qmax, GenericMinMax.gmax.
  destruct (x ?= t)%Q eqn:Hcmp; try reflexivity.
  apply Qlt_alt in Hcmp. exfalso. exact (Qlt_not_le _ _ Hcmp Hle).
Qed.

Lemma Qmax_from_origin (t : Q) : (0 <= t)%Q -> (Qmax 0 t == t)%Q.
Proof. intros Ht. now apply Q.max_r. Qed.

(** What the audio part of [onmessage] schedules: nothing, and the schedule
    is where it was or has caught up with the clock; or one unit, at the
    later of the clock and the end of the schedule, the schedule then
    ending where that unit ends. *)
Lemma play_audio_cases (m : LiveServerMessage) (t : Q) (n : handle)
      (s : LiveChatService) :
  let r := play_audio m t n s in
  (scheduled (snd r) = []
   /\ sources (fst r) = sources s
   /\ (nextStartTime (fst r) = nextStartTime s
       \/ nextStartTime (fst r) = Qmax (nextStartTime s) t))
  \/ (exists b base64,
         inlineData m = Some base64
         /\ decode_packet base64 = Returns b
         /\ scheduled (snd r)
            = [mkSource n (Qmax (nextStartTime s) t) (duration b)]
         /\ sources (fst r)
            = sources_add (mkSource n (Qmax (nextStartTime s) t) (duration b))
                          (sources s)
         /\ nextStartTime (fst r)
            = (Qmax (nextStartTime s) t + duration b)%Q).
Proof.
  cbv zeta. unfold play_audio.
  destruct (inlineData m) as [base64|]; [|left; cbn; auto].
  destruct (outputAudioContext s) as [ctx|]; [|left; cbn; auto].
  destruct (outputNode s) as [out|]; [|left; cbn; auto].
  destruct (String.eqb base64 ""); [left; cbn; auto|].
  destruct (decode_packet base64) as [b|e] eqn:Hb.
  - right. exists b, base64. cbn. repeat split; auto.
  - left. cbn. auto.
Qed.

(** The parts of [onmessage] after the audio keep the set and the schedule
    when the message does not interrupt. *)
Lemma onmessage_uninterrupted (m : LiveServerMessage) (t : Q) (n : handle)
      (s : LiveChatService) :
  interrupted m = false ->
  let p := play_audio m t n s in
  scheduled (snd (onmessage m t n s)) = scheduled (snd p)
  /\ sources (fst (onmessage m t n s)) = sources (fst p)
  /\ nextStartTime (fst (onmessage m t n s)) = nextStartTime (fst p).
Proof.
  intros Hint. cbv zeta.
  destruct (onmessage_parts m t n s) as [Hfst Hsnd]. cbv zeta in Hfst, Hsnd.
  pose proof (transcription_part m (fst (play_audio m t n s))) as Ht.
  cbv zeta in Ht. destruct Ht as (He & _ & _ & _ & Hsrc & Hnext).
  rewrite Hfst, Hsnd, !scheduled_app, He.
  unfold interrupt. rewrite Hint. cbn [fst snd scheduled].
  rewrite app_nil_r. auto.
Qed.

(** One event that plays on: either nothing is scheduled and the end of the
    schedule does not move back, or one unit is scheduled, not before the
    end of the schedule, and the schedule then ends where the unit ends. *)
Lemma plays_on_cases (ev : Event) (s : LiveChatService) :
  plays_on ev ->
  let r := handle_event ev s in
  (scheduled (snd r) = []
   /\ (nextStartTime (fst r) = nextStartTime s
       \/ exists m t n, ev = channel_message m t n
                        /\ nextStartTime (fst r) = Qmax (nextStartTime s) t))
  \/ (exists m t n b,
         ev = channel_message m t n
         /\ scheduled (snd r)
            = [mkSource n (Qmax (nextStartTime s) t) (duration b)]
         /\ (0 <= duration b)%Q
         /\ nextStartTime (fst r)
            = (Qmax (nextStartTime s) t + duration b)%Q).
Proof.
  destruct ev as [ | | src proc | data | m t n | node | | | ];
    cbn [plays_on]; try contradiction; intros Hev; cbv zeta;
    cbn [handle_event].
  - left. unfold onopen.
    destruct (inputAudioContext s), (mediaStream s); cbn; auto.
  - left. unfold onaudioprocess. destruct (sessionPromise s); cbn; auto.
  - destruct (onmessage_uninterrupted m t n s Hev) as (-> & _ & ->).
    destruct (play_audio_cases m t n s) as [(H1 & _ & H2) | H].
    + left. split; [exact H1|]. destruct H2 as [H2 | H2]; [now left|].
      right. now exists m, t, n.
    + right. destruct H as (b & base64 & _ & Hb & H1 & _ & H2).
      exists m, t, n, b. repeat split; auto.
      exact (decode_packet_duration _ Hb).
  - left. cbn. auto.
Qed.

Lemma forall_plays_on_inv (ev : Event) (evs : list Event) :
  Forall plays_on (ev :: evs) -> plays_on ev /\ Forall plays_on evs.
Proof. intros H. inversion H; subst. now split. Qed.

(** Over a run of events that play on, no unit starts before the previous
    one has ended, and the first one does not start before the end of the
    schedule the run began with. *)
Lemma run_no_overlap (evs : list Event) :
  forall s, Forall plays_on evs ->
  back_to_back Qle (scheduled (snd (run evs s)))
  /\ (forall u rest, scheduled (snd (run evs s)) = u :: rest ->
                     (nextStartTime s <= start_when u)%Q).
Proof.
  induction evs as [|ev evs IH]; intros s Hall.
  - cbn. split; [exact I | discriminate].
  - apply forall_plays_on_inv in Hall. destruct Hall as [Hev Hall].
    cbn [run]. rewrite andThen_snd, scheduled_app.
    destruct (IH (fst (handle_event ev s)) Hall) as [IHchain IHhead].
    destruct (plays_on_cases ev s Hev) as [(-> & Hnext) | H].
    + cbn [app]. split; [exact IHchain|].
      intros u rest Hu. apply Qle_trans with (2 := IHhead _ _ Hu).
      destruct Hnext as [-> | (m & t & n & _ & ->)].
      * apply Qle_refl.
      * apply Q.le_max_l.
    + destruct H as (m & t & n & b & _ & -> & Hdur & Hnext).
      cbn [app back_to_back]. split; [split; [|exact IHchain]|].
      * destruct (scheduled (snd (run evs (fst (handle_event ev s)))))
          as [|v rest] eqn:Hrest; [exact I|].
        cbn [start_when buffer_duration]. rewrite <- Hnext.
        exact (IHhead _ _ eq_refl).
      * intros u rest [= <- _]. cbn [start_when]. apply Q.le_max_l.
Qed.

(** When, moreover, every packet arrives before the output has run dry,
    every unit starts exactly where the previous one ends, and the first one
    at the end of the schedule the run began with. *)
Lemma run_gapless (evs : list Event) :
  forall s, Forall plays_on evs -> fed_in_time evs s ->
  back_to_back Qeq (scheduled (snd (run evs s)))
  /\ (forall u rest, scheduled (snd (run evs s)) = u :: rest ->
                     start_when u = nextStartTime s).
Proof.
  induction evs as [|ev evs IH]; intros s Hall Hfed.
  - cbn. split; [exact I | discriminate].
  - apply forall_plays_on_inv in Hall. destruct Hall as [Hev Hall].
    cbn [fed_in_time] in Hfed. destruct Hfed as [Hnow Hfed].
    cbn [run]. rewrite andThen_snd, scheduled_app.
    destruct (IH (fst (handle_event ev s)) Hall Hfed) as [IHchain IHhead].
    destruct (plays_on_cases ev s Hev) as [(-> & Hnext) | H].
    + cbn [app]. split; [exact IHchain|].
      intros u rest Hu. rewrite (IHhead _ _ Hu).
      destruct Hnext as [-> | (m & t & n & -> & ->)]; [reflexivity|].
      now apply Qmax_when_behind.
    + destruct H as (m & t & n & b & -> & -> & Hdur & Hnext).
      cbn [app back_to_back]. split; [split; [|exact IHchain]|].
      * destruct (scheduled
                    (snd (run evs (fst (handle_event
                                          (channel_message m t n) s)))))
          as [|v rest] eqn:Hrest; [exact I|].
        cbn [start_when buffer_duration]. rewrite <- Hnext.
        rewrite (IHhead _ _ eq_refl). reflexivity.
      * intros u rest [= <- _]. cbn [start_when].
        now apply Qmax_when_behind.
Qed.

(** C1, as the specification states it, fails: two packets arrive with no
    interruption between them, the second one when the output clock (10)
    has passed the end of the first unit (3/24000); the second unit starts
    at the clock and a gap is left.  And a packet that does not decode (one
    byte) arrives without any unit being scheduled. *)
Lemma late_packet_leaves_a_gap :
  let evs := [channel_message (audio_message (silence 3)) 0 10%nat;
              channel_message (audio_message (silence 3)) 10 11%nat] in
  Forall plays_on evs
  /\ scheduled (snd (run evs active_session))
     = [mkSource 10%nat 0 (3 # 24000); mkSource 11%nat 10 (3 # 24000)]
  /\ ~ back_to_back Qeq (scheduled (snd (run evs active_session)))
  /\ scheduled (snd (onmessage (audio_message "AA==") 1 12%nat
                               active_session)) = [].
Proof.
  cbv zeta. split; [repeat constructor|].
  split; [|split]; [| |vm_compute; reflexivity].
  1: vm_compute; reflexivity.
  assert (H : scheduled
                (snd (run [channel_message (audio_message (silence 3)) 0 10%nat;
                           channel_message (audio_message (silence 3)) 10 11%nat]
                          active_session))
              = [mkSource 10%nat 0 (3 # 24000);
                 mkSource 11%nat 10 (3 # 24000)]) by (vm_compute; reflexivity).
  rewrite H. cbn. intros [Hgap _]. discriminate Hgap.
Qed.

(** C1, amended. A packet that passes the guard and decodes is scheduled at
    [max(nextStartTime, currentTime)], and [nextStartTime] becomes that start
    plus the duration of the unit.  Over every run of events without
    interruption or teardown, a unit never starts before the previous one
    has ended; the gap between them is zero when every packet after the first
    event arrives while the output clock has not passed the end of the
    schedule. *)
Theorem units_are_scheduled_back_to_back
        (ev : Event) (evs : list Event) (s : LiveChatService) :
  Forall plays_on (ev :: evs) ->
  (forall m t n base64 b,
      ev = channel_message m t n ->
      inlineData m = Some base64 -> base64 <> "" ->
      outputAudioContext s <> None -> outputNode s <> None ->
      decode_packet base64 = Returns b ->
      scheduled (snd (handle_event ev s))
      = [mkSource n (Qmax (nextStartTime s) t) (duration b)]
      /\ nextStartTime (fst (handle_event ev s))
         = (Qmax (nextStartTime s) t + duration b)%Q)
  /\ back_to_back Qle (scheduled (snd (run (ev :: evs) s)))
  /\ (fed_in_time evs (fst (handle_event ev s)) ->
      back_to_back Qeq (scheduled (snd (run (ev :: evs) s)))).
Proof.
  intros Hall. split; [|split].
  - intros m t n base64 b -> Hdata Hne Hctx Hnode Hb.
    apply forall_plays_on_inv in Hall. destruct Hall as [Hev _].
    cbn [plays_on] in Hev. cbn [handle_event].
    destruct (onmessage_uninterrupted m t n s Hev) as (-> & _ & ->).
    unfold play_audio. rewrite Hdata.
    destruct (outputAudioContext s); [|congruence].
    destruct (outputNode s); [|congruence].
    destruct (String.eqb_spec base64 ""); [congruence|].
    rewrite Hb. cbn. split; reflexivity.
  - apply (@run_no_overlap (ev :: evs) s Hall).
  - intros Hfed.
    apply forall_plays_on_inv in Hall. destruct Hall as [Hev Hall].
    cbn [run]. rewrite andThen_snd, scheduled_app.
    destruct (@run_gapless evs (fst (handle_event ev s)) Hall Hfed)
      as [Hchain Hhead].
    destruct (plays_on_cases ev s Hev) as [(-> & _) | H].
    + exact Hchain.
    + destruct H as (m & t & n & b & -> & -> & _ & Hnext).
      cbn [app back_to_back]. split; [|exact Hchain].
      destruct (scheduled
                  (snd (run evs (fst (handle_event
                                        (channel_message m t n) s)))))
        as [|v rest] eqn:Hrest; [exact I|].
      cbn [start_when buffer_duration]. rewrite <- Hnext.
      rewrite (Hhead _ _ eq_refl). reflexivity.
Qed.

Lemma units_are_scheduled_back_to_back_example :
  let ev := channel_message (audio_message (silence 3)) 5 10%nat in
  let evs := [channel_message (audio_message (silence 6)) 5 11%nat;
              channel_message (audio_message (silence 3)) 5 12%nat] in
  Forall plays_on (ev :: evs)
  /\ fed_in_time evs (fst (handle_event ev active_session))
  /\ back_to_back Qle (scheduled (snd (run (ev :: evs) active_session)))
  /\ back_to_back Qeq (scheduled (snd (run (ev :: evs) active_session))).
Proof.
  cbv zeta.
  assert (Hall : Forall plays_on
                   [channel_message (audio_message (silence 3)) 5 10%nat;
                    channel_message (audio_message (silence 6)) 5 11%nat;
                    channel_message (audio_message (silence 3)) 5 12%nat]).
  { repeat constructor. }
  assert (Hfed : fed_in_time
                   [channel_message (audio_message (silence 6)) 5 11%nat;
                    channel_message (audio_message (silence 3)) 5 12%nat]
                   (fst (handle_event
                           (channel_message (audio_message (silence 3))
                                            5 10%nat) active_session))).
  { vm_compute. repeat split; discriminate. }
  destruct (@units_are_scheduled_back_to_back _ _ active_session Hall)
    as (_ & Hle & Heq).
  split; [exact Hall|]. split; [exact Hfed|]. split; [exact Hle|].
  exact (Heq Hfed).
Defined.

(** The scenario of the specification: packets of 1 s, 0.5 s and 0.75 s
    arriving in order at clock [t0 = 2] start at [t0], [t0 + 1] and
    [t0 + 1.5], and the schedule ends at [t0 + 2.25]. *)
Example three_packets_scenario :
  let r := run [channel_message (audio_message (silence (24 * 1000))) 2 10%nat;
                channel_message (audio_message (silence (12 * 1000))) 2 11%nat;
                channel_message (audio_message (silence (18 * 1000))) 2 12%nat]
               active_session in
  List.map (fun u => Qred (start_when u)) (scheduled (snd r))
  = [2; 3; 7 # 2]%Q
  /\ Qred (nextStartTime (fst r)) = (17 # 4)%Q.
Proof. lazy. split; reflexivity. Qed.

(* ================================================================== *)
(** ** Interruption *)
(* ================================================================== *)

Lemma fold_delete_keeps (l acc : list BufferSource) (x : BufferSource) :
  In x (List.fold_left
          (fun acc src => sources_delete (source_node src) acc) l acc) ->
  In x acc /\ forall src, In src l -> has_node (source_node src) x = false.
Proof.
  revert acc. induction l as [|y l IH]; intros acc Hin.
  - split; [exact Hin | intros src []].
  - cbn [List.fold_left] in Hin. apply IH in Hin. destruct Hin as [Hacc Hl].
    unfold sources_delete in Hacc. apply filter_In in Hacc.
    destruct Hacc as [Hacc Hy]. split; [exact Hacc|].
    intros src [<- | Hsrc]; [|now apply Hl].
    now apply Bool.negb_true_iff in Hy.
Qed.

(** Deleting every element while iterating leaves the set empty. *)
Lemma delete_each_empty (l : list BufferSource) : delete_each l = [].
Proof.
  unfold delete_each.
  destruct (List.fold_left _ l l) as [|x rest] eqn:Hfold; [reflexivity|].
  assert (Hin : In x (List.fold_left
                        (fun acc src => sources_delete (source_node src) acc)
                        l l)).
  { rewrite Hfold. now left. }
  apply fold_delete_keeps in Hin. destruct Hin as [Hx Hall].
  specialize (Hall x Hx). unfold has_node in Hall.
  now rewrite Nat.eqb_refl in Hall.
Qed.

Lemma sources_add_keeps (src x : BufferSource) (l : list BufferSource) :
  In x l -> In x (sources_add src l).
Proof.
  intros Hx. unfold sources_add.
  destruct (List.existsb _ l); [exact Hx | apply in_or_app; now left].
Qed.

Lemma play_audio_keeps_sources (m : LiveServerMessage) (t : Q) (n : handle)
      (s : LiveChatService) (x : BufferSource) :
  In x (sources s) -> In x (sources (fst (play_audio m t n s))).
Proof.
  intros Hx.
  destruct (play_audio_cases m t n s) as [(_ & -> & _) | H]; [exact Hx|].
  destruct H as (b & base64 & _ & _ & _ & -> & _).
  now apply sources_add_keeps.
Qed.

(** A unit that the audio part schedules starts at the later of the end of
    the schedule and the clock. *)
Lemma play_audio_start (m : LiveServerMessage) (t : Q) (n : handle)
      (s : LiveChatService) (src : BufferSource) :
  In src (scheduled (snd (play_audio m t n s))) ->
  start_when src = Qmax (nextStartTime s) t.
Proof.
  destruct (play_audio_cases m t n s) as [(-> & _) | H]; [intros []|].
  destruct H as (b & base64 & _ & _ & -> & _).
  intros [<- | []]. reflexivity.
Qed.

(** What a message with the [interrupted] flag leaves behind. *)
Lemma onmessage_interrupted (m : LiveServerMessage) (t : Q) (n : handle)
      (s : LiveChatService) :
  interrupted m = true ->
  sources (fst (onmessage m t n s)) = []
  /\ nextStartTime (fst (onmessage m t n s)) = 0%Q
  /\ forall src, In src (sources s) ->
                 In (source_stop (source_node src)) (snd (onmessage m t n s)).
Proof.
  intros Hint.
  destruct (onmessage_parts m t n s) as [Hfst Hsnd]. cbv zeta in Hfst, Hsnd.
  pose proof (transcription_part m (fst (play_audio m t n s))) as Ht.
  cbv zeta in Ht. destruct Ht as (_ & _ & _ & _ & Hsrc & _).
  rewrite Hfst, Hsnd. unfold interrupt. rewrite Hint. cbn [fst snd].
  cbn [sources nextStartTime with_nextStartTime with_sources].
  split; [apply delete_each_empty|]. split; [reflexivity|].
  intros src Hin. apply in_or_app. right. apply in_or_app. right.
  rewrite Hsrc. unfold stop_all.
  apply (in_map (fun x => source_stop (source_node x))).
  now apply play_audio_keeps_sources.
Qed.

(** C2, as the specification states it, fails: an interruption that
    arrives when the output clock reads 5 leaves [nextStartTime] at 0, not
    at 5. *)
Lemma interrupt_does_not_store_the_clock :
  let s := fst (onmessage (audio_message (silence 3)) 4 10%nat
                          active_session) in
  sources s <> []
  /\ nextStartTime (fst (onmessage interrupted_message 5 11%nat s)) = 0%Q
  /\ ~ (nextStartTime (fst (onmessage interrupted_message 5 11%nat s)) == 5)%Q.
Proof.
  cbv zeta. split; [vm_compute; discriminate|].
  split; [vm_compute; reflexivity|].
  vm_compute. discriminate.
Qed.

(** C2, amended. A message with the [interrupted] flag stops every unit
    that is tracked, leaves the set empty and resets [nextStartTime] to 0, a
    value that is not later than the output clock (which is not negative), so
    that the next unit scheduled starts at the value the clock has when its
    packet arrives. *)
Theorem interrupted_stops_all_and_rewinds
        (m : LiveServerMessage) (t : Q) (n : handle) (s : LiveChatService) :
  interrupted m = true ->
  (0 <= t)%Q ->
  let s' := fst (onmessage m t n s) in
  sources s' = []
  /\ (forall src, In src (sources s) ->
                  In (source_stop (source_node src))
                     (snd (onmessage m t n s)))
  /\ nextStartTime s' = 0%Q
  /\ (nextStartTime s' <= t)%Q
  /\ (forall m' t' n' src,
         (0 <= t')%Q ->
         In src (scheduled (snd (onmessage m' t' n' s'))) ->
         (start_when src == t')%Q).
Proof.
  intros Hint Ht s'.
  destruct (onmessage_interrupted m t n s Hint) as (Hempty & Hzero & Hstop).
  fold s' in Hempty, Hzero.
  split; [exact Hempty|]. split; [exact Hstop|]. split; [exact Hzero|].
  split; [now rewrite Hzero|].
  intros m' t' n' src Ht' Hin.
  assert (Hplay : In src (scheduled (snd (play_audio m' t' n' s')))).
  { destruct (onmessage_parts m' t' n' s') as [_ Hsnd]. cbv zeta in Hsnd.
    rewrite Hsnd, !scheduled_app in Hin.
    pose proof (transcription_part m' (fst (play_audio m' t' n' s'))) as Hmid.
    cbv zeta in Hmid. destruct Hmid as (Hmid & _). rewrite Hmid in Hin.
    unfold interrupt in Hin.
    destruct (interrupted m'); cbn [snd scheduled] in Hin;
      rewrite ?scheduled_stop_all, ?app_nil_r in Hin; exact Hin. }
  rewrite (play_audio_start _ _ _ _ _ Hplay), Hzero.
  now apply Qmax_from_origin.
Qed.

Lemma interrupted_stops_all_and_rewinds_example :
  let s := fst (onmessage (audio_message (silence 3)) 4 10%nat
                          active_session) in
  (0 <= 5)%Q
  /\ sources s = [mkSource 10%nat 4 (3 # 24000)]
  /\ sources (fst (onmessage interrupted_message 5 11%nat s)) = []
  /\ In (source_stop 10%nat) (snd (onmessage interrupted_message 5 11%nat s)).
Proof.
  cbv zeta.
  assert (Hclock : (0 <= 5)%Q) by (unfold Qle; simpl; lia).
  assert (Hsrc : sources (fst (onmessage (audio_message (silence 3)) 4 10%nat
                                         active_session))
                 = [mkSource 10%nat 4 (3 # 24000)]) by (vm_compute; reflexivity).
  destruct (@interrupted_stops_all_and_rewinds
              interrupted_message 5 11%nat
              (fst (onmessage (audio_message (silence 3)) 4 10%nat
                              active_session)) eq_refl Hclock)
    as (Hempty & Hstop & _).
  split; [exact Hclock|]. split; [exact Hsrc|]. split; [exact Hempty|].
  apply (Hstop (mkSource 10%nat 4 (3 # 24000))).
  rewrite Hsrc. now left.
Defined.

(* ================================================================== *)
(** ** Teardown *)
(* ================================================================== *)

(** The state [stopSessionCleanup] leaves and the calls it makes. *)
Lemma stopSessionCleanup_spec (s : LiveChatService) :
  let r := stopSessionCleanup s in
  fst r
  = mkService (sessionPromise s) None None None None None None
              (match outputAudioContext s with
               | Some _ => []
               | None => sources s
               end)
              (match outputAudioContext s with
               | Some _ => 0%Q
               | None => nextStartTime s
               end) "" ""
  /\ (forall src, outputAudioContext s <> None -> In src (sources s) ->
                  In (source_stop (source_node src)) (snd r))
  /\ (forall h, inputAudioContext s = Some h -> In (context_close h) (snd r))
  /\ (forall h, outputAudioContext s = Some h -> In (context_close h) (snd r))
  /\ (forall h, mediaStream s = Some h -> In (tracks_stop h) (snd r))
  /\ (forall h, outputNode s = Some h -> In (node_disconnect h) (snd r))
  /\ (forall h, scriptProcessor s = Some h -> In (node_disconnect h) (snd r))
  /\ (forall h, mediaStreamSource s = Some h ->
                In (node_disconnect h) (snd r))
  /\ updates (snd r)
     = [(currentInputTranscription s, currentOutputTranscription s)].
Proof.
  destruct s as [sp ic oc pr ms m on src nx ci co].
  cbv zeta.
  unfold stopSessionCleanup, andThen, release_scriptProcessor,
    release_mediaStreamSource, release_mediaStream, release_inputAudioContext,
    release_outputAudioContext, release_outputNode, final_update.
  split; [destruct ic, oc, pr, ms, m, on; reflexivity|].
  split.
  { intros x Hctx Hx. cbn in Hctx, Hx.
    destruct oc as [c|]; [|congruence].
    assert (Hstop : In (source_stop (source_node x)) (stop_all src)).
    { unfold stop_all.
      now apply (in_map (fun y => source_stop (source_node y))). }
    destruct ic, pr, ms, m, on; cbn;
      rewrite ?in_app_iff; cbn; tauto. }
  split.
  { intros h [= ->]. destruct oc, pr, ms, m, on; cbn;
      rewrite ?in_app_iff; cbn; tauto. }
  split.
  { intros h [= ->]. destruct ic, pr, ms, m, on; cbn;
      rewrite ?in_app_iff; cbn; tauto. }
  split.
  { intros h [= ->]. destruct ic, oc, pr, ms, on; cbn;
      rewrite ?in_app_iff; cbn; tauto. }
  split.
  { intros h [= ->]. destruct ic, oc, pr, ms, m; cbn;
      rewrite ?in_app_iff; cbn; tauto. }
  split.
  { intros h [= ->]. destruct ic, oc, ms, m, on; cbn;
      rewrite ?in_app_iff; cbn; tauto. }
  split.
  { intros h [= ->]. destruct ic, oc, pr, m, on; cbn;
      rewrite ?in_app_iff; cbn; tauto. }
  destruct ic, oc, pr, ms, m, on; cbn;
    rewrite ?updates_app, ?updates_stop_all; reflexivity.
Qed.

Lemma stopSession_state (s : LiveChatService) :
  fst (stopSession s)
  = mkService None None None None None None None
              (match outputAudioContext s with
               | Some _ => []
               | None => sources s
               end)
              (match outputAudioContext s with
               | Some _ => 0%Q
               | None => nextStartTime s
               end) "" "".
Proof.
  unfold stopSession. rewrite andThen_fst.
  destruct (stopSessionCleanup_spec (fst (close_channel s))) as [-> _].
  unfold close_channel.
  destruct (sessionPromise s) eqn:Hsp; cbn [fst]; [reflexivity|].
  now rewrite Hsp.
Qed.

Lemma stopSession_effects (s : LiveChatService) :
  (forall src, outputAudioContext s <> None -> In src (sources s) ->
               In (source_stop (source_node src)) (snd (stopSession s)))
  /\ (forall h, inputAudioContext s = Some h ->
                In (context_close h) (snd (stopSession s)))
  /\ (forall h, outputAudioContext s = Some h ->
                In (context_close h) (snd (stopSession s)))
  /\ (forall h, mediaStream s = Some h ->
                In (tracks_stop h) (snd (stopSession s)))
  /\ (forall h, outputNode s = Some h ->
                In (node_disconnect h) (snd (stopSession s)))
  /\ (forall h, sessionPromise s = Some h ->
                In (session_close h) (snd (stopSession s)))
  /\ (forall h, scriptProcessor s = Some h ->
                In (node_disconnect h) (snd (stopSession s)))
  /\ (forall h, mediaStreamSource s = Some h ->
                In (node_disconnect h) (snd (stopSession s))).
Proof.
  unfold stopSession.
  destruct (stopSessionCleanup_spec (fst (close_channel s)))
    as (_ & Hsrc & Hic & Hoc & Hms & Hon & Hpr & Hmss & _).
  assert (Hsame : outputAudioContext (fst (close_channel s))
                  = outputAudioContext s
                  /\ sources (fst (close_channel s)) = sources s
                  /\ inputAudioContext (fst (close_channel s))
                     = inputAudioContext s
                  /\ mediaStream (fst (close_channel s)) = mediaStream s
                  /\ outputNode (fst (close_channel s)) = outputNode s
                  /\ scriptProcessor (fst (close_channel s))
                     = scriptProcessor s
                  /\ mediaStreamSource (fst (close_channel s))
                     = mediaStreamSource s).
  { unfold close_channel. destruct (sessionPromise s); cbn; auto 10. }
  destruct Hsame as (E1 & E2 & E3 & E4 & E5 & E6 & E7).
  rewrite E1 in Hsrc, Hoc. rewrite E2 in Hsrc. rewrite E3 in Hic.
  rewrite E4 in Hms. rewrite E5 in Hon. rewrite E6 in Hpr.
  rewrite E7 in Hmss.
  repeat split; intros; rewrite andThen_snd; apply in_or_app;
    try (right; auto; fail).
  left. unfold close_channel. rewrite H. now left.
Qed.


(** From a tidy state, teardown gives back the object as it was created. *)
Lemma stopSession_tidy (s : LiveChatService) :
  tidy s -> fst (stopSession s) = initial.
Proof.
  intros Htidy. rewrite stopSession_state. unfold initial.
  destruct (outputAudioContext s) eqn:Hoc; [reflexivity|].
  destruct (Htidy Hoc) as [-> ->]. reflexivity.
Qed.

Lemma stopSessionCleanup_tidy (s : LiveChatService) :
  tidy s -> fst (stopSessionCleanup s) = with_sessionPromise (sessionPromise s) initial.
Proof.
  intros Htidy. destruct (stopSessionCleanup_spec s) as [-> _].
  unfold initial, with_sessionPromise. cbn.
  destruct (outputAudioContext s) eqn:Hoc; [reflexivity|].
  destruct (Htidy Hoc) as [-> ->]. reflexivity.
Qed.

(* ================================================================== *)
(** ** The invariant of the event loop *)
(* ================================================================== *)

Lemma start_failed_state (err : thrown) (s : LiveChatService) :
  fst (start_failed err s) = fst (stopSession s).
Proof. unfold start_failed. now rewrite !andThen_fst. Qed.

Lemma start_failed_effects (err : thrown) (s : LiveChatService) :
  snd (start_failed err s)
  = console_error "Failed to start live session:"
      :: setError (Some ("Failed to start voice chat: "
                           ++ message_of err)%string)
      :: snd (stopSession s).
Proof.
  unfold start_failed. rewrite !andThen_snd, !andThen_fst. reflexivity.
Qed.

Lemma tidy_initial : tidy initial.
Proof. intros _. split; reflexivity. Qed.

Lemma onmessage_tidy (m : LiveServerMessage) (t : Q) (n : handle)
      (s : LiveChatService) :
  tidy s -> tidy (fst (onmessage m t n s)).
Proof.
  intros Htidy Hoc.
  destruct (onmessage_same_handles m t n s) as (_ & _ & Hsame & _).
  rewrite Hoc in Hsame. symmetry in Hsame.
  destruct (Htidy Hsame) as [Hsrc Hnext].
  assert (Hplay : play_audio m t n s = (s, [])).
  { unfold play_audio. rewrite Hsame. now destruct (inlineData m). }
  destruct (onmessage_parts m t n s) as [Hfst _]. cbv zeta in Hfst.
  rewrite Hplay in Hfst. cbn [fst] in Hfst.
  pose proof (transcription_part m s) as Ht. cbv zeta in Ht.
  destruct Ht as (_ & _ & _ & _ & Hsrc' & Hnext').
  rewrite Hfst. unfold interrupt.
  destruct (interrupted m); cbn [fst sources nextStartTime
                                  with_nextStartTime with_sources].
  - split; [apply delete_each_empty | reflexivity].
  - now rewrite Hsrc', Hnext'.
Qed.

(** Every event keeps the state tidy. *)
Lemma handle_event_tidy (ev : Event) (s : LiveChatService) :
  tidy s -> tidy (fst (handle_event ev s)).
Proof.
  intros Htidy.
  destruct ev as [inCtx outCtx gain | stream session | src proc | data
                  | m t n | node | | | ]; cbn [handle_event].
  - unfold startSession_begin.
    destruct (sessionPromise s); [exact Htidy|].
    destruct inCtx as [ic|err]; [destruct outCtx as [oc|err]|]; cbn [fst].
    + rewrite !andThen_fst. cbn. intros [=].
    + rewrite andThen_fst, start_failed_state, stopSession_tidy;
        [apply tidy_initial|].
      rewrite !andThen_fst. cbn. exact Htidy.
    + rewrite andThen_fst, start_failed_state, stopSession_tidy;
        [apply tidy_initial|].
      rewrite !andThen_fst. cbn. exact Htidy.
  - unfold startSession_resume.
    destruct stream as [ms|err]; [destruct session as [p|err]|]; cbn [fst].
    + rewrite !andThen_fst. cbn. exact Htidy.
    + rewrite andThen_fst, start_failed_state, stopSession_tidy;
        [apply tidy_initial|]. cbn. exact Htidy.
    + rewrite start_failed_state, stopSession_tidy;
        [apply tidy_initial | exact Htidy].
  - unfold onopen. destruct (inputAudioContext s), (mediaStream s);
      cbn [fst]; exact Htidy.
  - unfold onaudioprocess. destruct (sessionPromise s); exact Htidy.
  - now apply onmessage_tidy.
  - intros Hoc. cbn in Hoc |- *. destruct (Htidy Hoc) as [-> ->].
    split; reflexivity.
  - unfold onerror. rewrite !andThen_fst. cbn [call fst].
    rewrite stopSession_tidy; [apply tidy_initial | exact Htidy].
  - unfold onclose. rewrite andThen_fst. cbn [call fst].
    rewrite stopSessionCleanup_tidy by exact Htidy.
    intros _. split; reflexivity.
  - rewrite stopSession_tidy; [apply tidy_initial | exact Htidy].
Qed.

Lemma reachable_tidy (s : LiveChatService) : reachable s -> tidy s.
Proof.
  induction 1 as [|s ev _ IH]; [apply tidy_initial|].
  now apply handle_event_tidy.
Qed.

Lemma reachable_run (evs : list Event) :
  forall s, reachable s -> reachable (fst (run evs s)).
Proof.
  induction evs as [|ev evs IH]; intros s Hs; [exact Hs|].
  cbn [run]. rewrite andThen_fst. apply IH. now constructor.
Qed.



(** After teardown nothing can be scheduled: the audio part of [onmessage]
    is guarded by the output context. *)
Lemma no_audio_without_context (m : LiveServerMessage) (t : Q) (n : handle)
      (s : LiveChatService) :
  outputAudioContext s = None -> sources s = [] ->
  scheduled (snd (onmessage m t n s)) = []
  /\ sources (fst (onmessage m t n s)) = [].
Proof.
  intros Hoc Hsrc.
  assert (Hplay : play_audio m t n s = (s, [])).
  { unfold play_audio. rewrite Hoc. now destruct (inlineData m). }
  destruct (onmessage_parts m t n s) as [Hfst Hsnd]. cbv zeta in Hfst, Hsnd.
  rewrite Hplay in Hfst, Hsnd. cbn [fst snd] in Hfst, Hsnd.
  pose proof (transcription_part m s) as Ht. cbv zeta in Ht.
  destruct Ht as (He & _ & _ & _ & Hsrc' & _).
  rewrite Hfst, Hsnd, !scheduled_app, He. unfold interrupt.
  destruct (interrupted m); cbn [fst snd sources with_nextStartTime
                                  with_sources scheduled app].
  - rewrite scheduled_stop_all. split; [reflexivity|].
    apply delete_each_empty.
  - split; [reflexivity|]. now rewrite Hsrc'.
Qed.

(** C7. In every state the event loop can reach, units are scheduled only
    while the session holds its output context; and each of the three ways
    into teardown (explicit stop, channel error, channel close) stops every
    scheduled unit and leaves the set empty and the output context released,
    after which no message can schedule a unit. *)
Theorem no_unit_survives_teardown (s : LiveChatService) (ev : Event) :
  reachable s ->
  teardown ev ->
  (sources s <> [] -> outputAudioContext s <> None)
  /\ sources (fst (handle_event ev s)) = []
  /\ outputAudioContext (fst (handle_event ev s)) = None
  /\ (forall src, In src (sources s) ->
                  In (source_stop (source_node src))
                     (snd (handle_event ev s)))
  /\ (forall m t n,
         scheduled (snd (onmessage m t n (fst (handle_event ev s)))) = []
         /\ sources (fst (onmessage m t n (fst (handle_event ev s)))) = []).
Proof.
  intros Hreach Hev.
  pose proof (reachable_tidy Hreach) as Htidy.
  assert (Hlive : sources s <> [] -> outputAudioContext s <> None).
  { intros Hne Hoc. destruct (Htidy Hoc) as [Hsrc _]. contradiction. }
  assert (Hstops : forall src, In src (sources s) ->
                               outputAudioContext s <> None).
  { intros src Hin. apply Hlive. intros Heq. rewrite Heq in Hin.
    contradiction. }
  assert (Hafter : fst (handle_event ev s)
                   = with_sessionPromise
                       (sessionPromise (fst (handle_event ev s))) initial).
  { destruct Hev as [-> | [-> | ->]]; cbn [handle_event].
    - now rewrite stopSession_tidy.
    - unfold onerror. rewrite !andThen_fst. cbn [call fst].
      now rewrite stopSession_tidy.
    - unfold onclose. rewrite andThen_fst. cbn [call fst].
      now rewrite stopSessionCleanup_tidy. }
  assert (Hsrc0 : sources (fst (handle_event ev s)) = [])
    by now rewrite Hafter.
  assert (Hoc0 : outputAudioContext (fst (handle_event ev s)) = None)
    by now rewrite Hafter.
  split; [exact Hlive|]. split; [exact Hsrc0|]. split; [exact Hoc0|].
  split; [|intros m t n; now apply no_audio_without_context].
  intros src Hin. specialize (Hstops src Hin).
  destruct Hev as [-> | [-> | ->]]; cbn [handle_event].
  - now apply stopSession_effects.
  - unfold onerror. rewrite !andThen_snd, !andThen_fst. cbn [call fst snd].
    right. right. now apply stopSession_effects.
  - unfold onclose. rewrite andThen_snd. cbn [call fst snd]. right.
    now apply stopSessionCleanup_spec.
Qed.

Lemma no_unit_survives_teardown_example :
  let s := fst (run [start_called (Done 1%nat) (Done 2%nat) 3%nat;
                     microphone_settled (Done 4%nat) (Done 5%nat);
                     channel_message (audio_message (silence 3)) 4 10%nat]
                    initial) in
  reachable s
  /\ teardown channel_close
  /\ sources s = [mkSource 10%nat 4 (3 # 24000)]
  /\ sources (fst (handle_event channel_close s)) = []
  /\ In (source_stop 10%nat) (snd (handle_event channel_close s)).
Proof.
  cbv zeta.
  set (s := fst (run [start_called (Done 1%nat) (Done 2%nat) 3%nat;
                      microphone_settled (Done 4%nat) (Done 5%nat);
                      channel_message (audio_message (silence 3)) 4 10%nat]
                     initial)).
  assert (Hreach : reachable s)
    by (apply reachable_run; apply reachable_initial).
  assert (Hev : teardown channel_close) by (right; right; reflexivity).
  assert (Hsrc : sources s = [mkSource 10%nat 4 (3 # 24000)])
    by (vm_compute; reflexivity).
  destruct (@no_unit_survives_teardown s channel_close Hreach Hev)
    as (_ & Hempty & _ & Hstop & _).
  split; [exact Hreach|]. split; [exact Hev|]. split; [exact Hsrc|].
  split; [exact Hempty|].
  apply (Hstop (mkSource 10%nat 4 (3 # 24000))). rewrite Hsrc. now left.
Defined.

(* ================================================================== *)
(** ** startSession *)
(* ================================================================== *)

(** The guard of [startSession]: while the channel promise is held the
    call only warns, returns without a result and changes no field. *)
Lemma startSession_guard (p : StartPlatform) (s : LiveChatService) :
  sessionPromise s <> None ->
  startSession p s
  = (s, [console_warn "Session already active."], ReturnsUndefined).
Proof.
  intros Hlive. unfold startSession, startSession_begin.
  destruct (sessionPromise s); [reflexivity | congruence].
Qed.

(** C8. A second [startSession] on a session that is connecting is expected
    to be rejected with a warning and to change nothing.  The guard reads
    [sessionPromise], which is assigned only after [await getUserMedia]: a
    second call made while the first one is suspended there finds it empty
    and is not rejected.  On a fresh object, after a first call that is
    awaiting the microphone, the second call warns about nothing, clears the
    transcript, replaces the two audio contexts and the output node by new
    ones, never closes the ones the first call created, and suspends as
    well. *)
Theorem second_start_while_awaiting_microphone :
  let first := startSession_begin (Done 1%nat) (Done 2%nat) 3%nat initial in
  let s1 := fst (fst first) in
  let second := startSession_begin (Done 6%nat) (Done 7%nat) 8%nat s1 in
  snd first = None
  /\ s1 = mkService None (Some 1%nat) (Some 2%nat) None None None
                    (Some 3%nat) [] 0 "" ""
  /\ second
     = (mkService None (Some 6%nat) (Some 7%nat) None None None
                  (Some 8%nat) [] 0 "" "",
        [setError None; onTranscriptionUpdate "" ""; node_connect 8%nat 7%nat],
        None)
  /\ fst (fst second) <> s1
  /\ ~ In (console_warn "Session already active.") (snd (fst second))
  /\ ~ In (context_close 1%nat) (snd (fst second))
  /\ ~ In (context_close 2%nat) (snd (fst second)).
Proof.
  cbv zeta.
  assert (Hsecond :
            startSession_begin (Done 6%nat) (Done 7%nat) 8%nat
              (fst (fst (startSession_begin (Done 1%nat) (Done 2%nat) 3%nat
                                            initial)))
            = (mkService None (Some 6%nat) (Some 7%nat) None None None
                         (Some 8%nat) [] 0 "" "",
               [setError None; onTranscriptionUpdate "" "";
                node_connect 8%nat 7%nat],
               None)) by reflexivity.
  split; [reflexivity|]. split; [reflexivity|]. split; [exact Hsecond|].
  rewrite Hsecond. cbn [fst snd].
  split; [discriminate|].
  repeat split; intros [H | [H | [H | []]]]; discriminate H.
Qed.

(** The [catch] branch, from a tidy state: the object is as it was created,
    the error is reported and whatever was held is released. *)
Lemma start_failed_spec (err : thrown) (s : LiveChatService) :
  tidy s ->
  fst (start_failed err s) = initial
  /\ In (setError (Some ("Failed to start voice chat: "
                           ++ message_of err)%string))
        (snd (start_failed err s))
  /\ (forall h, inputAudioContext s = Some h ->
                In (context_close h) (snd (start_failed err s)))
  /\ (forall h, outputAudioContext s = Some h ->
                In (context_close h) (snd (start_failed err s)))
  /\ (forall h, mediaStream s = Some h ->
                In (tracks_stop h) (snd (start_failed err s)))
  /\ (forall h, outputNode s = Some h ->
                In (node_disconnect h) (snd (start_failed err s))).
Proof.
  intros Htidy.
  rewrite start_failed_state, start_failed_effects.
  destruct (stopSession_effects s) as (_ & Hic & Hoc & Hms & Hon & _).
  split; [now apply stopSession_tidy|].
  split; [right; now left|].
  repeat split; intros h Hh; right; right; auto.
Qed.

(** The continuation of [startSession] after the microphone, whatever
    ran in between: a failure there returns the object to its initial
    state. *)
Lemma resume_failure_returns_to_idle
      (stream session : attempt handle) (s : LiveChatService) (err : thrown) :
  tidy s ->
  stream = Failed err \/ (exists m, stream = Done m /\ session = Failed err) ->
  snd (startSession_resume stream session s) = ReturnsFalse
  /\ fst (fst (startSession_resume stream session s)) = initial
  /\ In (setError (Some ("Failed to start voice chat: "
                           ++ message_of err)%string))
        (snd (fst (startSession_resume stream session s))).
Proof.
  intros Htidy [-> | (m & -> & ->)]; unfold startSession_resume; cbn [fst snd].
  - destruct (@start_failed_spec err s Htidy) as (Hst & Herr & _).
    repeat split; assumption.
  - assert (Htidy' : tidy (with_mediaStream (Some m) s)) by exact Htidy.
    destruct (@start_failed_spec err _ Htidy') as (Hst & Herr & _).
    rewrite andThen_fst, andThen_snd. cbn [assign fst snd app].
    repeat split; assumption.
Qed.

Lemma started_from_initial (p : StartPlatform) :
  start_failure p = None ->
  snd (startSession p initial) = ReturnsTrue.
Proof.
  destruct p as [[ic|e1] [oc|e2] gain [ms|e3] [c|e4]]; cbn [start_failure
    new_inputAudioContext new_outputAudioContext getUserMedia live_connect];
    try discriminate.
  intros _. reflexivity.
Qed.

(** When a platform call of [startSession] throws or rejects (an audio
    context cannot be created, the microphone is refused or missing, the
    call that requests the channel throws), the error is reported through
    [setError], [startSession] returns [false], everything acquired so far
    is released and the session object is back in its initial, idle state,
    from which a further [startSession] is not rejected and succeeds when
    the platform does. *)
Lemma thrown_start_returns_to_idle
        (p : StartPlatform) (s : LiveChatService) (err : thrown) :
  sessionPromise s = None ->
  tidy s ->
  start_failure p = Some err ->
  snd (startSession p s) = ReturnsFalse
  /\ fst (fst (startSession p s)) = initial
  /\ In (setError (Some ("Failed to start voice chat: "
                           ++ message_of err)%string))
        (snd (fst (startSession p s)))
  /\ releases_acquired p (snd (fst (startSession p s)))
  /\ (forall p', start_failure p' = None ->
                 snd (startSession p' (fst (fst (startSession p s))))
                 = ReturnsTrue).
Proof.
  intros Hsp Htidy Hfail.
  assert (Hretry : fst (fst (startSession p s)) = initial ->
                   forall p', start_failure p' = None ->
                   snd (startSession p' (fst (fst (startSession p s))))
                   = ReturnsTrue).
  { intros -> p'. apply started_from_initial. }
  destruct p as [inCtx outCtx gain mic conn].
  unfold releases_acquired.
  cbn [start_failure new_inputAudioContext new_outputAudioContext
       getUserMedia live_connect createGain] in Hfail |- *.
  revert Hretry.
  unfold startSession, startSession_begin.
  cbn [new_inputAudioContext new_outputAudioContext getUserMedia
       live_connect createGain].
  rewrite Hsp.
  set (entry := call (setError None) ;; assign (with_transcriptions "" "") ;;
                call (onTranscriptionUpdate "" "")).
  assert (Hentry : entry s = (with_transcriptions "" "" s,
                              [setError None; onTranscriptionUpdate "" ""]))
    by reflexivity.
  destruct inCtx as [ic|e1].
  2:{ (* the input context cannot be created *)
    injection Hfail as ->.
    destruct (@start_failed_spec err (with_transcriptions "" "" s) Htidy)
      as (Hst & Herr & _).
    pose proof (andThen_fst entry (start_failed err) s) as Hf.
    pose proof (andThen_snd entry (start_failed err) s) as Hs.
    rewrite Hentry in Hf, Hs. cbn [fst snd] in Hf, Hs.
    destruct ((entry ;; start_failed err) s) as [s1 e1].
    cbn [fst snd] in *. subst s1 e1. intros Hretry.
    repeat split; auto. right. right. exact Herr. }
  destruct outCtx as [oc|e2].
  2:{ (* the output context cannot be created *)
    injection Hfail as ->.
    set (s' := with_inputAudioContext (Some ic) (with_transcriptions "" "" s)).
    destruct (@start_failed_spec err s' Htidy) as (Hst & Herr & Hic & _).
    set (pre := entry ;; assign (with_inputAudioContext (Some ic))).
    assert (Hpre : pre s = (s', [setError None; onTranscriptionUpdate "" ""]))
      by reflexivity.
    pose proof (andThen_fst pre (start_failed err) s) as Hf.
    pose proof (andThen_snd pre (start_failed err) s) as Hs.
    rewrite Hpre in Hf, Hs. cbn [fst snd] in Hf, Hs.
    destruct ((pre ;; start_failed err) s) as [s1 e1].
    cbn [fst snd] in *. subst s1 e1. intros Hretry.
    repeat split; auto; right; right; auto. }
  set (s3 := with_outputNode (Some gain)
               (with_outputAudioContext (Some oc)
                  (with_inputAudioContext (Some ic)
                     (with_transcriptions "" "" s)))).
  assert (Hbegin : (entry ;; assign (with_inputAudioContext (Some ic)) ;;
                    assign (with_outputAudioContext (Some oc)) ;;
                    assign (with_outputNode (Some gain)) ;;
                    call (node_connect gain oc)) s
                   = (s3, [setError None; onTranscriptionUpdate "" "";
                           node_connect gain oc])) by reflexivity.
  rewrite Hbegin.
  assert (Htidy3 : tidy s3) by (intros [=]).
  unfold startSession_resume.
  destruct mic as [ms|e3].
  2:{ (* the microphone is refused or missing *)
    injection Hfail as ->.
    destruct (@start_failed_spec err s3 Htidy3)
      as (Hst & Herr & Hic & Hoc & _ & Hon).
    destruct (start_failed err s3) as [s1 e1].
    cbn [fst snd] in *. subst s1. intros Hretry.
    repeat split; auto; right; right; right; auto. }
  destruct conn as [c|e4]; [discriminate|].
  (* the channel cannot be opened *)
  injection Hfail as ->.
  set (s4 := with_mediaStream (Some ms) s3).
  assert (Htidy4 : tidy s4) by (intros [=]).
  destruct (@start_failed_spec err s4 Htidy4)
    as (Hst & Herr & Hic & Hoc & Hms & Hon).
  pose proof (andThen_fst (assign (with_mediaStream (Some ms)))
                          (start_failed err) s3) as Hf.
  pose proof (andThen_snd (assign (with_mediaStream (Some ms)))
                          (start_failed err) s3) as Hs.
  cbn [assign fst snd app] in Hf, Hs. fold s4 in Hf, Hs.
  destruct ((assign (with_mediaStream (Some ms)) ;; start_failed err) s3)
    as [s1 e1].
  cbn [fst snd] in *. subst s1 e1. intros Hretry.
  repeat split; auto; right; right; right; auto.
Qed.

(** The state and the effects of a [startSession] on which no call fails. *)
Lemma startSession_succeeds (p : StartPlatform) (s : LiveChatService)
      (ic oc ms c : handle) :
  sessionPromise s = None ->
  new_inputAudioContext p = Done ic -> new_outputAudioContext p = Done oc ->
  getUserMedia p = Done ms -> live_connect p = Done c ->
  startSession p s
  = (mkService (Some c) (Some ic) (Some oc) (scriptProcessor s)
               (mediaStreamSource s) (Some ms) (Some (createGain p))
               (sources s) (nextStartTime s) "" "",
     [setError None; onTranscriptionUpdate "" "";
      node_connect (createGain p) oc],
     ReturnsTrue).
Proof.
  intros Hsp Hic Hoc Hms Hc. destruct s. cbn in Hsp. subst.
  unfold startSession, startSession_begin, startSession_resume.
  rewrite Hic, Hoc, Hms, Hc. reflexivity.
Qed.

(** C9, as the specification states it, fails for a channel that fails to
    open: [connect] hands back its promise, which [startSession] stores
    without awaiting it, so that [startSession] has returned [true] and
    reported no error when the failure of the channel arrives, through
    [onerror]. *)
Lemma start_returns_true_before_the_channel_opens :
  let p := mkPlatform (Done 1%nat) (Done 2%nat) 3%nat (Done 4%nat)
                      (Done 5%nat) in
  let started := fst (fst (startSession p initial)) in
  snd (startSession p initial) = ReturnsTrue
  /\ snd (fst (startSession p initial))
     = [setError None; onTranscriptionUpdate "" ""; node_connect 3%nat 2%nat]
  /\ sessionPromise started = Some 5%nat
  /\ In (setError (Some "Voice chat encountered an error. Please try again."))
        (snd (onerror started))
  /\ fst (onerror started) = initial.
Proof. cbv zeta. repeat split; vm_compute; auto. Qed.

(** C9, amended.  When a platform call of [startSession] throws or rejects
    (an audio context cannot be created, the microphone is refused or
    missing, the call that requests the channel throws), the error is
    reported through [setError], [startSession] returns [false], everything
    acquired so far is released and the session object is back in its
    initial, idle state, from which a further [startSession] succeeds when
    the platform does.  When no call fails, [startSession] returns [true]
    with the promise of the channel stored; a channel that then fails to
    open is signalled to [onerror], which reports the error through
    [setError], closes the channel, releases everything that was acquired
    and leaves the session object in its initial state, from which a further
    [startSession] succeeds when the platform does. *)
Theorem failed_start_returns_to_idle
        (p : StartPlatform) (s : LiveChatService) :
  sessionPromise s = None ->
  tidy s ->
  (forall err, start_failure p = Some err ->
     snd (startSession p s) = ReturnsFalse
     /\ fst (fst (startSession p s)) = initial
     /\ In (setError (Some ("Failed to start voice chat: "
                              ++ message_of err)%string))
           (snd (fst (startSession p s)))
     /\ releases_acquired p (snd (fst (startSession p s)))
     /\ (forall p', start_failure p' = None ->
                    snd (startSession p' (fst (fst (startSession p s))))
                    = ReturnsTrue))
  /\ (start_failure p = None ->
      let started := fst (fst (startSession p s)) in
      snd (startSession p s) = ReturnsTrue
      /\ sessionPromise started = match live_connect p with
                                  | Done c => Some c
                                  | Failed _ => None
                                  end
      /\ fst (onerror started) = initial
      /\ In (setError
               (Some "Voice chat encountered an error. Please try again."))
            (snd (onerror started))
      /\ releases_acquired p (snd (onerror started))
      /\ (forall c, live_connect p = Done c ->
                    In (session_close c) (snd (onerror started)))
      /\ (forall p', start_failure p' = None ->
                     snd (startSession p' (fst (onerror started)))
                     = ReturnsTrue)).
Proof.
  intros Hsp Htidy. split.
  - intros err Hfail. now apply thrown_start_returns_to_idle.
  - intros Hok. cbv zeta.
    destruct p as [[ic|e1] [oc|e2] gain [ms|e3] [c|e4]];
      cbn [start_failure new_inputAudioContext new_outputAudioContext
           getUserMedia live_connect] in Hok; try discriminate.
    rewrite (@startSession_succeeds
               (mkPlatform (Done ic) (Done oc) gain (Done ms) (Done c))
               s ic oc ms c Hsp eq_refl eq_refl eq_refl eq_refl).
    cbn [fst snd createGain live_connect].
    set (started := mkService (Some c) (Some ic) (Some oc)
                              (scriptProcessor s) (mediaStreamSource s)
                              (Some ms) (Some gain) (sources s)
                              (nextStartTime s) "" "").
    assert (Htidy' : tidy started) by (intros [=]).
    assert (Hfst : fst (onerror started) = initial).
    { unfold onerror. rewrite !andThen_fst. cbn [call fst].
      now apply stopSession_tidy. }
    assert (Hsnd : snd (onerror started)
                   = console_error "Live session error:"
                       :: setError (Some "Voice chat encountered an error. Please try again.")
                       :: snd (stopSession started)).
    { unfold onerror. rewrite !andThen_snd, !andThen_fst. reflexivity. }
    destruct (stopSession_effects started)
      as (_ & Hic & Hoc & Hms & Hon & Hch & _).
    split; [reflexivity|]. split; [reflexivity|]. split; [exact Hfst|].
    rewrite Hsnd, Hfst.
    split; [right; now left|].
    split; [|split].
    + unfold releases_acquired.
      cbn [new_inputAudioContext new_outputAudioContext getUserMedia
           createGain].
      repeat split; right; right;
        [apply Hic | apply Hoc | apply Hon | apply Hms]; reflexivity.
    + intros c' [= <-]. right. right. now apply Hch.
    + intros p'. apply started_from_initial.
Qed.

Lemma failed_start_returns_to_idle_example :
  let p := mkPlatform (Done 1%nat) (Done 2%nat) 3%nat
                      (Failed (Error "Permission denied")) (Done 5%nat) in
  let q := mkPlatform (Done 1%nat) (Done 2%nat) 3%nat (Done 4%nat)
                      (Done 5%nat) in
  sessionPromise initial = None
  /\ tidy initial
  /\ start_failure p = Some (Error "Permission denied")
  /\ snd (startSession p initial) = ReturnsFalse
  /\ fst (fst (startSession p initial)) = initial
  /\ In (setError (Some "Failed to start voice chat: Permission denied"))
        (snd (fst (startSession p initial)))
  /\ start_failure q = None
  /\ snd (startSession q initial) = ReturnsTrue
  /\ fst (onerror (fst (fst (startSession q initial)))) = initial
  /\ releases_acquired q (snd (onerror (fst (fst (startSession q initial))))).
Proof.
  cbv zeta.
  destruct (@failed_start_returns_to_idle
              (mkPlatform (Done 1%nat) (Done 2%nat) 3%nat
                          (Failed (Error "Permission denied")) (Done 5%nat))
              initial eq_refl tidy_initial)
    as [Hthrown _].
  destruct (Hthrown (Error "Permission denied") eq_refl)
    as (Hfalse & Hidle & Herr & _).
  destruct (@failed_start_returns_to_idle
              (mkPlatform (Done 1%nat) (Done 2%nat) 3%nat (Done 4%nat)
                          (Done 5%nat))
              initial eq_refl tidy_initial)
    as [_ Hlate].
  destruct (Hlate eq_refl) as (Htrue & _ & Hidle' & _ & Hrel & _).
  split; [reflexivity|]. split; [exact tidy_initial|].
  split; [reflexivity|]. split; [exact Hfalse|]. split; [exact Hidle|].
  split; [exact Herr|]. split; [reflexivity|]. split; [exact Htrue|].
  split; [exact Hidle' | exact Hrel].
Defined.

(* ================================================================== *)
(** ** Further properties of the codec *)
(* ================================================================== *)

Lemma decode_of_encode (b : list byte) : decode (encode b) = Some b.
Proof.
  unfold decode, encode. rewrite atob_btoa, list_ascii_of_binary.
  f_equal. rewrite map_map.
  rewrite (map_ext _ (fun x => x)) by apply byte_of_ascii_of_byte.
  apply map_id.
Qed.

Section CodecFacts.

Local Open Scope Z_scope.

Lemma byte_to_N_small (b : byte) : (Byte.to_N b < 256)%N.
Proof. pose proof (Byte.to_N_bounded b). lia. Qed.

Lemma int16_of_bytes_range (lo hi : byte) :
  -32768 <= int16_of_bytes lo hi <= 32767.
Proof.
  unfold int16_of_bytes. cbv zeta.
  pose proof (byte_to_N_small lo). pose proof (byte_to_N_small hi).
  destruct (Z.ltb_spec (Z.of_N (Byte.to_N lo) + 256 * Z.of_N (Byte.to_N hi))
                       32768); lia.
Qed.

Lemma to_N_byte_of_Z (z : Z) : Z.of_N (Byte.to_N (byte_of_Z z)) = z mod 256.
Proof.
  unfold byte_of_Z.
  assert (Hlt : (Z.to_N (z mod 256) < 256)%N).
  { pose proof (Z.mod_pos_bound z 256 eq_refl). lia. }
  destruct (Byte.of_N (Z.to_N (z mod 256))) as [b|] eqn:Hb.
  - apply Byte.to_of_N in Hb.
    pose proof (Z.mod_pos_bound z 256 eq_refl). lia.
  - apply Byte.of_N_None_iff in Hb. lia.
Qed.

(** Two bytes written from a 16-bit value read back as that value. *)
Lemma int16_of_bytes_of_Z (z : Z) :
  -32768 <= z <= 32767 ->
  int16_of_bytes (byte_of_Z z) (byte_of_Z (z / 256)) = z.
Proof.
  intros Hz. unfold int16_of_bytes. rewrite !to_N_byte_of_Z. cbv zeta.
  destruct (Z.ltb_spec (z mod 256 + 256 * ((z / 256) mod 256)) 32768);
    Z.to_euclidean_division_equations; lia.
Qed.

Lemma ToInt16_range (x : float) : -32768 <= ToInt16 x <= 32767.
Proof.
  destruct x as [q| | |]; cbn [ToInt16]; try lia. cbv zeta.
  pose proof (Z.mod_pos_bound (truncate q) 65536 eq_refl).
  destruct (Z.ltb_spec (truncate q mod 65536) 32768); lia.
Qed.

Lemma Int16Array_of_Uint8Array (v : list Z) :
  Forall (fun z => -32768 <= z <= 32767) v ->
  Int16Array_of_buffer (Uint8Array_of_int16 v) = Some v.
Proof.
  induction 1 as [|z v Hz _ IH]; [reflexivity|].
  cbn [Uint8Array_of_int16 Int16Array_of_buffer].
  now rewrite IH, int16_of_bytes_of_Z.
Qed.

Lemma Uint8Array_of_int16_length (v : list Z) :
  List.length (Uint8Array_of_int16 v) = (2 * List.length v)%nat.
Proof. induction v as [|z v IH]; cbn; [reflexivity | rewrite IH; lia]. Qed.

(** The view of a buffer and the buffer, element by element. *)
Lemma Int16Array_of_buffer_spec (data : list byte) :
  forall v, Int16Array_of_buffer data = Some v ->
  List.length data = (2 * List.length v)%nat
  /\ Forall (fun z => -32768 <= z <= 32767) v
  /\ forall k, (k < List.length v)%nat ->
               List.nth k v 0
               = int16_of_bytes (List.nth (2 * k) data x00)
                                (List.nth (2 * k + 1) data x00).
Proof.
  assert (H : forall n (data : list byte), (List.length data <= n)%nat ->
              forall v, Int16Array_of_buffer data = Some v ->
              List.length data = (2 * List.length v)%nat
              /\ Forall (fun z => -32768 <= z <= 32767) v
              /\ forall k, (k < List.length v)%nat ->
                   List.nth k v 0
                   = int16_of_bytes (List.nth (2 * k) data x00)
                                    (List.nth (2 * k + 1) data x00)).
  { induction n as [|n IH]; intros d Hlen v Hv.
    - destruct d; [|cbn in Hlen; lia]. injection Hv as <-.
      repeat split; [constructor | intros k Hk; cbn in Hk; lia].
    - destruct d as [|lo [|hi rest]]; cbn [Int16Array_of_buffer] in Hv.
      + injection Hv as <-.
        repeat split; [constructor | intros k Hk; cbn in Hk; lia].
      + discriminate.
      + destruct (Int16Array_of_buffer rest) as [w|] eqn:Hw; [|discriminate].
        injection Hv as <-.
        destruct (IH rest ltac:(cbn in Hlen; lia) w Hw) as (Hl & Hr & Hn).
        split; [cbn [List.length]; lia|]. split.
        * constructor; [apply int16_of_bytes_range | exact Hr].
        * intros [|k] Hk; [reflexivity|].
          cbn [List.length] in Hk.
          replace (2 * S k)%nat with (S (S (2 * k))) by lia.
          cbn [List.nth Nat.add]. apply Hn. lia. }
  intros v. now apply (H (List.length data)).
Qed.

End CodecFacts.

Section CodecTheorems.

Local Open Scope Z_scope.

Lemma nth_map_seq (A : Type) (f : nat -> A) (n c : nat) (d : A) :
  (c < n)%nat -> List.nth c (List.map f (List.seq 0 n)) d = f c.
Proof.
  intros Hc. rewrite (nth_indep _ d (f 0%nat)) by now rewrite length_map, length_seq.
  rewrite map_nth, seq_nth by exact Hc. reflexivity.
Qed.

Lemma map_nth_seq (A B : Type) (g : A -> B) (v : list A) (d : A) :
  List.map (fun i => g (List.nth i v d)) (List.seq 0 (List.length v))
  = List.map g v.
Proof.
  induction v as [|a v IH]; [reflexivity|].
  cbn [List.length List.seq List.map List.nth]. f_equal.
  rewrite <- seq_shift, map_map. exact IH.
Qed.

Lemma sample_of_int16_range (z : Z) :
  -32768 <= z <= 32767 ->
  (-1 <= inject_Z z / 32768)%Q /\ (inject_Z z / 32768 < 1)%Q.
Proof.
  intros Hz. unfold Qle, Qlt, Qdiv, Qmult, Qinv, inject_Z. cbn. lia.
Qed.

Lemma Int16Array_of_buffer_even (data : list byte) :
  (Nat.odd (List.length data) = false ->
   exists v, Int16Array_of_buffer data = Some v)
  /\ (forall b, Nat.odd (List.length (b :: data)) = false ->
                exists v, Int16Array_of_buffer (b :: data) = Some v).
Proof.
  induction data as [|a data [IHa IHb]].
  - split; [intros _; now exists [] | discriminate].
  - split; [apply IHb|].
    intros b Hodd. cbn [List.length] in Hodd.
    rewrite Nat.odd_succ_succ in Hodd.
    destruct (IHa Hodd) as [v Hv]. cbn [Int16Array_of_buffer].
    rewrite Hv. eexists. reflexivity.
Qed.

Lemma decodeAudioData_outcome
      (data : list byte) (rate : Q) (numChannels : nat) :
  ((exists b, decodeAudioData data rate numChannels = Returns b)
   <-> (Nat.even (List.length data) = true
        /\ (1 <= numChannels <= maxChannels)%nat
        /\ (numChannels <= List.length data / 2)%nat
        /\ (minSampleRate <= rate)%Q /\ (rate <= maxSampleRate)%Q))
  /\ (forall b, decodeAudioData data rate numChannels = Returns b ->
        numberOfChannels b = numChannels
        /\ buffer_length b = (List.length data / 2 / numChannels)%nat
        /\ sampleRate b = rate
        /\ List.length (channelData b) = numChannels).
Proof.
  unfold decodeAudioData.
  destruct (Int16Array_of_buffer data) as [v|] eqn:Hv.
  - destruct (Int16Array_of_buffer_spec data Hv) as (Hlen & _ & _).
    assert (Hhalf : (List.length data / 2 = List.length v)%nat).
    { rewrite Hlen, Nat.mul_comm. now apply Nat.div_mul. }
    assert (Heven : Nat.even (List.length data) = true).
    { rewrite Hlen. now rewrite Nat.even_mul. }
    rewrite Hhalf.
    destruct (createBuffer_outcome numChannels
                                   (List.length v / numChannels) rate)
      as [(-> & Hc & Hf & Hlo & Hhi) | (-> & Hout)].
    + split.
      * split; [|intros _; eexists; reflexivity].
        intros _. repeat split; auto; try lia.
        destruct (Nat.lt_ge_cases (List.length v) numChannels) as [Hlt|];
          [|lia].
        apply Nat.div_small in Hlt. lia.
      * intros b [= <-]. cbn. now rewrite length_map, length_seq.
    + split; [|discriminate]. split; [intros [b Hb]; discriminate|].
      intros (_ & Hc & Hn & Hlo & Hhi). exfalso. apply Hout.
      repeat split; auto; try lia.
      apply Nat.div_le_lower_bound; lia.
  - split; [|discriminate]. split; [intros [b Hb]; discriminate|].
    intros (Heven & _).
    destruct (Nat.odd (List.length data)) eqn:Hodd.
    + rewrite <- Nat.negb_odd, Hodd in Heven. discriminate.
    + destruct (proj1 (Int16Array_of_buffer_even data) Hodd) as [v Hv'].
      congruence.
Qed.

(** When [decodeAudioData] returns and when it throws.  It returns exactly
    on a buffer of an even number of bytes that holds at least one frame,
    for a channel count and a rate within the nominal ranges of
    [createBuffer]; the buffer it returns has the channel count and the rate
    asked for and one frame per [numChannels] 16-bit values.  Otherwise it
    throws, a [RangeError] on an odd number of bytes and a
    [NotSupportedError] on an even one. *)
Theorem decodeAudioData_returns_iff
        (data : list byte) (rate : Q) (numChannels : nat) :
  ((exists b, decodeAudioData data rate numChannels = Returns b)
   <-> (Nat.even (List.length data) = true
        /\ (1 <= numChannels <= maxChannels)%nat
        /\ (numChannels <= List.length data / 2)%nat
        /\ (minSampleRate <= rate)%Q /\ (rate <= maxSampleRate)%Q))
  /\ (forall b, decodeAudioData data rate numChannels = Returns b ->
        numberOfChannels b = numChannels
        /\ buffer_length b = (List.length data / 2 / numChannels)%nat
        /\ sampleRate b = rate
        /\ List.length (channelData b) = numChannels)
  /\ (forall e, decodeAudioData data rate numChannels = Throws e ->
        e = if Nat.odd (List.length data) then RangeError
            else NotSupportedError).
Proof.
  destruct (decodeAudioData_outcome data rate numChannels) as [Hiff Hshape].
  split; [exact Hiff|]. split; [exact Hshape|].
  intros e. destruct (Nat.odd (List.length data)) eqn:Hodd.
  - rewrite (decodeAudioData_odd data rate numChannels Hodd). congruence.
  - unfold decodeAudioData.
    destruct (proj1 (Int16Array_of_buffer_even data) Hodd) as [v ->].
    destruct (createBuffer_outcome numChannels
                                   (List.length v / numChannels) rate)
      as [(-> & _) | (-> & _)]; [discriminate | congruence].
Qed.

(** The samples [decodeAudioData] returns: sample [i] of channel [c] is the
    16-bit little-endian value number [i * numChannels + c] of the buffer
    divided by 32768, a value from -1 (included) to 1 (excluded). *)
Theorem decodeAudioData_samples
        (data : list byte) (rate : Q) (numChannels : nat) (b : AudioBuffer)
        (c i : nat) :
  decodeAudioData data rate numChannels = Returns b ->
  (c < numChannels)%nat ->
  (i < buffer_length b)%nat ->
  let k := (i * numChannels + c)%nat in
  let sample := List.nth i (List.nth c (channelData b) []) 0%Q in
  sample
  = (inject_Z (int16_of_bytes (List.nth (2 * k) data x00)
                              (List.nth (2 * k + 1) data x00)) / 32768)%Q
  /\ (-1 <= sample)%Q /\ (sample < 1)%Q.
Proof.
  intros Hb Hc Hi. cbv zeta. revert Hb Hi.
  unfold decodeAudioData.
  destruct (Int16Array_of_buffer data) as [v|] eqn:Hv; [|discriminate].
  destruct (createBuffer_outcome numChannels (List.length v / numChannels)
                                 rate) as [(-> & _) | (-> & _)];
    [|discriminate].
  intros [= <-]. cbn [buffer_length channelData]. intros Hi.
  rewrite nth_map_seq by exact Hc. unfold fill_channel.
  rewrite nth_map_seq by exact Hi.
  destruct (Int16Array_of_buffer_spec data Hv) as (_ & Hrange & Hnth).
  assert (Hk : (i * numChannels + c < List.length v)%nat).
  { pose proof (Nat.Div0.mul_div_le (List.length v) numChannels). nia. }
  rewrite (Hnth _ Hk). split; [reflexivity|].
  apply sample_of_int16_range, int16_of_bytes_range.
Qed.

Lemma decodeAudioData_samples_example :
  let data := [x00; x80; xff; x7f; x00; x40; x00; xc0]%byte in
  exists b,
    decodeAudioData data 24000 2 = Returns b
    /\ buffer_length b = 2%nat
    /\ List.nth 1 (List.nth 0 (channelData b) []) 0%Q = (16384 # 32768)%Q
    /\ (-1 <= List.nth 1 (List.nth 0 (channelData b) []) 0%Q)%Q.
Proof.
  cbv zeta.
  destruct (decodeAudioData [x00; x80; xff; x7f; x00; x40; x00; xc0]%byte
                            24000 2) as [b|e] eqn:Hb;
    [|vm_compute in Hb; discriminate Hb].
  assert (Hlen : buffer_length b = 2%nat).
  { vm_compute in Hb. injection Hb as <-. reflexivity. }
  assert (Hc : (0 < 2)%nat) by lia.
  assert (Hi : (1 < buffer_length b)%nat) by (rewrite Hlen; lia).
  destruct (@decodeAudioData_samples _ 24000 2%nat b 0%nat 1%nat Hb Hc Hi)
    as (Hsample & Hlo & _).
  exists b. split; [reflexivity|]. split; [exact Hlen|].
  split; [rewrite Hsample; reflexivity | exact Hlo].
Defined.

(** What [createBlob] puts on the wire, whatever the samples (finite, out of
    range or not finite): two bytes per sample which, read back through
    [decode] and the 16-bit view, are the stored 16-bit values, each within
    the 16-bit range. *)
Theorem createBlob_wire_round_trip (data : list float) :
  let int16 := List.map int16_of_sample data in
  decode (blob_data (createBlob data)) = Some (Uint8Array_of_int16 int16)
  /\ List.length (Uint8Array_of_int16 int16) = (2 * List.length data)%nat
  /\ Int16Array_of_buffer (Uint8Array_of_int16 int16) = Some int16
  /\ Forall (fun z => -32768 <= z <= 32767) int16
  /\ mimeType (createBlob data) = "audio/pcm;rate=16000"%string.
Proof.
  cbv zeta.
  assert (Hrange : Forall (fun z => -32768 <= z <= 32767)
                          (List.map int16_of_sample data)).
  { apply Forall_forall. intros z Hz. apply in_map_iff in Hz.
    destruct Hz as (x & <- & _). apply ToInt16_range. }
  split; [apply decode_of_encode|].
  split; [now rewrite Uint8Array_of_int16_length, length_map|].
  split; [now apply Int16Array_of_Uint8Array|].
  split; [exact Hrange | reflexivity].
Qed.
End CodecTheorems.

Section QuantizationFacts.

Local Open Scope Z_scope.

(** Truncating [s * 32768] and dividing by 32768 again moves a sample by
    less than one step of 1/32768. *)
Lemma quantization_error (s : Q) :
  (Qabs (s - inject_Z (truncate (s * 32768)) / 32768) < 1 / 32768)%Q.
Proof.
  destruct s as [n d].
  unfold truncate, Qminus, Qplus, Qopp, Qdiv, Qmult, Qinv, inject_Z, Qabs, Qlt.
  cbn [Qnum Qden].
  rewrite ?Pos.mul_1_r, ?Z.mul_1_r, ?Z.mul_1_l, ?Pos.mul_1_l.
  rewrite ?Pos2Z.inj_mul.
  set (t := (n * 32768) ÷ Z.pos d).
  pose proof (Z.quot_rem' (n * 32768) (Z.pos d)) as Hqr.
  pose proof (Z.rem_bound_abs (n * 32768) (Z.pos d) ltac:(lia)) as Hr.
  fold t in Hqr.
  replace (n * 32768 + - t * Z.pos d) with (Z.rem (n * 32768) (Z.pos d))
    by (rewrite Hqr at 2; ring).
  lia.
Qed.

(** A decoded sample is stored again as the 16-bit value it came from. *)
Lemma int16_of_decoded_sample (z : Z) :
  -32768 <= z <= 32767 ->
  int16_of_sample (Finite (inject_Z z / 32768)) = z.
Proof.
  intros Hz.
  assert (Ht : truncate (inject_Z z / 32768 * 32768) = z).
  { unfold truncate, Qdiv, Qmult, Qinv, inject_Z. cbn [Qnum Qden].
    rewrite ?Pos.mul_1_r, ?Z.mul_1_r, ?Z.mul_1_l, ?Pos.mul_1_l.
    change (Z.pos 32768) with 32768. now rewrite Z.quot_mul by lia. }
  unfold int16_of_sample, times_32768.
  rewrite ToInt16_in_range; rewrite Ht; [reflexivity | exact Hz].
Qed.

Lemma byte_of_to_N (b : byte) : byte_of_Z (Z.of_N (Byte.to_N b)) = b.
Proof.
  unfold byte_of_Z. pose proof (byte_to_N_small b).
  rewrite Z.mod_small by lia. rewrite N2Z.id. now rewrite Byte.of_to_N.
Qed.

(** The bytes of a 16-bit value read from two bytes are those two bytes. *)
Lemma bytes_of_int16_of_bytes (lo hi : byte) :
  byte_of_Z (int16_of_bytes lo hi) = lo
  /\ byte_of_Z (int16_of_bytes lo hi / 256) = hi.
Proof.
  pose proof (byte_to_N_small lo). pose proof (byte_to_N_small hi).
  assert (Hlo : int16_of_bytes lo hi mod 256 = Z.of_N (Byte.to_N lo) mod 256).
  { unfold int16_of_bytes. cbv zeta.
    destruct (Z.ltb_spec (Z.of_N (Byte.to_N lo) + 256 * Z.of_N (Byte.to_N hi))
                         32768);
      Z.to_euclidean_division_equations; lia. }
  assert (Hhi : (int16_of_bytes lo hi / 256) mod 256
                = Z.of_N (Byte.to_N hi) mod 256).
  { unfold int16_of_bytes. cbv zeta.
    destruct (Z.ltb_spec (Z.of_N (Byte.to_N lo) + 256 * Z.of_N (Byte.to_N hi))
                         32768);
      Z.to_euclidean_division_equations; lia. }
  split.
  - rewrite <- (byte_of_to_N lo) at 2. unfold byte_of_Z. now rewrite Hlo.
  - rewrite <- (byte_of_to_N hi) at 2. unfold byte_of_Z. now rewrite Hhi.
Qed.

Lemma Uint8Array_of_Int16Array (data : list byte) :
  forall v, Int16Array_of_buffer data = Some v ->
            Uint8Array_of_int16 v = data.
Proof.
  assert (H : forall n (d : list byte), (List.length d <= n)%nat ->
              forall v, Int16Array_of_buffer d = Some v ->
                        Uint8Array_of_int16 v = d).
  { induction n as [|n IH]; intros d Hlen v Hv.
    - destruct d; [|cbn in Hlen; lia]. now injection Hv as <-.
    - destruct d as [|lo [|hi rest]]; cbn [Int16Array_of_buffer] in Hv.
      + now injection Hv as <-.
      + discriminate.
      + destruct (Int16Array_of_buffer rest) as [w|] eqn:Hw; [|discriminate].
        injection Hv as <-. cbn [Uint8Array_of_int16].
        destruct (bytes_of_int16_of_bytes lo hi) as [-> ->].
        f_equal. f_equal. apply IH; [cbn in Hlen; lia | exact Hw]. }
  intros v. now apply (H (List.length data)).
Qed.

Lemma fill_channel_mono (v : list Z) :
  fill_channel v 1 (List.length v) 0
  = List.map (fun z => (inject_Z z / 32768)%Q) v.
Proof.
  unfold fill_channel.
  rewrite <- (map_nth_seq (fun z => (inject_Z z / 32768)%Q) v 0).
  apply map_ext. intros i. now rewrite Nat.mul_1_r, Nat.add_0_r.
Qed.

End QuantizationFacts.

(** Encoding a microphone frame with [createBlob] and decoding the packet
    with [decode] and [decodeAudioData] (one channel) at a rate within the
    nominal range of [createBuffer] gives back a frame of the same length;
    each sample [s] with [-1 <= s < 1] comes back as
    [trunc(s * 32768) / 32768], less than 1/32768 away from [s].  At a rate
    outside that range the decoding throws a [NotSupportedError]. *)
Theorem createBlob_decodeAudioData_round_trip
        (data : list Q) (rate : Q) (bytes : list byte) :
  data <> [] ->
  Forall (fun s => -1 <= s /\ s < 1)%Q data ->
  decode (blob_data (createBlob (List.map Finite data))) = Some bytes ->
  ((minSampleRate <= rate)%Q -> (rate <= maxSampleRate)%Q ->
   decodeAudioData bytes rate 1
   = Returns (mkAudioBuffer
                1 (List.length data) rate
                [List.map (fun s => inject_Z (truncate (s * 32768)) / 32768)%Q
                          data]))
  /\ (~ ((minSampleRate <= rate)%Q /\ (rate <= maxSampleRate)%Q) ->
      decodeAudioData bytes rate 1 = Throws NotSupportedError)
  /\ Forall (fun s => Qabs (s - inject_Z (truncate (s * 32768)) / 32768)
                      < 1 / 32768)%Q data.
Proof.
  intros Hne Hdata Hbytes.
  assert (Hmap : List.map int16_of_sample (List.map Finite data)
                 = List.map (fun s => truncate (s * 32768)) data).
  { rewrite map_map. apply map_ext_in. intros s Hs.
    rewrite Forall_forall in Hdata. destruct (Hdata s Hs) as [Hlo Hhi].
    apply ToInt16_in_range, truncate_scaled_range; assumption. }
  assert (Hrange : Forall (fun z => (-32768 <= z <= 32767)%Z)
                          (List.map int16_of_sample (List.map Finite data))).
  { apply Forall_forall. intros z Hz. apply in_map_iff in Hz.
    destruct Hz as (x & <- & _). apply ToInt16_range. }
  unfold createBlob in Hbytes. cbn [blob_data] in Hbytes.
  rewrite decode_of_encode in Hbytes. injection Hbytes as <-.
  assert (Hframes : (1 <= List.length data)%nat).
  { destruct data; [congruence | cbn; lia]. }
  unfold decodeAudioData. rewrite (Int16Array_of_Uint8Array Hrange).
  rewrite Nat.div_1_r, !length_map.
  destruct (createBuffer_outcome 1 (List.length data) rate)
    as [(-> & _ & _ & Hlo & Hhi) | (-> & Hout)].
  - split; [|split].
    + intros _ _.
      cbn [numberOfChannels buffer_length sampleRate List.seq List.map].
      do 2 f_equal.
      replace (List.length data)
        with (List.length (List.map int16_of_sample (List.map Finite data)))
        at 1 by now rewrite !length_map.
      rewrite fill_channel_mono, Hmap, map_map. reflexivity.
    + intros Hnot. exfalso. apply Hnot. now split.
    + apply Forall_forall; intros s _; apply quantization_error.
  - split; [|split].
    + intros Hlo Hhi. exfalso. apply Hout. unfold maxChannels.
      repeat split; auto; lia.
    + reflexivity.
    + apply Forall_forall; intros s _; apply quantization_error.
Qed.

Lemma createBlob_decodeAudioData_round_trip_example :
  let data := [1 # 2; -1; -1 # 3; 3 # 32768]%Q in
  exists bytes,
    decode (blob_data (createBlob (List.map Finite data))) = Some bytes
    /\ decodeAudioData bytes 16000 1
       = Returns (mkAudioBuffer
                    1 4 16000
                    [[16384 # 32768; -32768 # 32768; -10922 # 32768;
                      3 # 32768]%Q])
    /\ decodeAudioData bytes 1000 1 = Throws NotSupportedError.
Proof.
  cbv zeta.
  assert (Hne : [1 # 2; -1; -1 # 3; 3 # 32768]%Q <> []) by discriminate.
  assert (Hdata : Forall (fun s => -1 <= s /\ s < 1)%Q
                         [1 # 2; -1; -1 # 3; 3 # 32768]%Q).
  { repeat constructor; unfold Qle, Qlt; simpl; lia. }
  destruct (decode (blob_data (createBlob
                                 (List.map Finite
                                           [1 # 2; -1; -1 # 3; 3 # 32768]%Q))))
    as [bytes|] eqn:Hbytes; [|vm_compute in Hbytes; discriminate Hbytes].
  destruct (@createBlob_decodeAudioData_round_trip
              _ 16000 bytes Hne Hdata Hbytes) as [Hdec _].
  destruct (@createBlob_decodeAudioData_round_trip
              _ 1000 bytes Hne Hdata Hbytes) as (_ & Hthrow & _).
  exists bytes. split; [reflexivity|]. split.
  - rewrite Hdec; [reflexivity | discriminate | discriminate].
  - apply Hthrow. intros [Hlo _]. now apply Hlo.
Defined.

(** [createBlob] does not clip: a sample from 1 (included) to 2 (excluded)
    wraps around to the negative value [trunc(s * 32768) - 65536], and a
    sample that is not finite is stored as 0. *)
Theorem createBlob_wraps_above_one (s : Q) :
  (1 <= s)%Q -> (s < 2)%Q ->
  int16_of_sample (Finite s) = (truncate (s * 32768) - 65536)%Z
  /\ (-32768 <= int16_of_sample (Finite s) < 0)%Z
  /\ int16_of_sample NaN = 0%Z
  /\ int16_of_sample Infinity = 0%Z
  /\ int16_of_sample NegInfinity = 0%Z.
Proof.
  intros Hlo Hhi.
  assert (Ht : (32768 <= truncate (s * 32768) < 65536)%Z).
  { destruct s as [n d]. unfold Qle, Qlt, truncate in *. cbn in *.
    rewrite Pos.mul_1_r.
    split.
    - apply Z.quot_le_lower_bound; lia.
    - apply Z.quot_lt_upper_bound; lia. }
  unfold int16_of_sample, times_32768, ToInt16. cbv zeta.
  rewrite (Z.mod_small _ 65536) by lia.
  destruct (Z.ltb_spec (truncate (s * 32768)) 32768); [lia|].
  repeat split; lia.
Qed.

Lemma createBlob_wraps_above_one_example :
  (1 <= 1)%Q /\ (1 < 2)%Q /\ int16_of_sample (Finite 1) = (-32768)%Z.
Proof.
  assert (Hlo : (1 <= 1)%Q) by (unfold Qle; simpl; lia).
  assert (Hhi : (1 < 2)%Q) by reflexivity.
  destruct (@createBlob_wraps_above_one 1 Hlo Hhi) as (Hv & _).
  split; [exact Hlo|]. split; [exact Hhi|]. rewrite Hv. reflexivity.
Defined.

(** Decoding a packet of one channel with [decodeAudioData] and encoding the
    samples again with [createBlob] gives the bytes of the packet back,
    base64-encoded. *)
Theorem decodeAudioData_createBlob_round_trip
        (data : list byte) (rate : Q) (b : AudioBuffer) :
  decodeAudioData data rate 1 = Returns b ->
  createBlob (List.map Finite (List.nth 0 (channelData b) []))
  = mkBlob (encode data) "audio/pcm;rate=16000".
Proof.
  unfold decodeAudioData.
  destruct (Int16Array_of_buffer data) as [v|] eqn:Hv; [|discriminate].
  rewrite Nat.div_1_r.
  destruct (createBuffer_outcome 1 (List.length v) rate)
    as [(-> & _) | (-> & _)]; [|discriminate].
  intros [= <-]. cbn [channelData List.seq List.map List.nth].
  rewrite fill_channel_mono.
  unfold createBlob. f_equal. f_equal.
  destruct (Int16Array_of_buffer_spec data Hv) as (_ & Hrange & _).
  rewrite !map_map.
  rewrite (map_ext_in _ (fun z => z)).
  - rewrite map_id. now apply Uint8Array_of_Int16Array.
  - intros z Hz. rewrite Forall_forall in Hrange.
    now apply int16_of_decoded_sample, Hrange.
Qed.

Lemma decodeAudioData_createBlob_round_trip_example :
  exists b,
    decodeAudioData [x01; x00; xff; x7f; x00; x80]%byte 24000 1 = Returns b
    /\ blob_data (createBlob (List.map Finite (List.nth 0 (channelData b) [])))
       = "AQD/fwCA"%string.
Proof.
  destruct (decodeAudioData [x01; x00; xff; x7f; x00; x80]%byte 24000 1)
    as [b|e] eqn:Hb; [|vm_compute in Hb; discriminate Hb].
  exists b. split; [reflexivity|].
  rewrite (@decodeAudioData_createBlob_round_trip _ 24000 b Hb).
  reflexivity.
Defined.

(* ================================================================== *)
(** ** Further properties of the session *)
(* ================================================================== *)

Lemma decode_packet_outcome (base64 : string) :
  ((exists b, decode_packet base64 = Returns b)
   <-> (exists data, decode base64 = Some data
                     /\ Nat.even (List.length data) = true /\ data <> []))
  /\ (forall b, decode_packet base64 = Returns b ->
        exists data, decode base64 = Some data
                     /\ buffer_length b = (List.length data / 2)%nat
                     /\ duration b
                        = (inject_Z (Z.of_nat (List.length data / 2))
                           / 24000)%Q).
Proof.
  unfold decode_packet.
  destruct (decode base64) as [data|] eqn:Hdata.
  - destruct (decodeAudioData_outcome data 24000 1) as [Hiff Hshape].
    split.
    + split.
      * intros Hb. apply Hiff in Hb. destruct Hb as (Heven & _ & Hlen & _).
        exists data. repeat split; auto.
        intros ->. cbn in Hlen. lia.
      * intros (d & [= <-] & Heven & Hne). apply Hiff.
        split; [exact Heven|]. split; [unfold maxChannels; lia|].
        split; [|split; discriminate].
        destruct data as [|x [|y data]]; [congruence | discriminate|].
        cbn [List.length].
        change (S (S (List.length data))) with (2 + List.length data)%nat.
        rewrite <- (Nat.mul_1_l 2) at 1.
        rewrite Nat.div_add_l by lia. lia.
    + intros b Hb. destruct (Hshape b Hb) as (_ & Hlen & Hrate & _).
      exists data. rewrite Nat.div_1_r in Hlen.
      split; [reflexivity|]. split; [exact Hlen|].
      unfold duration. now rewrite Hlen, Hrate.
  - split; [|discriminate].
    split; [intros [b Hb]; discriminate | intros (d & Hd & _); discriminate].
Qed.

(** Which packets are played.  With the output context and node held, a
    message schedules a unit exactly when its audio string is valid base64
    for a non-empty, even number of bytes; the unit lasts one second per
    48000 bytes.  Any other non-empty audio string is reported through
    [setError] and skipped. *)
Theorem packet_is_played_iff
        (m : LiveServerMessage) (t : Q) (n : handle) (s : LiveChatService)
        (base64 : string) :
  inlineData m = Some base64 ->
  outputAudioContext s <> None ->
  outputNode s <> None ->
  (scheduled (snd (play_audio m t n s)) <> []
   <-> (exists data, decode base64 = Some data
                     /\ Nat.even (List.length data) = true /\ data <> []))
  /\ (forall src, In src (scheduled (snd (play_audio m t n s))) ->
        exists data, decode base64 = Some data
                     /\ buffer_duration src
                        = (inject_Z (Z.of_nat (List.length data / 2))
                           / 24000)%Q)
  /\ (base64 <> "" -> scheduled (snd (play_audio m t n s)) = [] ->
      snd (play_audio m t n s)
      = [console_error "Error decoding or playing audio:";
         setError (Some "Failed to play audio response.")]).
Proof.
  intros Hdata Hctx Hnode.
  destruct (decode_packet_outcome base64) as [Hiff Hshape].
  unfold play_audio. rewrite Hdata.
  destruct (outputAudioContext s) as [ctx|]; [|congruence].
  destruct (outputNode s) as [out|]; [|congruence].
  destruct (String.eqb_spec base64 "") as [-> | Hne].
  - cbn [snd scheduled]. split; [|split].
    + split; [congruence|].
      intros (d & Hd & _ & Hnil). vm_compute in Hd. congruence.
    + intros src [].
    + congruence.
  - destruct (decode_packet base64) as [b|e] eqn:Hb; cbn [snd scheduled].
    + split; [|split].
      * split; [intros _; apply Hiff; now exists b | discriminate].
      * intros src [<- | []]. cbn [buffer_duration].
        destruct (Hshape b eq_refl) as (d & Hd & _ & Hdur).
        exists d. now split.
      * discriminate.
    + split; [|split].
      * split; [congruence|].
        intros Hd. apply Hiff in Hd. destruct Hd as [b Hb']. discriminate.
      * intros src [].
      * reflexivity.
Qed.

Lemma packet_is_played_iff_example :
  scheduled (snd (play_audio (audio_message "AAAAAA==") 3 7%nat
                             active_session))
  = [mkSource 7%nat 3 (2 # 24000)]
  /\ snd (play_audio (audio_message "A") 3 7%nat active_session)
     = [console_error "Error decoding or playing audio:";
        setError (Some "Failed to play audio response.")].
Proof.
  destruct (@packet_is_played_iff (audio_message "A") 3 7%nat active_session
              "A" eq_refl) as (_ & _ & Hskip); try discriminate.
  split; [vm_compute; reflexivity|].
  apply Hskip; [discriminate | vm_compute; reflexivity].
Defined.

Lemma string_app_assoc (a b c : string) :
  ((a ++ b) ++ c)%string = (a ++ (b ++ c))%string.
Proof. induction a as [|x a IH]; cbn; [reflexivity | now rewrite IH]. Qed.

(** What one event that leaves the turn open does to the transcript. *)
Lemma keeps_turn_step (ev : Event) (s : LiveChatService) :
  keeps_turn ev ->
  currentInputTranscription (fst (handle_event ev s))
  = (currentInputTranscription s ++ appended_input [ev])%string
  /\ currentOutputTranscription (fst (handle_event ev s))
     = (currentOutputTranscription s ++ appended_output [ev])%string
  /\ List.length (updates (snd (handle_event ev s))) = messages_in [ev].
Proof.
  destruct ev as [ | | src proc | data | m t n | node | | | ];
    cbn [keeps_turn]; try contradiction; intros Hev;
    cbn [handle_event appended_input appended_output messages_in];
    rewrite ?string_app_empty.
  - unfold onopen. destruct (inputAudioContext s), (mediaStream s);
      cbn; now rewrite ?string_app_empty.
  - unfold onaudioprocess. destruct (sessionPromise s); cbn; auto.
  - destruct (onmessage_transcript m t n s) as (Hu & Hi & Ho).
    rewrite Hev in Hi, Ho. rewrite Hu, Hi, Ho. auto.
  - cbn. auto.
Qed.

(** Until the turn completes nothing of the transcript is dropped: over a
    run of events that neither complete the turn nor start or end the
    session, each buffer ends as what it held followed by every text the
    messages carried, in order, and the observer is called exactly once per
    message. *)
Theorem transcript_accumulates (evs : list Event) (s : LiveChatService) :
  Forall keeps_turn evs ->
  currentInputTranscription (fst (run evs s))
  = (currentInputTranscription s ++ appended_input evs)%string
  /\ currentOutputTranscription (fst (run evs s))
     = (currentOutputTranscription s ++ appended_output evs)%string
  /\ List.length (updates (snd (run evs s))) = messages_in evs.
Proof.
  revert s. induction evs as [|ev evs IH]; intros s Hall.
  - cbn. now rewrite !string_app_empty.
  - inversion Hall as [|? ? Hev Hrest]; subst.
    cbn [run]. rewrite andThen_fst, andThen_snd, updates_app, length_app.
    destruct (keeps_turn_step ev s Hev) as (Hi & Ho & Hn).
    destruct (IH (fst (handle_event ev s)) Hrest) as (Hi' & Ho' & Hn').
    rewrite Hi', Ho', Hn', Hi, Ho, Hn, !string_app_assoc.
    assert (Happ : (appended_input [ev] ++ appended_input evs)%string
                   = appended_input (ev :: evs)
                   /\ (appended_output [ev] ++ appended_output evs)%string
                      = appended_output (ev :: evs)
                   /\ (messages_in [ev] + messages_in evs)%nat
                      = messages_in (ev :: evs)).
    { destruct ev; cbn; rewrite ?string_app_empty, ?string_app_assoc; auto. }
    destruct Happ as (-> & -> & ->). auto.
Qed.

Lemma transcript_accumulates_example :
  let evs := [channel_message (input_message "good ") 0 1%nat;
              channel_open 8%nat 9%nat;
              channel_message (mkMessage None
                                 (Some (mkTranscription (Some "hello")))
                                 (Some (mkTranscription (Some "morning")))
                                 false false) 0 2%nat] in
  Forall keeps_turn evs
  /\ currentInputTranscription (fst (run evs active_session))
     = "good morning"
  /\ currentOutputTranscription (fst (run evs active_session)) = "hello"
  /\ List.length (updates (snd (run evs active_session))) = 2%nat.
Proof.
  cbv zeta.
  assert (Hall : Forall keeps_turn
                   [channel_message (input_message "good ") 0 1%nat;
                    channel_open 8%nat 9%nat;
                    channel_message (mkMessage None
                                       (Some (mkTranscription (Some "hello")))
                                       (Some (mkTranscription (Some "morning")))
                                       false false) 0 2%nat]).
  { repeat constructor. }
  destruct (@transcript_accumulates _ active_session Hall) as (Hi & Ho & Hn).
  split; [exact Hall|]. split; [exact Hi|]. split; [exact Ho | exact Hn].
Defined.

(** What an event other than a message does to the playback set and to the
    schedule: it keeps them, empties the set, removes the sources of one
    node, or rewinds the schedule to 0; it schedules nothing. *)
Lemma other_event_step (ev : Event) (s : LiveChatService) :
  (forall m t n, ev <> channel_message m t n) ->
  (sources (fst (handle_event ev s)) = sources s
   \/ sources (fst (handle_event ev s)) = []
   \/ exists n, sources (fst (handle_event ev s))
                = sources_delete n (sources s))
  /\ (nextStartTime (fst (handle_event ev s)) = nextStartTime s
      \/ nextStartTime (fst (handle_event ev s)) = 0%Q)
  /\ scheduled (snd (handle_event ev s)) = [].
Proof.
  assert (Hstop : forall s0 s1 : LiveChatService,
             outputAudioContext s1 = outputAudioContext s0 \/
             outputAudioContext s1 <> None ->
             sources s1 = sources s0 -> nextStartTime s1 = nextStartTime s0 ->
             (sources (fst (stopSession s1)) = sources s0
              \/ sources (fst (stopSession s1)) = []
              \/ exists n, sources (fst (stopSession s1))
                           = sources_delete n (sources s0))
             /\ (nextStartTime (fst (stopSession s1)) = nextStartTime s0
                 \/ nextStartTime (fst (stopSession s1)) = 0%Q)).
  { intros s0 s1 _ Hs Hn. rewrite stopSession_state. cbn.
    destruct (outputAudioContext s1); rewrite <- ?Hs, <- ?Hn; auto. }
  assert (Hsched : forall s1, scheduled (snd (stopSessionCleanup s1)) = []).
  { intros [sp ic oc pr ms m on src nx ci co].
    unfold stopSessionCleanup, andThen, release_scriptProcessor,
      release_mediaStreamSource, release_mediaStream,
      release_inputAudioContext, release_outputAudioContext,
      release_outputNode, final_update.
    destruct ic, oc, pr, ms, m, on; cbn;
      rewrite ?scheduled_app, ?scheduled_stop_all; reflexivity. }
  assert (Hsched' : forall s1, scheduled (snd (stopSession s1)) = []).
  { intros s1. unfold stopSession. rewrite andThen_snd, scheduled_app, Hsched.
    unfold close_channel. now destruct (sessionPromise s1). }
  assert (Hfail : forall err s1, scheduled (snd (start_failed err s1)) = []).
  { intros err s1. rewrite start_failed_effects. cbn. apply Hsched'. }
  intros Hev.
  destruct ev as [inCtx outCtx gain | stream session | src proc | data
                  | m t n | node | | | ]; cbn [handle_event].
  - unfold startSession_begin.
    destruct (sessionPromise s); [cbn; auto|].
    destruct inCtx as [ic|err]; [destruct outCtx as [oc|err]|]; cbn [fst].
    + rewrite !andThen_fst, !andThen_snd. cbn. auto.
    + rewrite andThen_fst, andThen_snd, start_failed_state, scheduled_app,
        Hfail.
      rewrite !andThen_fst, !andThen_snd. cbn [call assign fst snd app scheduled].
      split; [|split; [|reflexivity]]; apply Hstop; auto.
    + rewrite andThen_fst, andThen_snd, start_failed_state, scheduled_app,
        Hfail.
      rewrite !andThen_fst, !andThen_snd. cbn [call assign fst snd app scheduled].
      split; [|split; [|reflexivity]]; apply Hstop; auto.
  - unfold startSession_resume.
    destruct stream as [ms|err]; [destruct session as [p|err]|]; cbn [fst].
    + rewrite !andThen_fst, !andThen_snd. cbn. auto.
    + rewrite andThen_fst, andThen_snd, start_failed_state, scheduled_app,
        Hfail. cbn [assign fst snd app scheduled].
      split; [|split; [|reflexivity]]; apply Hstop; auto.
    + rewrite start_failed_state, Hfail.
      split; [|split; [|reflexivity]]; apply Hstop; auto.
  - unfold onopen. destruct (inputAudioContext s), (mediaStream s); cbn; auto.
  - unfold onaudioprocess. destruct (sessionPromise s); cbn; auto.
  - exfalso. exact (Hev m t n eq_refl).
  - cbn. split; [right; right; now exists node | auto].
  - unfold onerror. rewrite !andThen_fst, !andThen_snd, !scheduled_app, Hsched'.
    cbn [call fst snd scheduled app].
    split; [|split; [|reflexivity]]; apply Hstop; auto.
  - unfold onclose. rewrite andThen_fst, andThen_snd, scheduled_app, Hsched.
    cbn [call fst snd scheduled app].
    destruct (stopSessionCleanup_spec s) as [-> _]. cbn.
    destruct (outputAudioContext s); auto.
  - rewrite Hsched'. split; [|split; [|reflexivity]]; apply Hstop; auto.
Qed.

(** What a message does to the playback set and to the schedule. *)
Lemma message_step (m : LiveServerMessage) (t : Q) (n : handle)
      (s : LiveChatService) :
  let r := onmessage m t n s in
  (sources (fst r) = [] /\ nextStartTime (fst r) = 0%Q
   \/ sources (fst r) = sources (fst (play_audio m t n s))
      /\ nextStartTime (fst r) = nextStartTime (fst (play_audio m t n s)))
  /\ scheduled (snd r) = scheduled (snd (play_audio m t n s)).
Proof.
  cbv zeta.
  destruct (onmessage_parts m t n s) as [Hfst Hsnd]. cbv zeta in Hfst, Hsnd.
  pose proof (transcription_part m (fst (play_audio m t n s))) as Ht.
  cbv zeta in Ht. destruct Ht as (He & _ & _ & _ & Hsrc & Hnext).
  rewrite Hfst, Hsnd, !scheduled_app, He. unfold interrupt.
  destruct (interrupted m); cbn [fst snd sources nextStartTime
                                  with_nextStartTime with_sources scheduled app].
  - rewrite scheduled_stop_all, app_nil_r.
    split; [left; split; [apply delete_each_empty | reflexivity] | reflexivity].
  - rewrite app_nil_r. split; [right; now split | reflexivity].
Qed.

Section DistinctNodes.

Lemma sources_add_distinct (src : BufferSource) (l : list BufferSource) :
  NoDup (List.map source_node l) -> NoDup (List.map source_node (sources_add src l)).
Proof.
  intros Hl. unfold sources_add.
  destruct (List.existsb (has_node (source_node src)) l) eqn:Hex; [exact Hl|].
  rewrite map_app. cbn [List.map].
  apply NoDup_app; [exact Hl | repeat constructor; intros [] |].
  intros x Hx [<- | []].
  apply in_map_iff in Hx. destruct Hx as (y & Hy & Hin).
  assert (Htrue : List.existsb (has_node (source_node src)) l = true).
  { apply existsb_exists. exists y. split; [exact Hin|].
    unfold has_node. rewrite Hy. apply Nat.eqb_refl. }
  congruence.
Qed.

Lemma sources_delete_distinct (n : handle) (l : list BufferSource) :
  NoDup (List.map source_node l) -> NoDup (List.map source_node (sources_delete n l)).
Proof.
  unfold sources_delete.
  induction l as [|x l IH]; cbn [List.map List.filter]; intros Hl;
    [constructor|].
  inversion Hl as [|? ? Hx Hl']; subst.
  destruct (negb (has_node n x)); [|now apply IH].
  cbn [List.map]. constructor; [|now apply IH].
  intros Hin. apply Hx. apply in_map_iff in Hin.
  destruct Hin as (y & Hy & Hin). apply filter_In in Hin.
  apply in_map_iff. exists y. tauto.
Qed.

Lemma handle_event_distinct (ev : Event) (s : LiveChatService) :
  NoDup (List.map source_node (sources s)) ->
  NoDup (List.map source_node (sources (fst (handle_event ev s)))).
Proof.
  intros Hs.
  assert (Hmsg : forall m t n, NoDup (List.map source_node (sources (fst (onmessage m t n s))))).
  { intros m t n.
    destruct (message_step m t n s) as [[[-> _] | [-> _]] _]; [constructor|].
    destruct (play_audio_cases m t n s) as [(_ & -> & _) | H]; [exact Hs|].
    destruct H as (b & base64 & _ & _ & _ & -> & _).
    now apply sources_add_distinct. }
  destruct ev as [inCtx outCtx gain | stream session | src proc | data
                  | m t n | node | | | ]; try apply Hmsg;
    match goal with
    | |- NoDup (List.map source_node (sources (fst (handle_event ?e s)))) =>
        destruct (@other_event_step e s ltac:(intros; discriminate))
          as [[-> | [-> | [k ->]]] _];
          [exact Hs | constructor | now apply sources_delete_distinct]
    end.
Qed.

(** The playback set never holds two sources for one node, and when a
    source ends the set loses exactly the source of that node. *)
Theorem sources_are_distinct (s : LiveChatService) (n : handle) :
  reachable s ->
  NoDup (List.map source_node (sources s))
  /\ (forall src, In src (sources (fst (onended n s)))
                  <-> In src (sources s) /\ source_node src <> n)
  /\ (List.length (sources s) - 1
      <= List.length (sources (fst (onended n s))))%nat.
Proof.
  intros Hreach.
  assert (Hnodup : NoDup (List.map source_node (sources s))).
  { induction Hreach as [|s ev _ IH]; [constructor|].
    now apply handle_event_distinct. }
  split; [exact Hnodup|].
  assert (Hin : forall src, In src (sources (fst (onended n s)))
                            <-> In src (sources s) /\ source_node src <> n).
  { intros src. cbn. unfold sources_delete. rewrite filter_In.
    unfold has_node. rewrite Bool.negb_true_iff, Nat.eqb_neq. tauto. }
  split; [exact Hin|].
  cbn. unfold sources_delete. clear Hin Hreach.
  induction (sources s) as [|x l IH]; [cbn; lia|].
  cbn [List.map] in Hnodup.
  inversion Hnodup as [|? ? Hx Hl]; subst.
  cbn [List.filter List.length].
  destruct (Nat.eqb_spec (source_node x) n) as [Heq | Hne].
  - unfold has_node at 1. rewrite (proj2 (Nat.eqb_eq _ _) Heq). cbn [negb].
    assert (Hkeep : List.filter (fun src => negb (has_node n src)) l = l).
    { apply forallb_filter_id. apply forallb_forall. intros y Hy.
      unfold has_node. apply Bool.negb_true_iff, Nat.eqb_neq.
      intros Hyn. apply Hx. apply in_map_iff. exists y. split; congruence. }
    rewrite Hkeep. lia.
  - unfold has_node at 1. rewrite (proj2 (Nat.eqb_neq _ _) Hne).
    cbn [negb List.length]. specialize (IH Hl). lia.
Qed.

Lemma sources_are_distinct_example :
  let s := fst (run [start_called (Done 1%nat) (Done 2%nat) 3%nat;
                     microphone_settled (Done 4%nat) (Done 5%nat);
                     channel_message (audio_message (silence 3)) 4 10%nat;
                     channel_message (audio_message (silence 3)) 4 11%nat]
                    initial) in
  reachable s
  /\ NoDup (List.map source_node (sources s))
  /\ List.map source_node (sources s) = [10%nat; 11%nat]
  /\ List.map source_node (sources (fst (onended 10%nat s))) = [11%nat].
Proof.
  cbv zeta.
  set (s := fst (run [start_called (Done 1%nat) (Done 2%nat) 3%nat;
                      microphone_settled (Done 4%nat) (Done 5%nat);
                      channel_message (audio_message (silence 3)) 4 10%nat;
                      channel_message (audio_message (silence 3)) 4 11%nat]
                     initial)).
  assert (Hreach : reachable s)
    by (apply reachable_run; apply reachable_initial).
  destruct (@sources_are_distinct s 10%nat Hreach) as (Hnodup & _ & _).
  split; [exact Hreach|]. split; [exact Hnodup|].
  split; vm_compute; reflexivity.
Defined.

End DistinctNodes.





Section PendingStart.

Lemma tracks_stopped_app (e1 e2 : list Effect) :
  tracks_stopped (e1 ++ e2) = tracks_stopped e1 ++ tracks_stopped e2.
Proof.
  induction e1 as [|e r IH]; [reflexivity|].
  destruct e; cbn [app tracks_stopped]; rewrite IH; reflexivity.
Qed.

(** A message on a session without output context: the transcript update
    and nothing else. *)
Lemma onmessage_without_context (m : LiveServerMessage) (t : Q) (n : handle)
      (s : LiveChatService) :
  outputAudioContext s = None -> sources s = [] ->
  snd (onmessage m t n s)
  = [onTranscriptionUpdate
       (currentInputTranscription s ++ appended (inputTranscription m))%string
       (currentOutputTranscription s
        ++ appended (outputTranscription m))%string]
  /\ sources (fst (onmessage m t n s)) = []
  /\ same_handles s (fst (onmessage m t n s)).
Proof.
  intros Hoc Hsrc.
  assert (Hplay : play_audio m t n s = (s, [])).
  { unfold play_audio. rewrite Hoc. now destruct (inlineData m). }
  destruct (onmessage_parts m t n s) as [Hfst Hsnd]. cbv zeta in Hfst, Hsnd.
  rewrite Hplay in Hfst, Hsnd. cbn [fst snd app] in Hfst, Hsnd.
  pose proof (transcription_part m s) as Ht. cbv zeta in Ht.
  destruct Ht as (He & _ & _ & _ & Hsrc' & _).
  split; [|split; [now apply no_audio_without_context
                  | apply onmessage_same_handles]].
  rewrite Hsnd, He. unfold interrupt.
  destruct (interrupted m); cbn [snd]; [|reflexivity].
  now rewrite Hsrc', Hsrc.
Qed.

(** What an event that goes on does to a session that holds a channel and
    a microphone but no audio context. *)
Lemma goes_on_without_context (ev : Event) (s : LiveChatService) :
  goes_on ev ->
  sessionPromise s <> None -> inputAudioContext s = None ->
  outputAudioContext s = None -> sources s = [] ->
  same_handles s (fst (handle_event ev s))
  /\ sources (fst (handle_event ev s)) = []
  /\ scheduled (snd (handle_event ev s)) = []
  /\ tracks_stopped (snd (handle_event ev s)) = [].
Proof.
  intros Hev Hsp Hic Hoc Hsrc.
  assert (Hsame : same_handles s s) by (unfold same_handles; tauto).
  destruct ev as [inCtx outCtx gain | stream session | src proc | data
                  | m t n | node | | | ];
    cbn [goes_on] in Hev; try contradiction; cbn [handle_event].
  - unfold startSession_begin.
    destruct (sessionPromise s); [|congruence]. cbn. auto.
  - unfold onopen. rewrite Hic. cbn. auto.
  - unfold onaudioprocess. destruct (sessionPromise s); cbn; auto.
  - destruct (@onmessage_without_context m t n s Hoc Hsrc)
      as (-> & Hs & Hh).
    cbn. auto.
  - unfold onended, assign. cbn. rewrite Hsrc. cbn. auto.
Qed.

Lemma run_without_context (evs : list Event) (s : LiveChatService) :
  Forall goes_on evs ->
  sessionPromise s <> None -> inputAudioContext s = None ->
  outputAudioContext s = None -> sources s = [] ->
  same_handles s (fst (run evs s))
  /\ sources (fst (run evs s)) = []
  /\ scheduled (snd (run evs s)) = []
  /\ tracks_stopped (snd (run evs s)) = [].
Proof.
  revert s. induction evs as [|ev evs IH]; intros s Hall Hsp Hic Hoc Hsrc.
  - cbn. unfold same_handles. tauto.
  - inversion Hall as [|? ? Hev Hrest]; subst.
    destruct (@goes_on_without_context ev s Hev Hsp Hic Hoc Hsrc)
      as (Hh & Hs & Hsch & Htr).
    pose proof Hh as (H1 & H2 & H3 & H4 & H5 & H6 & H7).
    destruct (IH (fst (handle_event ev s)) Hrest) as (Hh' & Hs' & Hsch' & Htr');
      try congruence.
    cbn [run]. rewrite andThen_fst, andThen_snd, scheduled_app,
      tracks_stopped_app, Hsch, Hsch', Htr, Htr'.
    repeat split; auto; unfold same_handles in Hh'; intuition congruence.
Qed.

(** Each teardown stops the tracks of the stream the session holds. *)
Lemma teardown_stops_tracks (ev : Event) (s : LiveChatService)
      (stream : handle) :
  teardown ev -> mediaStream s = Some stream ->
  In (tracks_stop stream) (snd (handle_event ev s))
  /\ mediaStream (fst (handle_event ev s)) = None.
Proof.
  intros Hev Hms.
  destruct (stopSession_effects s) as (_ & _ & _ & Hstop & _).
  destruct (stopSessionCleanup_spec s) as (Hst & _ & _ & _ & Hclean & _).
  cbv zeta in Hst, Hclean.
  destruct Hev as [-> | [-> | ->]]; cbn [handle_event].
  - split; [now apply Hstop | now rewrite stopSession_state].
  - unfold onerror. rewrite !andThen_snd, !andThen_fst. cbn [call fst snd].
    split; [|now rewrite stopSession_state].
    right. right. now apply Hstop.
  - unfold onclose. rewrite andThen_snd, andThen_fst. cbn [call fst snd].
    split; [right; now apply Hclean | now rewrite Hst].
Qed.

End PendingStart.

(** [stopSession] does not cancel a [startSession] that is awaiting the
    microphone.  When the microphone is granted after the stop, the
    continuation keeps the stream and opens the channel without any check
    and returns [true]; the session then holds a channel and a microphone but
    no audio context.  As long as no teardown happens, whatever messages and
    signals arrive, it keeps holding both, wires no capture, schedules no
    audio and never stops the tracks of the microphone; the next teardown,
    be it [stopSession], a channel error or the close of the channel, stops
    them, and [stopSession] also closes the channel and leaves the object as
    it was created. *)
Theorem stop_does_not_cancel_pending_start
        (s : LiveChatService) (stream channel : handle) :
  tidy s ->
  let s1 := fst (stopSession s) in
  let s2 := mkService (Some channel) None None None None (Some stream) None
                      [] 0 "" "" in
  startSession_resume (Done stream) (Done channel) s1 = (s2, [], ReturnsTrue)
  /\ (forall a b, onopen a b s2 = (s2, [console_debug "Live session opened."]))
  /\ (forall evs, Forall goes_on evs ->
        same_handles s2 (fst (run evs s2))
        /\ sources (fst (run evs s2)) = []
        /\ scheduled (snd (run evs s2)) = []
        /\ tracks_stopped (snd (run evs s2)) = []
        /\ (forall ev, teardown ev ->
              In (tracks_stop stream)
                 (snd (handle_event ev (fst (run evs s2))))
              /\ mediaStream (fst (handle_event ev (fst (run evs s2))))
                 = None))
  /\ In (session_close channel) (snd (stopSession s2))
  /\ fst (stopSession s2) = initial.
Proof.
  intros Htidy. cbv zeta. rewrite (stopSession_tidy Htidy).
  split; [reflexivity|]. split; [reflexivity|].
  split; [|cbn; tauto].
  intros evs Hall.
  set (s2 := mkService (Some channel) None None None None (Some stream) None
                       [] 0 "" "").
  destruct (@run_without_context evs s2 Hall) as (Hh & Hs & Hsch & Htr);
    try reflexivity; [discriminate|].
  split; [exact Hh|]. split; [exact Hs|]. split; [exact Hsch|].
  split; [exact Htr|].
  intros ev Hev. apply teardown_stops_tracks; [exact Hev|].
  destruct Hh as (_ & _ & _ & _ & _ & -> & _). reflexivity.
Qed.

Lemma stop_does_not_cancel_pending_start_example :
  let awaiting := fst (fst (startSession_begin (Done 1%nat) (Done 2%nat)
                                               3%nat initial)) in
  let resumed := mkService (Some 5%nat) None None None None (Some 4%nat) None
                           [] 0 "" "" in
  let evs := [channel_open 6%nat 7%nat;
              channel_message (input_message "hi") 0 8%nat] in
  tidy awaiting
  /\ startSession_resume (Done 4%nat) (Done 5%nat)
                         (fst (stopSession awaiting))
     = (resumed, [], ReturnsTrue)
  /\ tracks_stopped (snd (run evs resumed)) = []
  /\ In (tracks_stop 4%nat)
        (snd (handle_event channel_close (fst (run evs resumed)))).
Proof.
  cbv zeta.
  assert (Htidy : tidy (fst (fst (startSession_begin
                                    (Done 1%nat) (Done 2%nat) 3%nat initial))))
    by (intros [=]).
  pose proof (@stop_does_not_cancel_pending_start _ 4%nat 5%nat Htidy) as H.
  cbv zeta in H. destruct H as (Hresume & _ & Hrun & _).
  split; [exact Htidy|].
  split; [exact Hresume|].
  destruct (Hrun [channel_open 6%nat 7%nat;
                  channel_message (input_message "hi") 0 8%nat])
    as (_ & _ & _ & Htr & Hdown).
  { repeat constructor. }
  split; [exact Htr|].
  apply (Hdown channel_close). right. right. reflexivity.
Defined.

(** Audio carried by the interrupting message itself is cut as well: the
    unit is started and, in the same call, stopped with every other tracked
    source; the set ends empty and the schedule at 0. *)
Theorem interrupting_message_cuts_its_own_audio
        (m : LiveServerMessage) (t : Q) (n : handle) (s : LiveChatService)
        (base64 : string) (b : AudioBuffer) (out : handle) :
  interrupted m = true ->
  inlineData m = Some base64 ->
  decode_packet base64 = Returns b ->
  outputAudioContext s <> None ->
  outputNode s = Some out ->
  (forall src, In src (sources s) -> source_node src <> n) ->
  let unit := mkSource n (Qmax (nextStartTime s) t) (duration b) in
  snd (onmessage m t n s)
  = [node_connect n out; source_start unit;
     onTranscriptionUpdate
       (currentInputTranscription s ++ appended (inputTranscription m))%string
       (currentOutputTranscription s
        ++ appended (outputTranscription m))%string]
    ++ stop_all (sources s) ++ [source_stop n]
  /\ sources (fst (onmessage m t n s)) = []
  /\ nextStartTime (fst (onmessage m t n s)) = 0%Q.
Proof.
  intros Hint Hdata Hb Hctx Hnode Hfresh. cbv zeta.
  assert (Hne : base64 <> "").
  { intros ->. vm_compute in Hb. discriminate. }
  assert (Hnew : List.existsb (has_node n) (sources s) = false).
  { destruct (List.existsb (has_node n) (sources s)) eqn:Hex; [|reflexivity].
    apply existsb_exists in Hex. destruct Hex as (x & Hx & Hn).
    unfold has_node in Hn. apply Nat.eqb_eq in Hn.
    exfalso. exact (Hfresh x Hx Hn). }
  assert (Hplay : play_audio m t n s
                  = (with_sources
                       (sources s ++ [mkSource n (Qmax (nextStartTime s) t)
                                               (duration b)])
                       (with_nextStartTime
                          (Qmax (nextStartTime s) t + duration b)%Q
                          (with_nextStartTime (Qmax (nextStartTime s) t) s)),
                     [node_connect n out;
                      source_start (mkSource n (Qmax (nextStartTime s) t)
                                             (duration b))])).
  { unfold play_audio. rewrite Hdata, Hnode.
    destruct (outputAudioContext s); [|congruence].
    destruct (String.eqb_spec base64 ""); [congruence|].
    rewrite Hb. cbn [nextStartTime with_nextStartTime sources].
    unfold sources_add. cbn [source_node]. now rewrite Hnew. }
  destruct (onmessage_interrupted m t n s Hint) as (Hempty & Hzero & _).
  split; [|split; assumption].
  destruct (onmessage_parts m t n s) as [_ Hsnd]. cbv zeta in Hsnd.
  rewrite Hsnd, Hplay. cbn [fst snd].
  match goal with
  | |- context [(append_output m ;; append_input m ;; report_transcription m)
                  ?x] =>
      pose proof (transcription_part m x) as Ht
  end.
  cbv zeta in Ht. destruct Ht as (-> & _ & _ & _ & Hsrc & _).
  unfold interrupt. rewrite Hint. cbn [snd]. rewrite Hsrc.
  cbn [sources with_sources currentInputTranscription
       currentOutputTranscription with_nextStartTime].
  unfold stop_all. rewrite map_app. reflexivity.
Qed.

Lemma interrupting_message_cuts_its_own_audio_example :
  let m := mkMessage (Some (silence 3)) None None false true in
  interrupted m = true
  /\ snd (onmessage m 4 10%nat active_session)
     = [node_connect 10%nat 3%nat;
        source_start (mkSource 10%nat 4 (3 # 24000));
        onTranscriptionUpdate "" ""; source_stop 10%nat]
  /\ sources (fst (onmessage m 4 10%nat active_session)) = [].
Proof.
  cbv zeta.
  destruct (decode_packet (silence 3)) as [b|e] eqn:Hb;
    [|vm_compute in Hb; discriminate Hb].
  assert (Hdur : duration b = (3 # 24000)%Q).
  { vm_compute in Hb. injection Hb as <-. reflexivity. }
  assert (Hctx : outputAudioContext active_session <> None) by discriminate.
  assert (Hfresh : forall src, In src (sources active_session) ->
                               source_node src <> 10%nat) by (intros src []).
  pose proof (@interrupting_message_cuts_its_own_audio
                (mkMessage (Some (silence 3)) None None false true) 4 10%nat
                active_session (silence 3) b 3%nat
                eq_refl eq_refl Hb Hctx eq_refl Hfresh) as H.
  cbv zeta in H. destruct H as (Heff & Hsrc & _).
  split; [reflexivity|]. split; [|exact Hsrc].
  rewrite Heff, Hdur. reflexivity.
Defined.

(** Every unit is scheduled at or after the clock value read when its
    packet arrived, never at a negative time and never for a negative
    duration, and the end of the schedule is never negative, over every run
    of events whose clock values are not negative. *)
Theorem schedule_never_in_the_past (evs : list Event) (s : LiveChatService) :
  Forall clock_not_negative evs ->
  (0 <= nextStartTime s)%Q ->
  (0 <= nextStartTime (fst (run evs s)))%Q
  /\ Forall (fun tu => fst tu <= start_when (snd tu)
                       /\ 0 <= start_when (snd tu)
                       /\ 0 <= buffer_duration (snd tu))%Q
            (scheduled_at evs s).
Proof.
  revert s. induction evs as [|ev evs IH]; intros s Hall Hs.
  - cbn. split; [exact Hs | constructor].
  - inversion Hall as [|? ? Hev Hrest]; subst.
    cbn [run scheduled_at]. rewrite andThen_fst.
    assert (Hstep : (0 <= nextStartTime (fst (handle_event ev s)))%Q
                    /\ Forall (fun tu => fst tu <= start_when (snd tu)
                                         /\ 0 <= start_when (snd tu)
                                         /\ 0 <= buffer_duration (snd tu))%Q
                              match ev with
                              | channel_message _ currentTime _ =>
                                  List.map (fun u => (currentTime, u))
                                           (scheduled (snd (handle_event ev s)))
                              | _ => []
                              end).
    { destruct ev as [inCtx outCtx gain | stream session | src proc | data
                      | m t n | node | | | ];
        try (split; [|constructor];
             match goal with
             | |- (0 <= nextStartTime (fst (handle_event ?e s)))%Q =>
                 destruct (@other_event_step e s ltac:(intros; discriminate))
                   as (_ & [-> | ->] & _); [exact Hs | apply Qle_refl]
             end).
      cbn [clock_not_negative] in Hev. cbn [handle_event].
      destruct (message_step m t n s) as [Hstate ->].
      assert (Hmax : (0 <= Qmax (nextStartTime s) t)%Q).
      { apply Qle_trans with t; [exact Hev | apply Q.le_max_r]. }
      destruct (play_audio_cases m t n s) as [(-> & _ & Hnext) | H].
      - split; [|constructor].
        destruct Hstate as [[_ ->] | [_ ->]]; [apply Qle_refl|].
        destruct Hnext as [-> | ->]; assumption.
      - destruct H as (b & base64 & _ & Hb & -> & _ & Hnext).
        pose proof (decode_packet_duration _ Hb) as Hdur.
        split.
        + destruct Hstate as [[_ ->] | [_ ->]]; [apply Qle_refl|].
          rewrite Hnext.
          apply Qle_trans with (Qmax (nextStartTime s) t + 0)%Q;
            [now rewrite Qplus_0_r | now apply Qplus_le_r].
        + cbn [List.map]. constructor; [|constructor].
          cbn [fst snd start_when buffer_duration].
          split; [apply Q.le_max_r | now split]. }
    destruct Hstep as [Hnext Hnow].
    destruct (IH (fst (handle_event ev s)) Hrest Hnext) as [IH1 IH2].
    split; [exact IH1|]. apply Forall_app. now split.
Qed.

Lemma schedule_never_in_the_past_example :
  let evs := [channel_message (audio_message (silence 3)) 5 10%nat;
              channel_message interrupted_message 5 0%nat;
              channel_message (audio_message (silence 3)) 7 11%nat] in
  Forall clock_not_negative evs
  /\ (0 <= nextStartTime active_session)%Q
  /\ List.map (fun tu => start_when (snd tu)) (scheduled_at evs active_session)
     = [5; 7]%Q
  /\ (0 <= nextStartTime (fst (run evs active_session)))%Q.
Proof.
  cbv zeta.
  assert (Hall : Forall clock_not_negative
                   [channel_message (audio_message (silence 3)) 5 10%nat;
                    channel_message interrupted_message 5 0%nat;
                    channel_message (audio_message (silence 3)) 7 11%nat]).
  { repeat constructor; discriminate. }
  assert (Hs : (0 <= nextStartTime active_session)%Q) by discriminate.
  destruct (@schedule_never_in_the_past _ active_session Hall Hs) as [Hn _].
  split; [exact Hall|]. split; [exact Hs|].
  split; [vm_compute; reflexivity | exact Hn].
Defined.

(* ================================================================== *)
(** ** The edit history of App.tsx *)
(* ================================================================== *)

Section HistoryFacts.

Local Open Scope Z_scope.

Lemma item_at_Some (l : list File) (i : Z) :
  0 <= i < Z.of_nat (List.length l) -> exists f, item_at l i = Some f.
Proof.
  intros Hi. unfold item_at.
  destruct (Z.ltb_spec i 0); [lia|].
  destruct (List.nth_error l (Z.to_nat i)) as [f|] eqn:Hf; [now exists f|].
  apply nth_error_None in Hf. lia.
Qed.

Lemma editor_step_keeps_index (ev : EditorEvent) (e : Editor) :
  index_in_history e -> index_in_history (editor_step ev e).
Proof.
  unfold index_in_history. intros He.
  destruct ev as [file | file | | | | ]; cbn [editor_step].
  - right. cbn. lia.
  - right. unfold addImageToHistory. cbn [history historyIndex].
    rewrite length_app. cbn [List.length]. lia.
  - unfold handleUndo, canUndo.
    destruct (Z.ltb_spec 0 (historyIndex e)); [|exact He].
    right. cbn [history historyIndex]. lia.
  - unfold handleRedo, canRedo.
    destruct (Z.ltb_spec (historyIndex e)
                         (Z.of_nat (List.length (history e)) - 1)); [|exact He].
    right. cbn [history historyIndex]. lia.
  - unfold handleReset. destruct (history e) as [|f l] eqn:Hh.
    + rewrite Hh. exact He.
    + right. cbn [history historyIndex List.length]. lia.
  - left. now split.
Qed.

Lemma editor_run_keeps_index (evs : list EditorEvent) :
  forall e, index_in_history e -> index_in_history (editor_run evs e).
Proof.
  induction evs as [|ev evs IH]; intros e He; [exact He|].
  cbn [editor_run]. apply IH. now apply editor_step_keeps_index.
Qed.

Lemma slice_to_whole_prefix (l : list File) (i : Z) :
  0 <= i -> slice_to l i = List.firstn (Z.to_nat i) l.
Proof. intros Hi. unfold slice_to. destruct (Z.ltb_spec i 0); [lia | reflexivity]. Qed.

End HistoryFacts.

(** Whatever sequence of uploads, edits, undos, redos and resets the editor
    goes through from its initial state, the history index points at an
    image of the history, or the history is empty and the index is -1; so
    there is a current image exactly when the history is not empty. *)
Theorem history_index_stays_valid (evs : list EditorEvent) :
  let e := editor_run evs editor_initial in
  index_in_history e
  /\ (currentImage e = None <-> history e = [])
  /\ (originalImage e = None <-> history e = []).
Proof.
  cbv zeta.
  assert (Hinv : index_in_history (editor_run evs editor_initial)).
  { apply editor_run_keeps_index. left. now split. }
  split; [exact Hinv|].
  destruct Hinv as [[Hh Hi] | Hi].
  - unfold currentImage, originalImage. rewrite Hh, Hi. cbn. tauto.
  - assert (Hne : history (editor_run evs editor_initial) <> []).
    { intros Hh. rewrite Hh in Hi. cbn in Hi. lia. }
    destruct (@item_at_Some (history (editor_run evs editor_initial))
                            (historyIndex (editor_run evs editor_initial)) Hi)
      as [f Hf].
    destruct (@item_at_Some (history (editor_run evs editor_initial)) 0
                            ltac:(lia)) as [g Hg].
    unfold currentImage, originalImage. rewrite Hf, Hg.
    split; split; intros H; congruence.
Qed.

(** Undo and redo are inverse to each other on the history: when an undo
    is possible, redo after it gives back the same history and the same
    index, and when a redo is possible, undo after it does. *)
Theorem undo_redo_inverse (e : Editor) :
  index_in_history e ->
  (canUndo e = true ->
   history (handleRedo (handleUndo e)) = history e
   /\ historyIndex (handleRedo (handleUndo e)) = historyIndex e
   /\ canRedo (handleUndo e) = true)
  /\ (canRedo e = true ->
      history (handleUndo (handleRedo e)) = history e
      /\ historyIndex (handleUndo (handleRedo e)) = historyIndex e
      /\ canUndo (handleRedo e) = true).
Proof.
  intros [[Hh Hi] | Hi]; unfold handleRedo, handleUndo, canUndo, canRedo.
  - rewrite Hi, Hh. cbn. split; discriminate.
  - split; intros Hcan.
    + rewrite Hcan. cbn [history historyIndex].
      apply Z.ltb_lt in Hcan.
      replace (historyIndex e - 1 <? Z.of_nat (List.length (history e)) - 1)%Z
        with true by (symmetry; apply Z.ltb_lt; lia).
      cbn [history historyIndex]. repeat split; try reflexivity. lia.
    + rewrite Hcan. cbn [history historyIndex].
      apply Z.ltb_lt in Hcan.
      replace (0 <? historyIndex e + 1)%Z
        with true by (symmetry; apply Z.ltb_lt; lia).
      cbn [history historyIndex]. repeat split; try reflexivity. lia.
Qed.

Lemma undo_redo_inverse_example :
  let a := mkFile "a.png" "image/png" [] in
  let b := mkFile "b.png" "image/png" [] in
  let e := editor_run [image_uploaded a; image_added b] editor_initial in
  index_in_history e
  /\ canUndo e = true
  /\ currentImage (handleUndo e) = Some a
  /\ currentImage (handleRedo (handleUndo e)) = Some b.
Proof.
  cbv zeta.
  assert (Hinv : index_in_history
                   (editor_run [image_uploaded (mkFile "a.png" "image/png" []);
                                image_added (mkFile "b.png" "image/png" [])]
                               editor_initial)).
  { right. split; [discriminate | reflexivity]. }
  destruct (@undo_redo_inverse _ Hinv) as [Hundo _].
  destruct (Hundo eq_refl) as (Hh & Hi & _).
  split; [exact Hinv|]. split; [reflexivity|]. split; [reflexivity|].
  unfold currentImage. rewrite Hh, Hi. reflexivity.
Defined.

(** Adding an edited image: it becomes the current image and the last one of
    the history, the images up to the one that was current are kept, those
    that could have been redone are dropped, and an undo gives back the
    image that was current. *)
Theorem addImageToHistory_spec (f : File) (e : Editor) (cur : File) :
  index_in_history e ->
  currentImage e = Some cur ->
  let e' := addImageToHistory f e in
  history e'
  = List.firstn (Z.to_nat (historyIndex e + 1)) (history e) ++ [f]
  /\ historyIndex e' = (historyIndex e + 1)%Z
  /\ currentImage e' = Some f
  /\ canRedo e' = false
  /\ canUndo e' = true
  /\ originalImage e' = originalImage e
  /\ currentImage (handleUndo e') = Some cur.
Proof.
  intros Hinv Hcur. cbv zeta.
  assert (Hi : (0 <= historyIndex e < Z.of_nat (List.length (history e)))%Z).
  { destruct Hinv as [[Hh Hi] | Hi]; [|exact Hi].
    unfold currentImage in Hcur. rewrite Hh, Hi in Hcur. discriminate. }
  unfold addImageToHistory.
  rewrite slice_to_whole_prefix by lia.
  set (k := Z.to_nat (historyIndex e + 1)).
  assert (Hk : (k <= List.length (history e))%nat) by (subst k; lia).
  assert (Hlen : List.length (List.firstn k (history e)) = k)
    by now apply firstn_length_le.
  assert (Hidx : (Z.of_nat (List.length (List.firstn k (history e) ++ [f])) - 1
                  = historyIndex e + 1)%Z).
  { rewrite length_app, Hlen. cbn [List.length]. subst k. lia. }
  cbn [history historyIndex]. rewrite Hidx.
  split; [reflexivity|]. split; [reflexivity|].
  assert (Hcurrent : item_at (List.firstn k (history e) ++ [f])
                             (historyIndex e + 1) = Some f).
  { unfold item_at. destruct (Z.ltb_spec (historyIndex e + 1) 0); [lia|].
    fold k. rewrite nth_error_app2 by lia. rewrite Hlen, Nat.sub_diag.
    reflexivity. }
  assert (Hold : forall i, (0 <= i <= historyIndex e)%Z ->
                           item_at (List.firstn k (history e) ++ [f]) i
                           = item_at (history e) i).
  { intros i Hi'. unfold item_at. destruct (Z.ltb_spec i 0); [lia|].
    rewrite nth_error_app1 by lia. rewrite nth_error_firstn.
    destruct (Nat.ltb_spec (Z.to_nat i) k); [reflexivity | subst k; lia]. }
  split; [exact Hcurrent|]. split.
  { unfold canRedo. cbn [history historyIndex]. rewrite Hidx.
    apply Z.ltb_ge. lia. }
  split.
  { unfold canUndo. cbn [historyIndex]. apply Z.ltb_lt. lia. }
  split.
  { unfold originalImage. cbn [history]. apply Hold. lia. }
  unfold handleUndo, canUndo. cbn [historyIndex].
  replace (0 <? historyIndex e + 1)%Z with true
    by (symmetry; apply Z.ltb_lt; lia).
  unfold currentImage. cbn [history historyIndex].
  replace (historyIndex e + 1 - 1)%Z with (historyIndex e) by lia.
  rewrite Hold by lia. exact Hcur.
Qed.

Lemma addImageToHistory_spec_example :
  let a := mkFile "a.png" "image/png" [] in
  let b := mkFile "b.png" "image/png" [] in
  let c := mkFile "c.png" "image/png" [] in
  let e := editor_run [image_uploaded a; image_added b; undo_clicked]
                      editor_initial in
  index_in_history e
  /\ currentImage e = Some a
  /\ history (addImageToHistory c e) = [a; c]
  /\ currentImage (handleUndo (addImageToHistory c e)) = Some a.
Proof.
  cbv zeta.
  assert (Hinv : index_in_history
                   (editor_run [image_uploaded (mkFile "a.png" "image/png" []);
                                image_added (mkFile "b.png" "image/png" []);
                                undo_clicked] editor_initial)).
  { right. split; [discriminate | reflexivity]. }
  pose proof (@addImageToHistory_spec
                (mkFile "c.png" "image/png" []) _
                (mkFile "a.png" "image/png" []) Hinv eq_refl) as H.
  cbv zeta in H. destruct H as (Hh & _ & _ & _ & _ & _ & Hundo).
  split; [exact Hinv|]. split; [reflexivity|].
  split; [rewrite Hh; reflexivity | exact Hundo].
Defined.

(* ================================================================== *)
(** ** Data URLs *)
(* ================================================================== *)

Section DataUrlFacts.

Lemma split_comma_not_nil (s : string) : split_comma s <> [].
Proof.
  induction s as [|c s IH]; cbn; [discriminate|].
  destruct (Ascii.eqb c ","); [discriminate|].
  destruct (split_comma s); discriminate.
Qed.

Lemma split_comma_plain (s : string) :
  contains "," s = false -> split_comma s = [s].
Proof.
  induction s as [|c s IH]; cbn; [reflexivity|].
  destruct (Ascii.eqb c ","); cbn; [discriminate|].
  intros H. now rewrite (IH H).
Qed.

Lemma split_comma_app (a b : string) :
  contains "," a = false ->
  split_comma (a ++ String "," b)%string = a :: split_comma b.
Proof.
  induction a as [|c a IH]; cbn; [reflexivity|].
  destruct (Ascii.eqb c ","); cbn; [discriminate|].
  intros H. now rewrite (IH H).
Qed.

(** A string with a comma splits into two pieces at least. *)
Lemma split_comma_two (s : string) :
  contains "," s = true ->
  exists head data rest, split_comma s = head :: data :: rest.
Proof.
  induction s as [|c s IH]; cbn; [discriminate|].
  destruct (Ascii.eqb c ","); cbn.
  - intros _. destruct (split_comma s) as [|p ps] eqn:E.
    + now destruct (split_comma_not_nil s).
    + now exists "", p, ps.
  - intros H. destruct (IH H) as (h & d & r & ->). now exists (String c h), d, r.
Qed.

Lemma contains_app (c : ascii) (a b : string) :
  contains c (a ++ b)%string = contains c a || contains c b.
Proof.
  induction a as [|d a IH]; cbn; [reflexivity|].
  now rewrite IH, orb_assoc.
Qed.

Lemma lazy_until_semicolon_app (m rest : string) :
  contains ";" m = false -> has_line_terminator m = false ->
  lazy_until_semicolon (m ++ String ";" rest)%string = Some m.
Proof.
  induction m as [|c m IH]; cbn; [reflexivity|].
  destruct (Ascii.eqb c ";"); cbn; [discriminate|].
  destruct (is_line_terminator c); cbn; [discriminate|].
  intros H1 H2. now rewrite (IH H1 H2).
Qed.

Lemma String_eqb_empty (m : string) :
  m <> ""%string -> String.eqb m "" = false.
Proof. destruct m; [congruence | reflexivity]. Qed.

(** A data URL [data:<type>;<parameters>,<payload>] with a plain type. *)
Lemma parse_data_url_plain (m params d : string) :
  plain_mime m -> contains "," params = false ->
  parse_data_url (data_url m params d)
  = Parsed m (List.hd ""%string (split_comma d)).
Proof.
  intros (Hne & Hcomma & Hsemi & Hline) Hparams.
  unfold parse_data_url, data_url.
  set (head := ("data:" ++ m ++ ";" ++ params)%string).
  assert (Hsplit : split_comma ("data:" ++ m ++ ";" ++ params ++ "," ++ d)
                   = head :: split_comma d).
  { assert (Hhead : contains "," head = false).
    { unfold head. rewrite !contains_app, Hcomma, Hparams. reflexivity. }
    rewrite <- (split_comma_app _ d Hhead). f_equal. unfold head.
    change ("," ++ d)%string with (String "," d).
    now rewrite !string_app_assoc. }
  rewrite Hsplit.
  destruct (split_comma d) as [|data rest] eqn:Hd.
  { now destruct (split_comma_not_nil d). }
  assert (Hmatch : match_mime head = Some m).
  { unfold head. cbn. change (";" ++ params)%string with (String ";" params).
    now rewrite (lazy_until_semicolon_app m params Hsemi Hline). }
  rewrite Hmatch, (String_eqb_empty Hne). reflexivity.
Qed.

Lemma parse_data_url_invalid (s : string) :
  contains "," s = false
  <-> parse_data_url s = ParseError "Invalid data URL"%string.
Proof.
  unfold parse_data_url. split.
  - intros H. now rewrite (split_comma_plain s H).
  - destruct (contains "," s) eqn:H; [|reflexivity].
    destruct (split_comma_two s H) as (h & d & r & ->).
    destruct (match_mime h) as [m|]; [destruct (String.eqb m "")|];
      discriminate.
Qed.

End DataUrlFacts.

(** Without a comma in what the reader loaded, [fileToPart] rejects and
    [dataURLtoFile] throws, both with "Invalid data URL", and only then;
    [fileToBase64] resolves in exactly that case, with [undefined]. *)
Theorem data_url_without_comma (s : string) :
  (contains "," s = false
   <-> fileToPart (Done s) = Failed (Error "Invalid data URL"))
  /\ (contains "," s = false
      <-> forall filename,
            dataURLtoFile s filename = Rejected "Invalid data URL")
  /\ (contains "," s = false <-> fileToBase64 (Done s) = Done None).
Proof.
  pose proof (parse_data_url_invalid s) as [Hto Hfrom].
  split; [|split]; split.
  - intros H. unfold fileToPart. now rewrite (Hto H).
  - unfold fileToPart. intros H. apply Hfrom.
    destruct (parse_data_url s); [discriminate | congruence].
  - intros H filename. unfold dataURLtoFile. now rewrite (Hto H).
  - intros H. specialize (H ""). unfold dataURLtoFile in H. apply Hfrom.
    destruct (parse_data_url s) as [m d|msg];
      [destruct (Base64.atob d); discriminate | congruence].
  - intros H. unfold fileToBase64. now rewrite (split_comma_plain s H).
  - unfold fileToBase64. destruct (contains "," s) eqn:H; [|reflexivity].
    destruct (split_comma_two s H) as (h & d & r & ->). discriminate.
Qed.

(** From a data URL [data:<type>;<parameters>,<payload>] whose type is not
    empty and holds no comma, semicolon or line break, [fileToPart] takes
    the type without its parameters and the payload up to its first comma;
    [fileToBase64] resolves with the same payload. *)
Theorem data_url_is_parsed (m params d : string) :
  plain_mime m -> contains "," params = false ->
  let dataUrl := data_url m params d in
  fileToPart (Done dataUrl)
  = Done (mkInlineData m (List.hd ""%string (split_comma d)))
  /\ fileToBase64 (Done dataUrl)
     = Done (Some (List.hd ""%string (split_comma d)))
  /\ (contains "," d = false -> List.hd ""%string (split_comma d) = d).
Proof.
  intros Hm Hp dataUrl. split; [|split].
  - unfold fileToPart, dataUrl. now rewrite (@parse_data_url_plain m params d Hm Hp).
  - pose proof (@parse_data_url_plain m params d Hm Hp) as H.
    unfold parse_data_url in H. unfold fileToBase64. fold dataUrl in H.
    destruct (split_comma dataUrl) as [|h [|data rest]]; try discriminate.
    destruct (match_mime h) as [m'|]; [destruct (String.eqb m' "")|];
      try discriminate.
    cbn. congruence.
  - intros H. now rewrite (split_comma_plain d H).
Qed.

Lemma data_url_is_parsed_example :
  fileToPart (Done "data:image/png;base64,iVBORw0KGgo=")
  = Done (mkInlineData "image/png" "iVBORw0KGgo=").
Proof.
  assert (Hm : plain_mime "image/png").
  { repeat split; (discriminate || reflexivity). }
  destruct (@data_url_is_parsed "image/png" "base64" "iVBORw0KGgo=" Hm
              eq_refl) as (H & _ & _).
  exact H.
Defined.

Section ApiResponseFacts.

Lemma find_first (A : Type) (f : A -> bool) (l : list A) (p : A) :
  List.find f l = Some p
  <-> exists before after,
        l = before ++ p :: after /\ f p = true
        /\ Forall (fun q => f q = false) before.
Proof.
  induction l as [|a l IH]; cbn.
  - split; [discriminate|].
    intros ([|b before] & after & H & _); discriminate.
  - destruct (f a) eqn:Ha.
    + split.
      * intros [= ->]. exists [], l. auto.
      * intros ([|b before] & after & H & Hp & Hall).
        -- cbn in H. congruence.
        -- cbn in H. injection H as <- _. inversion Hall; congruence.
    + rewrite IH. split.
      * intros (before & after & -> & Hp & Hall).
        exists (a :: before), after. auto.
      * intros ([|b before] & after & H & Hp & Hall).
        -- cbn in H. injection H as <- _. congruence.
        -- cbn in H. injection H as <- ->. inversion Hall; subst.
           exists before, after. auto.
Qed.

(** [handleApiResponse] without its two guards on [promptFeedback]. *)
Lemma handleApiResponse_unblocked (response : GenerateContentResponse)
      (context : string) :
  is_blocked response = false ->
  handleApiResponse response context
  = match imagePartFromResponse response with
    | Some image =>
        Done ("data:" ++ template (response_mimeType image) ++ ";base64,"
              ++ template (response_data image))%string
    | None => Failed (Error (no_image_message response context))
    end.
Proof.
  unfold is_blocked, handleApiResponse.
  destruct (promptFeedback response) as [f|]; [|reflexivity].
  now intros ->.
Qed.

Lemma handleApiResponse_blocked (response : GenerateContentResponse)
      (context : string) :
  is_blocked response = true ->
  exists message, handleApiResponse response context = Failed (Error message).
Proof.
  unfold is_blocked, handleApiResponse.
  destruct (promptFeedback response) as [f|]; [|discriminate].
  intros ->. now exists (blocked_message f).
Qed.

(** [dataURLtoFile] reads the payload as [decode] does. *)
Lemma dataURLtoFile_decode (dataurl filename : string) :
  dataURLtoFile dataurl filename
  = match parse_data_url dataurl with
    | Parsed mime data =>
        match decode data with
        | Some bytes => Converted (new_File bytes filename mime)
        | None => BadBase64
        end
    | ParseError message => Rejected message
    end.
Proof.
  unfold dataURLtoFile, decode.
  destruct (parse_data_url dataurl) as [mime data|]; [|reflexivity].
  now destruct (Base64.atob data).
Qed.

End ApiResponseFacts.

(** [handleApiResponse] returns exactly when the prompt was not blocked and
    the first candidate has a part with inline data; the URL is built from
    the first such part, whatever the candidates after the first and the
    parts after that one hold.  What it returns always has a comma, so that
    [dataURLtoFile] never answers "Invalid data URL" to it. *)
Theorem handleApiResponse_returns_iff
        (response : GenerateContentResponse) (context url : string) :
  (handleApiResponse response context = Done url
   <-> is_blocked response = false
       /\ exists candidate others parts before p after image,
            candidates response = Some (candidate :: others)
            /\ content_parts candidate = Some parts
            /\ parts = before ++ p :: after
            /\ Forall (fun q => part_inlineData q = None) before
            /\ part_inlineData p = Some image
            /\ url = ("data:" ++ template (response_mimeType image)
                      ++ ";base64," ++ template (response_data image))%string)
  /\ (handleApiResponse response context = Done url ->
      forall filename,
        dataURLtoFile url filename <> Rejected "Invalid data URL").
Proof.
  assert (Hiff :
    handleApiResponse response context = Done url
    <-> is_blocked response = false
        /\ exists candidate others parts before p after image,
             candidates response = Some (candidate :: others)
             /\ content_parts candidate = Some parts
             /\ parts = before ++ p :: after
             /\ Forall (fun q => part_inlineData q = None) before
             /\ part_inlineData p = Some image
             /\ url = ("data:" ++ template (response_mimeType image)
                       ++ ";base64," ++ template (response_data image))%string).
  { split.
    - intros H. destruct (is_blocked response) eqn:Hb.
      { destruct (handleApiResponse_blocked response context Hb) as [m Hm].
        congruence. }
      split; [reflexivity|].
      rewrite (handleApiResponse_unblocked response context Hb) in H.
      unfold imagePartFromResponse, first_candidate in H.
      destruct (candidates response) as [[|c others]|]; try discriminate.
      destruct (content_parts c) as [parts|] eqn:Hparts; try discriminate.
      destruct (List.find has_inlineData parts) as [p|] eqn:Hfind;
        try discriminate.
      apply find_first in Hfind. destruct Hfind as (before & after & Hl & Hp & Hall).
      unfold has_inlineData in Hp.
      destruct (part_inlineData p) as [image|] eqn:Himage; try discriminate.
      exists c, others, parts, before, p, after, image.
      repeat split; auto; [|congruence].
      eapply Forall_impl; [|exact Hall]. intros q. unfold has_inlineData.
      now destruct (part_inlineData q).
    - intros (Hb & c & others & parts & before & p & after & image
              & Hc & Hparts & Hl & Hall & Hp & ->).
      rewrite (handleApiResponse_unblocked response context Hb).
      unfold imagePartFromResponse, first_candidate. rewrite Hc, Hparts.
      assert (Hfind : List.find has_inlineData parts = Some p).
      { apply find_first. exists before, after. repeat split; auto.
        - unfold has_inlineData. now rewrite Hp.
        - eapply Forall_impl; [|exact Hall]. intros q Hq.
          unfold has_inlineData. now rewrite Hq. }
      now rewrite Hfind, Hp. }
  split; [exact Hiff|].
  intros H filename Hrej. apply Hiff in H.
  destruct H as (_ & _ & _ & _ & _ & _ & _ & image & _ & _ & _ & _ & _ & ->).
  assert (Hcomma : contains ","
                     ("data:" ++ template (response_mimeType image)
                      ++ ";base64," ++ template (response_data image))
                   = true).
  { rewrite !contains_app. cbn. now rewrite !orb_true_r. }
  pose proof (parse_data_url_invalid
                ("data:" ++ template (response_mimeType image)
                 ++ ";base64," ++ template (response_data image))) as [_ Hback].
  unfold dataURLtoFile in Hrej.
  destruct (parse_data_url _) as [m d|msg] eqn:Hparse.
  - destruct (Base64.atob d); discriminate.
  - injection Hrej as ->. rewrite (Hback eq_refl) in Hcomma. discriminate.
Qed.

(** The image the model sends reaches the editor with its bytes
    unchanged: when the prompt was not blocked and the first inline part of
    the first candidate has a plain MIME type [m] and a payload without a
    comma that is the base64 of [bytes], [dataURLtoFile] applied to what
    [handleApiResponse] returns gives the file of that name holding [bytes].
    Its type is [m] as the constructor of [File] normalizes it: in lower
    case when [m] is printable ASCII, empty otherwise; a type that is
    already in lower case is kept. *)
Theorem model_image_becomes_file
        (response : GenerateContentResponse) (context filename m d : string)
        (bytes : list byte) :
  is_blocked response = false ->
  imagePartFromResponse response
  = Some (mkResponseInlineData (Some m) (Some d)) ->
  plain_mime m ->
  contains "," d = false ->
  decode d = Some bytes ->
  exists url,
    handleApiResponse response context = Done url
    /\ dataURLtoFile url filename
       = Converted (mkFile filename (normalized_type m) bytes)
    /\ (all_printable m = true -> lowercase m = m ->
        dataURLtoFile url filename = Converted (mkFile filename m bytes)).
Proof.
  intros Hb Himage Hm Hd Hbytes.
  exists (data_url m "base64" d).
  assert (Hfile : dataURLtoFile (data_url m "base64" d) filename
                  = Converted (mkFile filename (normalized_type m) bytes)).
  { rewrite dataURLtoFile_decode.
    rewrite (@parse_data_url_plain m "base64" d Hm eq_refl).
    rewrite (split_comma_plain d Hd). cbn [List.hd]. now rewrite Hbytes. }
  split; [|split; [exact Hfile|]].
  - rewrite (handleApiResponse_unblocked response context Hb), Himage.
    reflexivity.
  - intros Hp Hl. rewrite Hfile. unfold normalized_type.
    now rewrite Hp, Hl.
Qed.

Lemma model_image_becomes_file_example :
  exists url,
    handleApiResponse
      (mkResponse None
         (Some [mkCandidate
                  (Some [mkPart None;
                         mkPart (Some (mkResponseInlineData
                                         (Some "IMAGE/PNG")
                                         (Some (encode [x01; x02; xff]%byte))))])
                  (Some "STOP")])
         None) "edit" = Done url
    /\ dataURLtoFile url "edited.png"
       = Converted (mkFile "edited.png" "image/png" [x01; x02; xff]%byte).
Proof.
  destruct (@model_image_becomes_file
              (mkResponse None
                 (Some [mkCandidate
                          (Some [mkPart None;
                                 mkPart (Some (mkResponseInlineData
                                                 (Some "IMAGE/PNG")
                                                 (Some (encode
                                                          [x01; x02; xff]%byte))))])
                          (Some "STOP")])
                 None)
              "edit" "edited.png" "IMAGE/PNG"
              (encode [x01; x02; xff]%byte) [x01; x02; xff]%byte)
    as (url & Hurl & Hfile & _).
  - reflexivity.
  - reflexivity.
  - repeat split; (discriminate || reflexivity).
  - vm_compute. reflexivity.
  - vm_compute. reflexivity.
  - exists url. split; [exact Hurl | exact Hfile].
Defined.

(* ================================================================== *)

Section GroundingFacts.











End GroundingFacts.


Section SendMessageFacts.

Lemma read_chunks_spec (chunks : list (option string)) (fullText : string) :
  fst (read_chunks chunks fullText)
  = (fullText ++ joined (texts_of chunks))%string
  /\ snd (read_chunks chunks fullText) = List.map onChunk (texts_of chunks).
Proof.
  revert fullText. induction chunks as [|c l IH]; intros fullText; cbn.
  - now rewrite string_app_empty.
  - destruct (truthy c).
    + destruct (IH (fullText ++ template c)%string) as [Hf Hs].
      destruct (read_chunks l (fullText ++ template c)) as [text effects].
      cbn in *. subst. now rewrite string_app_assoc.
    + apply IH.
Qed.

Lemma completions_app (a b : list ChatEffect) :
  completions (a ++ b) = completions a ++ completions b.
Proof.
  induction a as [|e a IH]; [reflexivity|].
  destruct e; cbn; now rewrite ?IH.
Qed.

Lemma chunks_shown_app (a b : list ChatEffect) :
  chunks_shown (a ++ b) = chunks_shown a ++ chunks_shown b.
Proof.
  induction a as [|e a IH]; [reflexivity|].
  destruct e; cbn; now rewrite ?IH.
Qed.

Lemma errors_set_app (a b : list ChatEffect) :
  errors_set (a ++ b) = errors_set a ++ errors_set b.
Proof.
  induction a as [|e a IH]; [reflexivity|].
  destruct e; cbn; now rewrite ?IH.
Qed.

Lemma completions_onChunk (l : list string) :
  completions (List.map onChunk l) = [].
Proof. induction l; cbn; auto. Qed.

Lemma chunks_shown_onChunk (l : list string) :
  chunks_shown (List.map onChunk l) = l.
Proof. induction l; cbn; congruence. Qed.

Lemma errors_set_onChunk (l : list string) :
  errors_set (List.map onChunk l) = [].
Proof. induction l; cbn; auto. Qed.

Lemma sendMessage_opened (s : TextChatService) (a : SendArguments)
      (p : ChatPlatform) (c : handle) (contents : list ContentPart)
      (st : Stream) :
  chat s = Some c -> contents_of a = Done contents ->
  opened_stream p = Done st ->
  sendMessage s a p
  = [setGroundingUrls []; chat_setError None] ++ geolocation_warning s a
    ++ [sendMessageStream (request_of s a contents)]
    ++ List.map onChunk (texts_of (stream_chunks st))
    ++ after_stream p st (joined (texts_of (stream_chunks st))).
Proof.
  intros Hc Ha Hp. unfold sendMessage. rewrite Hc, Ha, Hp.
  destruct (read_chunks_spec (stream_chunks st) "") as [-> ->].
  reflexivity.
Qed.

(** Every way the [try] block ends: an [onComplete] last, none before. *)
Lemma after_stream_completes (p : ChatPlatform) (st : Stream)
      (fullText : string) :
  exists before text urls,
    after_stream p st fullText = before ++ [onComplete text urls]
    /\ completions before = [].
Proof.
  unfold after_stream, chat_failed.
  destruct (stream_failure st) as [err|].
  { now exists [chat_setError (Some ("Chat failed: " ++ message_of err)%string);
                chat_console_error "Chat error:"], ""%string, []. }
  destruct (stream_response st) as [[received|]|err].
  - destruct (iterate_response received) as [r|err].
    + now exists [setGroundingUrls (extractGroundingUrls r)], fullText,
                 (extractGroundingUrls r).
    + now exists [chat_setError
                    (Some ("Chat failed: " ++ message_of err)%string);
                  chat_console_error "Chat error:"], ""%string, [].
  - now exists [chat_setError
                  (Some ("Chat failed: "
                         ++ message_of (Error (undefined_read_message p)))%string);
                chat_console_error "Chat error:"], ""%string, [].
  - now exists [chat_setError (Some ("Chat failed: " ++ message_of err)%string);
                chat_console_error "Chat error:"], ""%string, [].
Qed.

(** A value that is not iterable among the steps fails the whole. *)
Lemma collect_failure (A : Type) (before after : list (attempt A))
      (err : thrown) :
  exists err', collect (before ++ Failed err :: after) = Failed err'.
Proof.
  induction before as [|[a|e] before [err' IH]]; cbn.
  - now exists err.
  - rewrite IH. now exists err'.
  - now exists e.
Qed.

End SendMessageFacts.

(** Once the chat exists, [sendMessage] always completes: whatever the
    files, the flags and the platform do, it first clears the grounding
    links and the error, and its last call is its only call of
    [onComplete].  Without a chat it reports that and never completes. *)
Theorem sendMessage_completes_once (s : TextChatService) (a : SendArguments)
        (p : ChatPlatform) :
  (chat s <> None ->
   exists between fullText urls,
     sendMessage s a p
     = setGroundingUrls [] :: chat_setError None
       :: between ++ [onComplete fullText urls]
     /\ completions between = [])
  /\ (chat s = None ->
      sendMessage s a p
      = [chat_setError (Some "Chat service not initialized."%string)]).
Proof.
  split.
  - intros Hchat. unfold sendMessage.
    destruct (chat s) as [c|]; [clear Hchat | congruence].
    cbn [app].
    destruct (contents_of a) as [contents|err].
    + destruct (opened_stream p) as [st|err].
      * destruct (read_chunks_spec (stream_chunks st) "") as [-> ->].
        destruct (after_stream_completes p st
                    ("" ++ joined (texts_of (stream_chunks st))))
          as (before & text & urls & -> & Hnone).
        exists (geolocation_warning s a
                ++ sendMessageStream (request_of s a contents)
                :: List.map onChunk (texts_of (stream_chunks st)) ++ before),
          text, urls.
        split.
        -- rewrite <- !app_assoc. cbn [app]. now rewrite <- app_assoc.
        -- rewrite completions_app. cbn [completions].
           rewrite completions_app, completions_onChunk, Hnone.
           unfold geolocation_warning.
           destruct (useMapsGrounding a); [destruct (currentGeolocation s)|];
             reflexivity.
      * exists (geolocation_warning s a
                ++ [sendMessageStream (request_of s a contents);
                    chat_setError (Some ("Chat failed: " ++ message_of err)%string);
                    chat_console_error "Chat error:"]),
          ""%string, [].
        split.
        -- rewrite <- app_assoc. reflexivity.
        -- unfold geolocation_warning.
           destruct (useMapsGrounding a); [destruct (currentGeolocation s)|];
             reflexivity.
    + now exists [chat_setError (Some ("Chat failed: " ++ message_of err)%string);
                  chat_console_error "Chat error:"], ""%string, [].
  - intros Hchat. unfold sendMessage. now rewrite Hchat.
Qed.

Lemma sendMessage_completes_once_example :
  exists between fullText urls,
    sendMessage (mkTextChatService (Some 1%nat) None)
                (mkSendArguments "hello" None None false true false false)
                (mkChatPlatform (Failed NotAnError) "")
    = setGroundingUrls [] :: chat_setError None
      :: between ++ [onComplete fullText urls]
    /\ completions between = [].
Proof.
  apply (sendMessage_completes_once
           (mkTextChatService (Some 1%nat) None)
           (mkSendArguments "hello" None None false true false false)
           (mkChatPlatform (Failed NotAnError) "")).
  discriminate.
Defined.

(** Once the request is sent and the stream is open, every chunk that has
    text is handed to [onChunk], in order, however the stream ends.  When
    the stream ends well and its final response can be iterated,
    [onComplete] receives the texts joined and the links of that response,
    and no error is set.  When the stream throws, or awaiting the final
    response fails, or the stream has no [response] property, or a value
    that [extractGroundingUrls] iterates is not iterable, as is a
    [placeAnswerSources] that is an object, the error is set and
    [onComplete] receives the empty text and no link, although the chunks
    were shown. *)
Theorem sendMessage_stream_outcome
        (s : TextChatService) (a : SendArguments) (p : ChatPlatform)
        (c : handle) (contents : list ContentPart) (st : Stream) :
  chat s = Some c -> contents_of a = Done contents ->
  opened_stream p = Done st ->
  let effects := sendMessage s a p in
  let texts := texts_of (stream_chunks st) in
  chunks_shown effects = texts
  /\ (forall received r,
        stream_failure st = None ->
        stream_response st = Done (Some received) ->
        iterate_response received = Done r ->
        completions effects = [(joined texts, extractGroundingUrls r)]
        /\ errors_set effects = [None])
  /\ (forall err,
        stream_failure st = Some err
        \/ stream_failure st = None /\ stream_response st = Failed err
        \/ stream_failure st = None /\ stream_response st = Done None
           /\ err = Error (undefined_read_message p)
        \/ (exists received,
              stream_failure st = None
              /\ stream_response st = Done (Some received)
              /\ iterate_response received = Failed err) ->
        completions effects = [(""%string, [])]
        /\ errors_set effects
           = [None; Some ("Chat failed: " ++ message_of err)%string])
  /\ (forall received before chunk after m message,
        received_groundingChunks received
        = Some (an_array (before ++ chunk :: after)) ->
        received_maps chunk = Some m ->
        received_placeAnswerSources m = Some (not_iterable message) ->
        exists err, iterate_response received = Failed err).
Proof.
  intros Hc Ha Hp effects texts. unfold effects, texts.
  rewrite (sendMessage_opened s a p Hc Ha Hp).
  assert (Hw : completions (geolocation_warning s a) = []
               /\ chunks_shown (geolocation_warning s a) = []
               /\ errors_set (geolocation_warning s a) = []).
  { unfold geolocation_warning.
    destruct (useMapsGrounding a); [destruct (currentGeolocation s)|];
      auto. }
  destruct Hw as (Hw1 & Hw2 & Hw3).
  rewrite !completions_app, !chunks_shown_app, !errors_set_app.
  rewrite Hw1, Hw2, Hw3, completions_onChunk, chunks_shown_onChunk,
    errors_set_onChunk.
  cbn [completions chunks_shown errors_set app].
  split; [|split; [|split]].
  - unfold after_stream, chat_failed.
    destruct (stream_failure st);
      [|destruct (stream_response st) as [[received|]|];
        [destruct (iterate_response received)| |]];
      cbn; now rewrite app_nil_r.
  - intros received r Hf Hr Hit. unfold after_stream.
    rewrite Hf, Hr, Hit. auto.
  - intros err [Hf | [(Hf & Hr) | [(Hf & Hr & ->) | (received & Hf & Hr & Hit)]]];
      unfold after_stream; rewrite Hf, ?Hr, ?Hit; auto.
  - intros received before chunk after m message Hchunks Hmaps Hsources.
    unfold iterate_response. rewrite Hchunks, map_app. cbn [List.map].
    assert (Hchunk : iterate_chunk chunk = Failed (Error message)).
    { unfold iterate_chunk, iterate_maps. now rewrite Hmaps, Hsources. }
    rewrite Hchunk.
    destruct (collect_failure (List.map iterate_chunk before)
                              (List.map iterate_chunk after) (Error message))
      as [err ->].
    now exists err.
Qed.

Lemma sendMessage_stream_outcome_example :
  let s := mkTextChatService (Some 1%nat) None in
  let a := mkSendArguments "hello" None None false true false false in
  let received :=
    mkReceivedResponse
      (Some (an_array
               [mkReceivedChunk
                  (Some (mkLink (Some "https://example.org") None))
                  (Some (mkReceivedMaps
                           (Some "https://maps.example/1") (Some "Cafe")
                           (Some (not_iterable
                                    "placeAnswerSources is not iterable"))))])) in
  let p := mkChatPlatform
             (Done (mkStream [Some "Hi"; None; Some ""; Some " there"]%string
                             None (Done (Some received))))
             "Cannot read properties of undefined" in
  chunks_shown (sendMessage s a p) = ["Hi"; " there"]%string
  /\ completions (sendMessage s a p) = [(""%string, [])]
  /\ errors_set (sendMessage s a p)
     = [None;
        Some "Chat failed: placeAnswerSources is not iterable"%string].
Proof.
  intros s a received p.
  pose proof (@sendMessage_stream_outcome s a p 1%nat
                [text_part "hello"]
                (mkStream [Some "Hi"; None; Some ""; Some " there"]%string
                          None (Done (Some received)))
                eq_refl eq_refl eq_refl) as H.
  cbv zeta in H. destruct H as (Hshown & _ & Hfail & _).
  destruct (Hfail (Error "placeAnswerSources is not iterable"))
    as [Hdone Herr].
  { right. right. right. exists received. repeat split; reflexivity. }
  exact (conj Hshown (conj Hdone Herr)).
Defined.

Section RequestFacts.

Lemma only_onChunk (l : list string) (r : StreamRequest) :
  ~ In (sendMessageStream r) (List.map onChunk l).
Proof. induction l as [|x l IH]; cbn; [tauto|]. intros [H|H]; [discriminate | auto]. Qed.

(** The request that is sent is the one built from the arguments. *)
Lemma sent_request (s : TextChatService) (a : SendArguments)
      (p : ChatPlatform) (r : StreamRequest) :
  In (sendMessageStream r) (sendMessage s a p) ->
  exists contents, contents_of a = Done contents /\ r = request_of s a contents.
Proof.
  unfold sendMessage. destruct (chat s) as [c|].
  - cbn [app]. intros [H|[H|H]]; try discriminate.
    destruct (contents_of a) as [contents|err].
    + exists contents. split; [reflexivity|].
      apply in_app_or in H. destruct H as [H|H].
      { unfold geolocation_warning in H.
        destruct (useMapsGrounding a); [destruct (currentGeolocation s)|];
          cbn in H; intuition discriminate. }
      destruct H as [H|H]; [congruence|].
      destruct (opened_stream p) as [st|err].
      * destruct (read_chunks_spec (stream_chunks st) "") as [Hf Hs].
        rewrite Hs in H. apply in_app_or in H. destruct H as [H|H].
        { now apply only_onChunk in H. }
        unfold after_stream, chat_failed in H.
        destruct (stream_failure st);
          [|destruct (stream_response st) as [[received|]|];
            [destruct (iterate_response received)| |]];
          cbn in H; intuition discriminate.
      * cbn in H. intuition discriminate.
    + cbn in H. intuition discriminate.
  - cbn. intros [H|[]]. discriminate.
Qed.

Lemma unshift_file_parts (file : option (attempt string))
      (contents result : list ContentPart) :
  unshift_file file contents = Done result ->
  result = contents \/ exists d, result = inlineData_part d :: contents.
Proof.
  unfold unshift_file. destruct file as [loaded|]; [|intros [= <-]; auto].
  destruct (fileToPart loaded) as [part|]; [|discriminate].
  intros [= <-]. right. now exists part.
Qed.

End RequestFacts.

(** A request that [sendMessage] sends never combines a response MIME type
    with grounding tools: it has the type [text/markdown] exactly when it
    has no tools.  A thinking budget goes only to the pro model, a position
    only with the Maps tool, and the message is the last part, after at most
    two files. *)
Theorem sent_request_is_consistent
        (s : TextChatService) (a : SendArguments) (p : ChatPlatform)
        (r : StreamRequest) :
  In (sendMessageStream r) (sendMessage s a p) ->
  (request_tools r = None
   <-> responseMimeType r = Some "text/markdown"%string)
  /\ (request_tools r <> None -> responseMimeType r = None)
  /\ (thinkingBudget r <> None ->
      thinkingBudget r = Some 32768
      /\ request_model r = "gemini-2.5-pro"%string)
  /\ (retrieval_latLng r <> None ->
      exists tools, request_tools r = Some tools /\ In googleMaps tools)
  /\ (exists files,
        request_parts r = files ++ [text_part (send_message a)]
        /\ (List.length files <= 2)%nat).
Proof.
  intros Hin. destruct (sent_request s a p r Hin) as (contents & Hc & ->).
  unfold request_of, tools_of, modelName_of.
  cbn [request_tools responseMimeType thinkingBudget request_model
       retrieval_latLng request_parts].
  split; [|split; [|split; [|split]]].
  - destruct (useSearchGrounding a), (useMapsGrounding a); cbn;
      split; intros; congruence.
  - destruct (useSearchGrounding a), (useMapsGrounding a); cbn;
      intros; congruence.
  - destruct (useFlashLite a), (useThinkingMode a); cbn;
      intros; split; congruence.
  - destruct (useSearchGrounding a), (useMapsGrounding a); cbn;
      intros H; try congruence.
    + exists [googleSearch; googleMaps]. cbn. auto.
    + exists [googleMaps]. cbn. auto.
  - unfold contents_of in Hc.
    destruct (unshift_file (imageFile a) [text_part (send_message a)])
      as [c1|] eqn:H1; [|discriminate].
    apply unshift_file_parts in H1. apply unshift_file_parts in Hc.
    destruct H1 as [->|[d1 ->]], Hc as [->|[d2 ->]].
    + exists []. cbn. auto.
    + exists [inlineData_part d2]. cbn. auto.
    + exists [inlineData_part d1]. cbn. auto.
    + exists [inlineData_part d2; inlineData_part d1]. cbn. auto.
Qed.

Lemma sent_request_is_consistent_example :
  let s := mkTextChatService (Some 1%nat) (Some (48 # 1, 2 # 1)%Q) in
  let a := mkSendArguments "where" None None true true true false in
  let r := request_of s a [text_part "where"] in
  In (sendMessageStream r)
     (sendMessage s a (mkChatPlatform (Failed NotAnError) ""))
  /\ responseMimeType r = None
  /\ thinkingBudget r = Some 32768
  /\ request_model r = "gemini-2.5-pro"%string.
Proof.
  intros s a r.
  assert (Hin : In (sendMessageStream r)
                   (sendMessage s a (mkChatPlatform (Failed NotAnError) ""))).
  { cbn. auto. }
  destruct (@sent_request_is_consistent s a
              (mkChatPlatform (Failed NotAnError) "") r Hin)
    as (_ & Hnone & Hthink & _).
  split; [exact Hin|].
  split; [apply Hnone; discriminate | apply Hthink; discriminate].
Defined.

(* ================================================================== *)
(** ** VoiceChatPanel: what the observer records *)
(* ================================================================== *)

Section PanelFacts.

Lemma nonempty_app (a b : string) :
  nonempty a = true -> nonempty (a ++ b)%string = true.
Proof. destruct a; [discriminate | reflexivity]. Qed.

Lemma observe_app (e1 e2 : list Effect) (p : VoiceChatPanel) :
  observe (e1 ++ e2) p = observe e2 (observe e1 p).
Proof. unfold observe. now rewrite updates_app, fold_left_app. Qed.

(** The history after updates that all have both texts. *)
Lemma observe_full (us : list (string * string)) (p : VoiceChatPanel) :
  Forall (fun u => nonempty (fst u) = true /\ nonempty (snd u) = true) us ->
  conversationHistory
    (List.fold_left (fun q u => transcription_observer (fst u) (snd u) q)
                    us p)
  = conversationHistory p ++ List.flat_map exchange us.
Proof.
  revert p. induction us as [|u us IH]; intros p Hall; cbn.
  - now rewrite app_nil_r.
  - inversion Hall as [|? ? [Hi Ho] Hrest]; subst.
    rewrite (IH _ Hrest). cbn. rewrite Hi, Ho. cbn.
    now rewrite <- app_assoc.
Qed.

(** The one update of an event that leaves the turn open. *)
Lemma keeps_turn_updates (ev : Event) (s : LiveChatService) :
  keeps_turn ev ->
  updates (snd (handle_event ev s))
  = match ev with
    | channel_message m _ _ =>
        [((currentInputTranscription s
           ++ appended (inputTranscription m))%string,
          (currentOutputTranscription s
           ++ appended (outputTranscription m))%string)]
    | _ => []
    end.
Proof.
  destruct ev as [ | | src proc | data | m t n | node | | | ];
    cbn [keeps_turn]; try contradiction; intros Hev; cbn [handle_event].
  - unfold onopen. destruct (inputAudioContext s), (mediaStream s);
      reflexivity.
  - unfold onaudioprocess. destruct (sessionPromise s); reflexivity.
  - now destruct (onmessage_transcript m t n s) as (Hu & _).
  - reflexivity.
Qed.

Lemma updates_of_open_turn (evs : list Event) (s : LiveChatService) :
  Forall keeps_turn evs ->
  nonempty (currentInputTranscription s) = true ->
  nonempty (currentOutputTranscription s) = true ->
  Forall (fun u => nonempty (fst u) = true /\ nonempty (snd u) = true)
         (updates (snd (run evs s)))
  /\ List.length (updates (snd (run evs s))) = messages_in evs.
Proof.
  revert s. induction evs as [|ev evs IH]; intros s Hall Hi Ho.
  - cbn. split; [constructor | reflexivity].
  - inversion Hall as [|? ? Hev Hrest]; subst.
    cbn [run]. rewrite andThen_snd, updates_app, length_app.
    destruct (keeps_turn_step ev s Hev) as (Hi' & Ho' & Hn).
    destruct (IH (fst (handle_event ev s)) Hrest) as [Hfull Hlen].
    { rewrite Hi'. now apply nonempty_app. }
    { rewrite Ho'. now apply nonempty_app. }
    split.
    + apply Forall_app. split; [|exact Hfull].
      rewrite (keeps_turn_updates ev s Hev).
      destruct ev; try constructor; [|constructor].
      cbn [fst snd]. split; now apply nonempty_app.
    + rewrite Hlen, Hn. destruct ev; reflexivity.
Qed.

Lemma stopSession_updates (s : LiveChatService) :
  updates (snd (stopSession s))
  = [(currentInputTranscription s, currentOutputTranscription s)].
Proof.
  unfold stopSession. rewrite andThen_snd, updates_app.
  destruct (stopSessionCleanup_spec (fst (close_channel s)))
    as (_ & _ & _ & _ & _ & _ & _ & _ & ->).
  unfold close_channel. destruct (sessionPromise s); reflexivity.
Qed.

End PanelFacts.

(** Once both transcripts of the open turn have text, every message that
    arrives before the turn completes puts the exchange into the
    conversation history again: the history grows by one user entry and one
    model entry per message, each with the whole transcript so far. *)
Theorem open_turn_is_recorded_on_every_message
        (evs : list Event) (s : LiveChatService) (p : VoiceChatPanel) :
  Forall keeps_turn evs ->
  currentInputTranscription s <> ""%string ->
  currentOutputTranscription s <> ""%string ->
  let history' := conversationHistory (observe (snd (run evs s)) p) in
  history'
  = conversationHistory p
    ++ List.flat_map exchange (updates (snd (run evs s)))
  /\ List.length history'
     = (List.length (conversationHistory p) + 2 * messages_in evs)%nat.
Proof.
  intros Hall Hi Ho history'.
  assert (Hne : forall x : string, x <> ""%string -> nonempty x = true).
  { intros [|c x] Hx; [congruence | reflexivity]. }
  destruct (updates_of_open_turn s Hall (Hne _ Hi) (Hne _ Ho))
    as [Hfull Hlen].
  assert (Hhist : history'
                  = conversationHistory p
                    ++ List.flat_map exchange (updates (snd (run evs s)))).
  { unfold history', observe. now apply observe_full. }
  split; [exact Hhist|].
  rewrite Hhist, length_app. f_equal.
  rewrite <- Hlen. clear.
  induction (updates (snd (run evs s))) as [|u us IH]; [reflexivity|].
  cbn. rewrite IH. lia.
Qed.

Lemma open_turn_is_recorded_on_every_message_example :
  let s := with_transcriptions "hi" "Hel" initial in
  let evs := [channel_message
                (mkMessage None (Some (mkTranscription (Some "lo")))
                           None false false) 0 1%nat;
              channel_message
                (mkMessage None (Some (mkTranscription (Some "!")))
                           None false false) 0 2%nat] in
  conversationHistory
    (observe (snd (run evs s)) (mkVoiceChatPanel true false "hi" "Hel" []))
  = [mkHistoryEntry user "hi"; mkHistoryEntry model "Hello";
     mkHistoryEntry user "hi"; mkHistoryEntry model "Hello!"].
Proof.
  intros s evs.
  destruct (@open_turn_is_recorded_on_every_message evs s
              (mkVoiceChatPanel true false "hi" "Hel" []))
    as [H _].
  - repeat constructor.
  - discriminate.
  - discriminate.
  - exact H.
Defined.

(** Stopping the conversation records the last exchange once more.  After a
    message that leaves both transcripts with text (the observer has put
    the exchange into the history), [stopVoiceChat] appends it again from the
    transcripts of the panel; in the middle of a turn the final update of
    [stopSession] appends it as well, before that.  The panel ends with both
    transcripts empty and the session marked inactive. *)
Theorem stop_records_the_exchange_again
        (m : LiveServerMessage) (t : Q) (n : handle)
        (s : LiveChatService) (p : VoiceChatPanel) :
  let input := (currentInputTranscription s
                ++ appended (inputTranscription m))%string in
  let output := (currentOutputTranscription s
                 ++ appended (outputTranscription m))%string in
  input <> ""%string -> output <> ""%string ->
  let received := onmessage m t n s in
  let shown := observe (snd received) p in
  let stopped := fst (stopVoiceChat shown (fst received)) in
  conversationHistory shown
  = conversationHistory p ++ exchange (input, output)
  /\ conversationHistory stopped
     = conversationHistory p ++ exchange (input, output)
       ++ (if turnComplete m then [] else exchange (input, output))
       ++ exchange (input, output)
  /\ panel_inputTranscription stopped = ""%string
  /\ panel_outputTranscription stopped = ""%string
  /\ isSessionActive stopped = false.
Proof.
  intros input output Hi Ho received shown stopped.
  assert (Hne : forall x : string, x <> ""%string -> nonempty x = true).
  { intros [|c x] Hx; [congruence | reflexivity]. }
  destruct (onmessage_transcript m t n s) as (Hu & Hci & Hco).
  fold input output received in Hu, Hci, Hco.
  assert (Hshown : shown
                   = mkVoiceChatPanel
                       (isSessionActive p) (isLoading p) input output
                       (conversationHistory p ++ exchange (input, output))).
  { unfold shown, observe. rewrite Hu. cbn.
    unfold transcription_observer. now rewrite (Hne _ Hi), (Hne _ Ho). }
  split; [now rewrite Hshown|].
  unfold stopped, stopVoiceChat. cbn [fst]. unfold observe.
  rewrite stopSession_updates, Hci, Hco, Hshown.
  cbn [panel_inputTranscription panel_outputTranscription fold_left fst snd
       conversationHistory isSessionActive].
  rewrite (Hne _ Hi), (Hne _ Ho).
  repeat split.
  destruct (turnComplete m); cbn [transcription_observer conversationHistory
                                    fst snd nonempty].
  - cbn. now rewrite <- !app_assoc.
  - unfold transcription_observer. rewrite (Hne _ Hi), (Hne _ Ho). cbn.
    now rewrite <- !app_assoc.
Qed.

Lemma stop_records_the_exchange_again_example :
  let s := with_transcriptions "hi" "Hello" initial in
  let m := mkMessage None None None true false in
  conversationHistory
    (fst (stopVoiceChat
            (observe (snd (onmessage m 0 1%nat s))
                     (mkVoiceChatPanel true false "hi" "Hello" []))
            (fst (onmessage m 0 1%nat s))))
  = [mkHistoryEntry user "hi"; mkHistoryEntry model "Hello";
     mkHistoryEntry user "hi"; mkHistoryEntry model "Hello"].
Proof.
  intros s m.
  pose proof (@stop_records_the_exchange_again m 0 1%nat s
                (mkVoiceChatPanel true false "hi" "Hello" [])) as H.
  cbv zeta in H. destruct H as (_ & H & _).
  - discriminate.
  - discriminate.
  - exact H.
Defined.
